(** * canhazaxs: the traversal-and-classification engine

    A shallow embedding of [canhazaxs.c]: the permission evaluator
    ([in_group], [is_executable], [is_setuid], [is_setgid], [is_writable],
    [is_readable]), the bucket store ([record_access],
    [record_access_level]) and the directory walker ([scan_directory]),
    followed by the properties of the specification that were checked
    against them. *)

From stdpp Require Import base list strings.
From Stdlib Require Import Ascii ZArith Lia.

Open Scope Z_scope.

(** ** Machine integers

    [unsigned int] is 32 bits wide and [size_t] 64 bits wide on the
    platforms the program is built for; arithmetic on them wraps. *)

Definition wrap32 (z : Z) : Z := z mod 2 ^ 32.
Definition wrap64 (z : Z) : Z := z mod 2 ^ 64.

(** ** Constants of the system headers

    [<sys/stat.h>] and [<limits.h>] on Linux. The mode constants are
    written in octal in the headers; the decimal values are given here. *)

Definition S_IFMT  : Z := 61440.  (* 0170000 *)
Definition S_IFLNK : Z := 40960.  (* 0120000 *)
Definition S_IFREG : Z := 32768.  (* 0100000 *)
Definition S_IFDIR : Z := 16384.  (* 0040000 *)
Definition S_ISUID : Z := 2048.   (* 04000 *)
Definition S_ISGID : Z := 1024.   (* 02000 *)
Definition S_IRUSR : Z := 256.    (* 0400 *)
Definition S_IWUSR : Z := 128.    (* 0200 *)
Definition S_IXUSR : Z := 64.     (* 0100 *)
Definition S_IRGRP : Z := 32.     (* 040 *)
Definition S_IWGRP : Z := 16.     (* 020 *)
Definition S_IXGRP : Z := 8.      (* 010 *)
Definition S_IROTH : Z := 4.      (* 04 *)
Definition S_IWOTH : Z := 2.      (* 02 *)
Definition S_IXOTH : Z := 1.      (* 01 *)

Definition PATH_MAX : Z := 4096.
Definition NAME_MAX : Z := 255.   (* d_name is char[256] in struct dirent *)

(** ** Data model *)

(** The fields of [struct stat] that the program reads. *)
Record stat : Type := mk_stat {
  st_mode : Z;
  st_uid  : Z;
  st_gid  : Z
}.

(** The identity under test: the globals [g_uid], and [g_groups] cut to
    its first [g_ngroups] cells. It is set once by [obtain_user_info],
    before any scan starts. *)
Record identity : Type := mk_identity {
  g_uid    : Z;
  g_groups : list Z
}.

(** A C integer used as a truth value: anything but zero is true. *)
Definition truthy (z : Z) : bool := negb (z =? 0).

Definition S_ISLNK (m : Z) : bool := Z.land m S_IFMT =? S_IFLNK.
Definition S_ISDIR (m : Z) : bool := Z.land m S_IFMT =? S_IFDIR.

(** ** Permission evaluator *)

Section Evaluator.

Variable id : identity.

(** The loop of [in_group] over [g_groups[0 .. g_ngroups-1]]. *)
Fixpoint in_group_loop (groups : list Z) (gid : Z) : bool :=
  match groups with
  | [] => false
  | g :: rest => if g =? gid then true else in_group_loop rest gid
  end.

Definition in_group (gid : Z) : bool := in_group_loop (g_groups id) gid.

Definition is_executable (sb : stat) : bool :=
  if g_uid id =? 0 then true
  else if truthy (Z.land (st_mode sb) S_IXOTH) then true
  else if truthy (Z.land (st_mode sb) S_IXUSR) && (st_uid sb =? g_uid id)
    then true
  else if truthy (Z.land (st_mode sb) S_IXGRP) && in_group (st_gid sb)
    then true
  else false.

Definition is_setuid (sb : stat) : bool :=
  is_executable sb && truthy (Z.land (st_mode sb) S_ISUID).

Definition is_setgid (sb : stat) : bool :=
  is_executable sb && truthy (Z.land (st_mode sb) S_ISGID).

(** The root test is commented out in the source of [is_writable] and
    of [is_readable]. *)
Definition is_writable (sb : stat) : bool :=
  if truthy (Z.land (st_mode sb) S_IWOTH) then true
  else if truthy (Z.land (st_mode sb) S_IWUSR) && (st_uid sb =? g_uid id)
    then true
  else if truthy (Z.land (st_mode sb) S_IWGRP) && in_group (st_gid sb)
    then true
  else false.

Definition is_readable (sb : stat) : bool :=
  if truthy (Z.land (st_mode sb) S_IROTH) then true
  else if truthy (Z.land (st_mode sb) S_IRUSR) && (st_uid sb =? g_uid id)
    then true
  else if truthy (Z.land (st_mode sb) S_IRGRP) && in_group (st_gid sb)
    then true
  else false.

End Evaluator.

(** ** C strings

    A C string is modelled by the [string] of the characters before its
    terminating NUL. *)

Definition strlen (s : string) : Z := Z.of_nat (String.length s).

Definition string_tail (s : string) : string :=
  match s with
  | EmptyString => EmptyString
  | String _ r => r
  end.

(** [my_stpcpy(dst, src)] copies the characters of [src] over the start of
    [dst] and writes no terminator: what was in [dst] beyond them stays.
    The result is the new content of [dst]; the returned pointer is
    [dst + strlen(src)]. The bytes of [dst] beyond its terminator are
    taken to be zero, as they are in a [canonical_path] that has held
    nothing longer. *)
Fixpoint my_stpcpy (dst src : string) : string :=
  match src with
  | EmptyString => dst
  | String c r => String c (my_stpcpy (string_tail dst) r)
  end.

(** [*(end - 1) != '/'] for [end] at the end of a non-empty [s]. *)
Fixpoint last_is_slash (s : string) : bool :=
  match s with
  | EmptyString => false
  | String c EmptyString => Ascii.eqb c "/"%char
  | String _ r => last_is_slash r
  end.

(** The test at the head of the loop of [scan_directory]:
    [d_name[0] == '.'] and then [d_name[1] == 0], or [d_name[1] == '.']
    and [d_name[2] == 0]. *)
Definition is_dot_or_dotdot (d_name : string) : bool :=
  match d_name with
  | String c0 r0 =>
      if Ascii.eqb c0 "."%char then
        match r0 with
        | EmptyString => true
        | String c1 r1 =>
            if Ascii.eqb c1 "."%char then
              match r1 with
              | EmptyString => true
              | String _ _ => false
              end
            else false
        end
      else false
  | EmptyString => false
  end.

(** The path that the loop of [scan_directory] builds in its buffer
    [canonical_path], of [PATH_MAX + 1] bytes, from [dir] and [d_name]:
    [my_stpcpy], the test on the length (in [size_t], so the right-hand
    side wraps), the separator, [strcpy]. *)
Inductive path_result : Type :=
  | PathTooLong
  | PathOverflow
  | PathOk (p : string).

Definition build_path (d d_name : string) : path_result :=
  (* end = my_stpcpy(canonical_path, dir) *)
  if PATH_MAX + 1 <? strlen d then PathOverflow
  else
    let end_ := strlen d in
    if wrap64 (PATH_MAX - 1 - strlen d_name) <=? end_ then PathTooLong
    else
      let sep :=
        if (0 <? end_) && negb (last_is_slash d) then "/" else "" in
      (* strcpy(end, pe->d_name) *)
      let p := d +:+ sep +:+ d_name in
      if PATH_MAX + 1 <? strlen p + 1 then PathOverflow else PathOk p.

(** ** Memory

    A [const char *] is null, or points to the path buffer
    ([canonical_path]) of a stack frame, or to a block that [strdup]
    returned. *)

Inductive ptr : Type :=
  | NULL
  | StackBuf (frame : nat)
  | HeapStr (block : nat).

Record entry_t : Type := mk_entry {
  path    : ptr;
  statbuf : stat
}.

(** [head] is the block that [realloc] returned, as the list of its cells
    ([[]] for the initial [NULL]); a cell that was never written holds
    [None]. *)
Record entries_t : Type := mk_entries {
  len  : Z;
  idx  : Z;
  head : list (option entry_t)
}.

(** The buckets, as the address of the global each one is:
    [&g_suid], [&g_sgid], [&g_writable], [&g_readable], [&g_executable]. *)
Inductive bucket : Type := Suid | Sgid | Writable | Readable | Executable.

#[global] Instance bucket_eq_dec : EqDecision bucket.
Proof. solve_decision. Defined.

(** What the program writes to [stderr]. *)
Inductive diag : Type :=
  | UnableToOpenDir (dir : string)
  | NameTooLong (dir d_name : string)
  | UnableToLstat (p : string)
  | OutOfMemory.

(** The state of the process: the five global buckets, the path buffers
    of [main] and of the active calls of [scan_directory] (innermost
    last), the blocks handed out by [strdup], the number of requests made
    to the allocator so far, and the diagnostics printed so far. *)
Record state : Type := mk_state {
  g_suid       : entries_t;
  g_sgid       : entries_t;
  g_writable   : entries_t;
  g_readable   : entries_t;
  g_executable : entries_t;
  stack        : list string;
  heap         : list string;
  brk          : nat;
  stderr       : list diag
}.

(** How a call ends: it returns, or the process has called [exit(1)], or
    the call has written outside an object or read through a pointer
    that points to none. *)
Inductive outcome : Type :=
  | Done (st : state)
  | Exit (st : state)
  | Undefined.

Definition entries_init : entries_t :=
  {| len := 0; idx := 0; head := [] |}.

(** The state when [main] calls [scan_directory(canonical_path)]:
    [main]'s buffer, frame 0, holds the resolved root. *)
Definition initial_state (root : string) : state :=
  {| g_suid := entries_init; g_sgid := entries_init;
     g_writable := entries_init; g_readable := entries_init;
     g_executable := entries_init;
     stack := [root]; heap := []; brk := 0%nat; stderr := [] |}.

Definition deref (st : state) (p : ptr) : option string :=
  match p with
  | NULL => None
  | StackBuf f => stack st !! f
  | HeapStr b => heap st !! b
  end.

Definition get_entries (b : bucket) (st : state) : entries_t :=
  match b with
  | Suid => g_suid st
  | Sgid => g_sgid st
  | Writable => g_writable st
  | Readable => g_readable st
  | Executable => g_executable st
  end.

Definition set_entries (b : bucket) (e : entries_t) (st : state) : state :=
  {| g_suid := if b is Suid then e else g_suid st;
     g_sgid := if b is Sgid then e else g_sgid st;
     g_writable := if b is Writable then e else g_writable st;
     g_readable := if b is Readable then e else g_readable st;
     g_executable := if b is Executable then e else g_executable st;
     stack := stack st; heap := heap st; brk := brk st;
     stderr := stderr st |}.

Definition set_stack (s : list string) (st : state) : state :=
  {| g_suid := g_suid st; g_sgid := g_sgid st; g_writable := g_writable st;
     g_readable := g_readable st; g_executable := g_executable st;
     stack := s; heap := heap st; brk := brk st; stderr := stderr st |}.

Definition set_heap (h : list string) (st : state) : state :=
  {| g_suid := g_suid st; g_sgid := g_sgid st; g_writable := g_writable st;
     g_readable := g_readable st; g_executable := g_executable st;
     stack := stack st; heap := h; brk := brk st; stderr := stderr st |}.

Definition set_brk (n : nat) (st : state) : state :=
  {| g_suid := g_suid st; g_sgid := g_sgid st; g_writable := g_writable st;
     g_readable := g_readable st; g_executable := g_executable st;
     stack := stack st; heap := heap st; brk := n; stderr := stderr st |}.

(** [fprintf(stderr, ...)] and [perror_str]. *)
Definition report (d : diag) (st : state) : state :=
  {| g_suid := g_suid st; g_sgid := g_sgid st; g_writable := g_writable st;
     g_readable := g_readable st; g_executable := g_executable st;
     stack := stack st; heap := heap st; brk := brk st;
     stderr := stderr st ++ [d] |}.

(** ** The file system, as the walker sees it

    For one object: what [lstat] returns for its path ([None] when it
    fails) and what [opendir] followed by [readdir] yield for it ([None]
    when [opendir] fails, and otherwise the [d_name] of every entry, in
    the order of [readdir], each with the object that it names). *)

#[local] Unset Elimination Schemes.

Inductive node : Type :=
  | Node (lstat_result : option stat)
         (opendir_result : option (list (string * node))).

#[local] Set Elimination Schemes.

Definition lstat (fs : node) : option stat :=
  match fs with Node r _ => r end.

Definition opendir (fs : node) : option (list (string * node)) :=
  match fs with Node _ r => r end.

(** ** Bucket store and directory walker *)

Section Walker.

(** The allocator: whether its [n]-th request ([realloc] or [strdup])
    is served. *)
Variable alloc_ok : nat -> bool.

(** The identity under test. *)
Variable id : identity.

(** Whether the program is compiled with [-DRECORD_LESS_INTERESTING]. *)
Variable RECORD_LESS_INTERESTING : bool.

(** [realloc(head, n * sizeof(entry_t))], when it is served: the block
    has [n] cells, the old ones keep their content. *)
Definition realloc (blk : list (option entry_t)) (n : Z)
  : list (option entry_t) :=
  resize (Z.to_nat n) None blk.

Definition record_access (pentries : bucket) (path : ptr) (sb : stat)
    (st : state) : outcome :=
  let pe := get_entries pentries st in
  let new_next_idx := wrap32 (idx pe + 1) in
  let grown :=
    if len pe <? new_next_idx then
      (* grow array *)
      if alloc_ok (brk st) then
        Some ({| len := wrap32 (len pe + 1);
                 idx := idx pe;
                 head := realloc (head pe) (wrap32 (len pe + 1)) |},
              set_brk (S (brk st)) st)
      else None
    else Some (pe, st) in
  match grown with
  | None => Exit (report OutOfMemory (set_brk (S (brk st)) st))
  | Some (pe1, st1) =>
      (* pentry = pentries->head + pentries->idx *)
      let pentry := Z.to_nat (idx pe1) in
      (* strdup(path) *)
      match deref st1 path with
      | None => Undefined
      | Some s =>
          let dup :=
            if alloc_ok (brk st1)
            then (HeapStr (length (heap st1)),
                  set_heap (heap st1 ++ [s]) st1)
            else (NULL, st1) in
          let st2 := set_brk (S (brk st1)) (snd dup) in
          match head pe1 !! pentry with
          | None => Undefined
          | Some _ =>
              Done (set_entries pentries
                      {| len := len pe1;
                         idx := new_next_idx;
                         head := <[pentry :=
                                   Some {| path := fst dup;
                                           statbuf := sb |}]> (head pe1) |}
                      st2)
          end
      end
  end.

Definition record_access_level (path : ptr) (sb : stat) (st : state)
  : outcome :=
  if is_setuid id sb then record_access Suid path sb st
  else if is_setgid id sb then record_access Sgid path sb st
  else if is_writable id sb then record_access Writable path sb st
  else if RECORD_LESS_INTERESTING && is_readable id sb
    then record_access Readable path sb st
  else if RECORD_LESS_INTERESTING && is_executable id sb
    then record_access Executable path sb st
  else Done st.

(** The end of a turn of the loop, from [lstat] on: the frame's buffer
    [canonical_path] holds the path [p] of the object [child]; [scan] is
    the recursive call. [Done] is also the result of [continue]. *)
Definition visit (scan : node -> ptr -> state -> outcome)
    (canonical_path : nat) (p : string) (child : node) (st : state)
  : outcome :=
  match lstat child with
  | None => Done (report (UnableToLstat p) st)
  | Some sb =>
      (* skip symlinks.. *)
      if S_ISLNK (st_mode sb) then Done st
      else
        match record_access_level (StackBuf canonical_path) sb st with
        | Done st' =>
            if S_ISDIR (st_mode sb) && is_executable id sb
            then scan child (StackBuf canonical_path) st'
            else Done st'
        | o => o
        end
  end.

(** One turn of the loop of [scan_directory] past the test on the dot
    entries, for the entry [d_name] that [readdir] returned and the
    object [child] that it names. When the name is too long,
    [my_stpcpy] has already written to the buffer. *)
Definition process_entry (scan : node -> ptr -> state -> outcome)
    (dir : ptr) (canonical_path : nat) (d_name : string) (child : node)
    (st : state) : outcome :=
  match deref st dir, stack st !! canonical_path with
  | Some d, Some buf =>
      match build_path d d_name with
      | PathOverflow => Undefined
      | PathTooLong =>
          Done (report (NameTooLong d d_name)
                  (set_stack (<[canonical_path := my_stpcpy buf d]> (stack st))
                     st))
      | PathOk p =>
          visit scan canonical_path p child
            (set_stack (<[canonical_path := p]> (stack st)) st)
      end
  | _, _ => Undefined
  end.

Definition scan_entry (scan : node -> ptr -> state -> outcome)
    (dir : ptr) (canonical_path : nat) (pe : string * node) (st : state)
  : outcome :=
  if is_dot_or_dotdot (fst pe) then Done st
  else process_entry scan dir canonical_path (fst pe) (snd pe) st.

(** The loop [while ((pe = readdir(pd)))]. *)
Fixpoint scan_entries (scan : node -> ptr -> state -> outcome)
    (dir : ptr) (canonical_path : nat) (entries : list (string * node))
    (st : state) : outcome :=
  match entries with
  | [] => Done st
  | pe :: rest =>
      match scan_entry scan dir canonical_path pe st with
      | Done st' => scan_entries scan dir canonical_path rest st'
      | o => o
      end
  end.

(** Entering a call of [scan_directory] allocates its
    [canonical_path], filled with zeros; returning from it frees it. *)
Definition enter_frame (st : state) : state :=
  set_stack (stack st ++ [""]) st.

Definition leave_frame (canonical_path : nat) (o : outcome) : outcome :=
  match o with
  | Done st => Done (set_stack (take canonical_path (stack st)) st)
  | o => o
  end.

(** [scan_directory(dir)], where [fs] is the object that the path in
    [dir] names. *)
Fixpoint scan_directory (fs : node) (dir : ptr) (st : state) {struct fs}
  : outcome :=
  match deref st dir with
  | None => Undefined
  | Some d =>
      let canonical_path := length (stack st) in
      leave_frame canonical_path
        match fs with
        | Node _ None =>
            Done (report (UnableToOpenDir d) (enter_frame st))
        | Node _ (Some entries) =>
            scan_entries (fun child => scan_directory child)
              dir canonical_path entries (enter_frame st)
        end
  end.

End Walker.

(** ** Sample data

    The identity of the scenarios of the specification, an allocator that
    serves every request, and modes of the scenarios. *)

Definition tester : identity := {| g_uid := 1000; g_groups := [1000] |}.

Definition always_served : nat -> bool := fun _ => true.

(** Regular files of modes 4755 and 0666 and a directory of mode 0700,
    all of root. *)
Definition file_4755 : stat := mk_stat (S_IFREG + 2541) 0 0.
Definition file_0666 : stat := mk_stat (S_IFREG + 438) 0 0.
Definition dir_0700 : stat := mk_stat (S_IFDIR + 448) 0 0.

(** ** The classification, in the words of the specification

    The categories in their order of priority; the last two exist in
    extended mode only. An object goes to the first category it matches. *)

Definition matches (id : identity) (b : bucket) (sb : stat) : bool :=
  match b with
  | Suid => is_setuid id sb
  | Sgid => is_setgid id sb
  | Writable => is_writable id sb
  | Readable => is_readable id sb
  | Executable => is_executable id sb
  end.

Definition priority_chain (extended : bool) : list bucket :=
  [Suid; Sgid; Writable] ++ (if extended then [Readable; Executable] else []).

Definition first_match (id : identity) (extended : bool) (sb : stat)
  : option bucket :=
  List.find (fun b => matches id b sb) (priority_chain extended).

(** ** Cutting a file system

    [cut keep fs] is [fs] without anything below the objects whose
    metadata fail [keep], or whose [lstat] fails, at any depth;
    [cut_listing keep fs] does so for the entries of [fs] and leaves the
    listing of [fs] itself in place. *)

Fixpoint cut (keep : stat -> bool) (fs : node) : node :=
  match fs with
  | Node r od =>
      Node r
        match r with
        | Some sb =>
            if keep sb
            then option_map (map (fun pe => (fst pe, cut keep (snd pe)))) od
            else None
        | None => None
        end
  end.

Definition cut_listing (keep : stat -> bool) (fs : node) : node :=
  match fs with
  | Node r od =>
      Node r (option_map (map (fun pe => (fst pe, cut keep (snd pe)))) od)
  end.

(** ** Sizes of a file system

    The number of entries below an object, at any depth, and whether
    every name among them fits the [d_name] of a [struct dirent]. *)

Fixpoint objects (fs : node) : nat :=
  match fs with
  | Node _ None => 0
  | Node _ (Some entries) =>
      sum_list_with (fun pe => S (objects (snd pe))) entries
  end.

Fixpoint names_fit (fs : node) : bool :=
  match fs with
  | Node _ None => true
  | Node _ (Some entries) =>
      forallb (fun pe => (strlen (fst pe) <=? NAME_MAX) && names_fit (snd pe))
        entries
  end.

(** ** Invariants of the bucket store *)

(** A bucket is well formed when its count is within its capacity and
    its capacity is the number of cells of its block. *)
Definition entries_wf (pe : entries_t) : Prop :=
  0 <= idx pe <= len pe /\ len pe < 2 ^ 32 /\
  Z.of_nat (length (head pe)) = len pe.

Definition state_wf (st : state) : Prop :=
  forall b : bucket, entries_wf (get_entries b st).

(** The record at position [i] of a bucket, if [i] is below its count. *)
Definition recorded (b : bucket) (st : state) (i : nat) : option entry_t :=
  if Z.of_nat i <? idx (get_entries b st)
  then default None (head (get_entries b st) !! i)
  else None.

(** A step from [st] to [st'] keeps the store when it keeps the buckets
    well formed, the records where they are and the strings of the heap
    as they are. *)
Definition keeps (st st' : state) : Prop :=
  state_wf st ->
  state_wf st' /\
  (forall b i e, recorded b st i = Some e -> recorded b st' i = Some e) /\
  (forall k s, heap st !! k = Some s -> heap st' !! k = Some s).

(** [P st] holds of every record of [st]. *)
Definition all_recorded (P : state -> entry_t -> Prop) (st : state) : Prop :=
  forall b i e, recorded b st i = Some e -> P st e.

(** No bucket holds the record of a symbolic link. *)
Definition no_symlink_recorded (st : state) : Prop :=
  all_recorded (fun _ e => S_ISLNK (st_mode (statbuf e)) = false) st.

(** The path of every record is null or a live block of [strdup]: none
    points into a path buffer. *)
Definition on_heap (st : state) (e : entry_t) : Prop :=
  path e = NULL \/ exists k, path e = HeapStr k /\ is_Some (heap st !! k).

Definition paths_on_heap (st : state) : Prop := all_recorded on_heap st.

(** The process has ended in [exit] for want of memory: the last request
    to the allocator was refused and the last diagnostic says so. *)
Definition out_of_memory (alloc_ok : nat -> bool) (st : state) : Prop :=
  exists n, brk st = S n /\ alloc_ok n = false /\
            last (stderr st) = Some OutOfMemory.

(** An outcome [o] of a step from [st] agrees with [RD] when the step
    returns and with [RE] when it ends in [exit]. *)
Definition walk_ok (RD RE : state -> state -> Prop) (o : outcome)
    (st : state) : Prop :=
  match o with
  | Done st' => RD st st'
  | Exit st' => RE st st'
  | Undefined => True
  end.

(** A call from [st] goes well within [n] records when it does not go
    wrong and, if it returns, has left the stack as it was, the buckets
    well formed, and no bucket with more than [n] new records. *)
Definition goes_well (n : nat) (st : state) (o : outcome) : Prop :=
  match o with
  | Done st' =>
      stack st' = stack st /\ state_wf st' /\
      forall b, idx (get_entries b st') <= idx (get_entries b st) + Z.of_nat n
  | Exit _ => True
  | Undefined => False
  end.

(** The hypotheses on a call of [scan_directory]: [dir] points to a
    live buffer that holds a path within the bound, the buckets are well
    formed, and they have room for the objects below. *)
Definition scan_pre (fs : node) (dir : ptr) (st : state) : Prop :=
  names_fit fs = true /\
  state_wf st /\
  (exists f d, dir = StackBuf f /\ stack st !! f = Some d /\
               strlen d <= PATH_MAX + 1) /\
  forall b, idx (get_entries b st) + Z.of_nat (objects fs) < 2 ^ 32.

(** The outcomes that leave a state behind. *)
Definition ends (o : outcome) (st' : state) : Prop :=
  o = Done st' \/ o = Exit st'.

(** ** What a walk finds

    The walk read as a function of the file system: the records that a
    walk of the directory [fs], whose path is [d], makes, in the order
    in which it makes them, each with the bucket that it goes to.
    [found_entry] is one turn of the loop, [below] the walk of the
    directories that the turn enters. *)

Definition found_entry (id : identity) (extended : bool)
    (below : node -> string -> list (bucket * (string * stat)))
    (d : string) (pe : string * node) : list (bucket * (string * stat)) :=
  if is_dot_or_dotdot (fst pe) then []
  else
    match build_path d (fst pe) with
    | PathOk p =>
        match lstat (snd pe) with
        | Some sb =>
            if S_ISLNK (st_mode sb) then []
            else
              match first_match id extended sb with
              | Some b => [(b, (p, sb))]
              | None => []
              end
              ++ (if S_ISDIR (st_mode sb) && is_executable id sb
                  then below (snd pe) p
                  else [])
        | None => []
        end
    | _ => []
    end.

Fixpoint findings (id : identity) (extended : bool) (fs : node) (d : string)
  : list (bucket * (string * stat)) :=
  match fs with
  | Node _ None => []
  | Node _ (Some entries) =>
      flat_map (found_entry id extended (findings id extended) d) entries
  end.

(** What is in a bucket, as [report_findings] reads it: for each cell
    below the count, the string that its path points to and its
    metadata; [None] for a cell that was never written. *)
Definition view (st : state) (cell : option entry_t)
  : option (option string * stat) :=
  match cell with
  | Some e => Some (deref st (path e), statbuf e)
  | None => None
  end.

Definition contents (b : bucket) (st : state)
  : list (option (option string * stat)) :=
  map (view st)
    (take (Z.to_nat (idx (get_entries b st))) (head (get_entries b st))).

(** The findings that go to the bucket [b], as they appear in it. *)
Definition found_in (b : bucket) (F : list (bucket * (string * stat)))
  : list (option (option string * stat)) :=
  map (fun r => Some (Some (fst (snd r)), snd (snd r)))
    (filter (fun r => fst r = b) F).

(** The state that a walk leaves: the stack as it was, the invariants
    of the store, and in every bucket the findings after what was
    there. *)
Definition found_ok (st st' : state) (F : list (bucket * (string * stat)))
  : Prop :=
  state_wf st' /\ paths_on_heap st' /\
  forall b, contents b st' = contents b st ++ found_in b F.

(** What a call of [scan_directory] on [child] is to do, for the loop
    that makes it. *)
Definition scans_found
    (scan : node -> ptr -> state -> outcome)
    (below : node -> string -> list (bucket * (string * stat)))
    (child : node) : Prop :=
  forall f d st st',
    state_wf st -> paths_on_heap st ->
    stack st !! f = Some d ->
    scan child (StackBuf f) st = Done st' ->
    stack st' = stack st /\ found_ok st st' (below child d).

(** The objects that a walk of the directory [fs], whose path is [d],
    comes to, each with the path built for it: the entries of [fs] other
    than the dot entries whose path fits, and those of every directory
    among the objects it comes to that it enters. *)
Inductive reached (id : identity) (fs : node) (d : string)
  : node -> string -> Prop :=
  | reached_entry entries d_name child p :
      opendir fs = Some entries -> In (d_name, child) entries ->
      is_dot_or_dotdot d_name = false ->
      build_path d d_name = PathOk p ->
      reached id fs d child p
  | reached_below dir q sb entries d_name child p :
      reached id fs d dir q ->
      lstat dir = Some sb -> S_ISLNK (st_mode sb) = false ->
      S_ISDIR (st_mode sb) && is_executable id sb = true ->
      opendir dir = Some entries -> In (d_name, child) entries ->
      is_dot_or_dotdot d_name = false ->
      build_path q d_name = PathOk p ->
      reached id fs d child p.

(** ** Printing numbers

    [printf] with [%u] and [%lu] (radix 10) and with [%o] (radix 8), for
    a value below [2 ^ 64]: the digits, most significant first. *)

Definition digit (n : Z) : ascii := ascii_of_nat (48 + Z.to_nat n).

Fixpoint digits_loop (fuel : nat) (radix n : Z) (acc : string) : string :=
  match fuel with
  | O => acc
  | S fuel' =>
      let acc' := String (digit (n mod radix)) acc in
      if n / radix =? 0 then acc'
      else digits_loop fuel' radix (n / radix) acc'
  end.

Definition digits (radix n : Z) : string := digits_loop 64 radix n "".

(** Padding on the left to a width, as [%9s] does with spaces and [%04o]
    with zeros; a longer string is left as it is. *)
Fixpoint fill (n : nat) (c : ascii) (s : string) : string :=
  match n with
  | O => s
  | S n' => String c (fill n' c s)
  end.

Definition pad_left (c : ascii) (width : nat) (s : string) : string :=
  fill (width - String.length s) c s.

Definition print_u (n : Z) : string := digits 10 n.
Definition print_04o (n : Z) : string := pad_left "0"%char 4 (digits 8 n).
Definition print_9s (s : string) : string := pad_left " "%char 9 s.

(** ** The user and group databases, and the rest of the C library

    What the program asks of its environment: the entries of the
    [passwd] and [group] databases by name and by id, the ids of the
    process, the group list of a user, the number that [strtol] and
    [strtoul] read at the head of a string (with radix 0) together with
    what follows it, the path that [realpath] resolves a path to, and the
    object that a resolved path names. *)

Record passwd : Type := mk_passwd {
  pw_name : string;
  pw_uid  : Z;
  pw_gid  : Z
}.

Record group : Type := mk_group {
  gr_name : string;
  gr_gid  : Z
}.

Record libc : Type := mk_libc {
  getuid         : Z;
  getpwuid       : Z -> option passwd;
  getpwnam       : string -> option passwd;
  process_groups : list Z;
  getgrouplist   : string -> Z -> list Z;
  getgrnam       : string -> option group;
  getgrgid       : Z -> option group;
  strtol         : string -> Z * string;
  strtoul        : string -> Z * string;
  realpath       : string -> option string;
  object_at      : string -> node
}.

Definition NGROUPS_MAX : Z := 65536.
Definition LONG_MAX : Z := 2 ^ 63 - 1.
Definition ULONG_MAX : Z := 2 ^ 64 - 1.
Definition S_IFSOCK : Z := 49152.  (* 0140000 *)
Definition S_IFBLK  : Z := 24576.  (* 0060000 *)
Definition S_IFCHR  : Z := 8192.   (* 0020000 *)
Definition S_IFIFO  : Z := 4096.   (* 0010000 *)

(** ** Reporting *)

(** The [switch] of [report_findings] on [st_mode & S_IFMT]. *)
Definition type_str (mode : Z) : string :=
  let t := Z.land mode S_IFMT in
  if t =? S_IFSOCK then "socket"
  else if t =? S_IFLNK then "link"
  else if t =? S_IFREG then "file"
  else if t =? S_IFBLK then "blkdev"
  else if t =? S_IFDIR then "directory"
  else if t =? S_IFCHR then "chardev"
  else if t =? S_IFIFO then "fifo"
  else "unknown".

(** [sprintf(mode_str, "%04o", st_mode & ~S_IFMT)], in [unsigned int]. *)
Definition mode_str (mode : Z) : string :=
  print_04o (wrap32 (Z.land mode (Z.lnot S_IFMT))).

(** The line that [report_findings] prints for a record whose path
    points to [p], without the newline. *)
Definition report_line (c : libc) (p : string) (sb : stat) : string :=
  let user :=
    match getpwuid c (st_uid sb) with
    | Some pw => pw_name pw
    | None => print_u (st_uid sb)
    end in
  let grp :=
    match getgrgid c (st_gid sb) with
    | Some pg => gr_name pg
    | None => print_u (st_gid sb)
    end in
  "    " +:+ print_9s (type_str (st_mode sb)) +:+ " " +:+ mode_str (st_mode sb)
  +:+ " " +:+ user +:+ " " +:+ grp +:+ " " +:+ p.

(** The lines that the loop of [report_findings] prints; [None] when it
    reads a cell that was never written or prints through a null
    path. *)
Fixpoint report_lines (c : libc) (cells : list (option (option string * stat)))
  : option (list string) :=
  match cells with
  | [] => Some []
  | Some (Some p, sb) :: rest =>
      match report_lines c rest with
      | Some lines => Some (report_line c p sb :: lines)
      | None => None
      end
  | _ :: _ => None
  end.

(** [report_findings(name, pentries)]: the line that goes to [stderr]
    and the lines that go to [stdout]. *)
Definition report_findings (c : libc) (name : string) (pentries : bucket)
    (st : state) : option (string * list string) :=
  let e := get_entries pentries st in
  if Z.of_nat (length (head e)) <? idx e then None
  else
    match report_lines c (contents pentries st) with
    | Some lines =>
        Some ("[*] Found " +:+ print_u (idx e) +:+ " entries that are "
              +:+ name, lines)
    | None => None
    end.

(** ** The identity: [in_group], [add_group] and [obtain_user_info] *)

(** What [obtain_user_info] and [add_group] print on [stderr]. *)
Inductive user_diag : Type :=
  | InvalidUserId (user : string)
  | UnableToFindUid (uid : Z)
  | TooManyGroups
  | UnableToGetgroups
  | TooManyGroupsToAdd
  | UnknownGroup (grnam : string)
  | UnableToFindGid (grnam : string).

(** The globals [g_uid], [g_groups] (an array of [NGROUPS_MAX] cells)
    and [g_ngroups], with what was printed on [stderr] and on
    [stdout]. *)
Record startup : Type := mk_startup {
  u_uid     : Z;
  u_groups  : list Z;
  u_ngroups : Z;
  u_err     : list user_diag;
  u_out     : list string
}.

(** The globals as the program starts: [g_groups] is filled with zeros
    and [g_ngroups] is [NGROUPS_MAX]. *)
Definition startup_init : startup :=
  {| u_uid := 0;
     u_groups := replicate (Z.to_nat NGROUPS_MAX) 0;
     u_ngroups := NGROUPS_MAX;
     u_err := []; u_out := [] |}.

Inductive startup_outcome : Type :=
  | Started (s : startup)
  | StartupExit (s : startup)
  | StartupUndefined.

Definition set_u_uid (uid : Z) (s : startup) : startup :=
  {| u_uid := uid; u_groups := u_groups s; u_ngroups := u_ngroups s;
     u_err := u_err s; u_out := u_out s |}.

Definition set_u_groups (g : list Z) (n : Z) (s : startup) : startup :=
  {| u_uid := u_uid s; u_groups := g; u_ngroups := n;
     u_err := u_err s; u_out := u_out s |}.

Definition complain (d : user_diag) (s : startup) : startup :=
  {| u_uid := u_uid s; u_groups := u_groups s; u_ngroups := u_ngroups s;
     u_err := u_err s ++ [d]; u_out := u_out s |}.

Definition print_line (l : string) (s : startup) : startup :=
  {| u_uid := u_uid s; u_groups := u_groups s; u_ngroups := u_ngroups s;
     u_err := u_err s; u_out := u_out s ++ [l] |}.

(** The identity that the evaluator sees: [g_uid] and the first
    [g_ngroups] cells of [g_groups]. *)
Definition identity_of (s : startup) : identity :=
  {| g_uid := u_uid s;
     g_groups := take (Z.to_nat (u_ngroups s)) (u_groups s) |}.

(** [in_group(gid)] on the globals: the loop reads the cells below
    [g_ngroups] until it finds [gid]; [None] when it reads beyond the
    array. *)
Definition in_group_at (s : startup) (gid : Z) : option bool :=
  if in_group (identity_of s) gid then Some true
  else if u_ngroups s <=? Z.of_nat (length (u_groups s)) then Some false
  else None.

Definition add_group (gid : Z) (s : startup) : startup_outcome :=
  if NGROUPS_MAX <=? u_ngroups s + 1 then
    StartupExit (complain TooManyGroupsToAdd s)
  else
    Started (set_u_groups (<[Z.to_nat (u_ngroups s) := gid]> (u_groups s))
               (u_ngroups s + 1) s).

(** [if (!in_group(gid)) add_group(gid);] *)
Definition add_group_once (gid : Z) (s : startup) : startup_outcome :=
  match in_group_at s gid with
  | None => StartupUndefined
  | Some true => Started s
  | Some false => add_group gid s
  end.

(** Writing a list over the start of an array. *)
Definition overlay (l arr : list Z) : list Z := l ++ drop (length l) arr.

(** [getgroups(size, list)]: with [size] zero the number of groups of
    the process; otherwise that number, with the groups written to
    [list], or -1 when [size] is less than it. *)
Definition getgroups (c : libc) (size : Z) (arr : list Z) : Z * list Z :=
  let n := Z.of_nat (length (process_groups c)) in
  if size =? 0 then (n, arr)
  else if size <? n then (-1, arr)
  else (n, overlay (process_groups c) arr).

(** [getgrouplist(name, gid, groups, &ngroups)]: the groups of the user
    are written to [groups], as many as [ngroups] allows, and [ngroups]
    becomes their number. *)
Definition fill_grouplist (c : libc) (pw : passwd) (s : startup) : startup :=
  let l := getgrouplist c (pw_name pw) (pw_gid pw) in
  set_u_groups
    (overlay (take (Z.to_nat (u_ngroups s)) l) (u_groups s))
    (Z.of_nat (length l)) s.

(** The tokens that the calls of [strtok] with the delimiter [","]
    return, one after the other: the runs of characters between commas
    that are not empty. [cur] is the run that is being read, reversed. *)
Fixpoint strtok_loop (s : string) (cur : list ascii) : list string :=
  let emit (rest : list string) :=
    match cur with
    | [] => rest
    | _ :: _ => String.string_of_list_ascii (rev cur) :: rest
    end in
  match s with
  | EmptyString => emit []
  | String c r =>
      if Ascii.eqb c ","%char then emit (strtok_loop r [])
      else strtok_loop r (c :: cur)
  end.

Definition strtok_all (s : string) : list string := strtok_loop s [].

(** One turn of the loop over the names of the groups to append. *)
Definition append_group (c : libc) (grnam : string) (s : startup)
  : startup_outcome :=
  match getgrnam c grnam with
  | Some pg => add_group_once (gr_gid pg) s
  | None =>
      let parsed := strtoul c grnam in
      (* a bad number indicates a probably mistake *)
      if (fst parsed =? ULONG_MAX) || negb (String.eqb (snd parsed) "") then
        StartupExit (complain (UnknownGroup grnam) s)
      else
        let gid := wrap32 (fst parsed) in
        (* try again *)
        match getgrgid c gid with
        | None => add_group_once gid (complain (UnableToFindGid grnam) s)
        | Some pg => add_group_once (gr_gid pg) s
        end
  end.

Fixpoint append_groups (c : libc) (names : list string) (s : startup)
  : startup_outcome :=
  match names with
  | [] => Started s
  | grnam :: rest =>
      match append_group c grnam s with
      | Started s' => append_groups c rest s'
      | o => o
      end
  end.

(** What the loop at the end of [obtain_user_info] prints for the
    groups; [None] when it reads beyond the array. *)
Definition print_group (c : libc) (gid : Z) : string :=
  match getgrgid c gid with
  | Some pg => print_u (gr_gid pg) +:+ "(" +:+ gr_name pg +:+ ")"
  | None => print_u gid +:+ "(?)"
  end.

Fixpoint join_commas (l : list string) : string :=
  match l with
  | [] => ""
  | [x] => x
  | x :: rest => x +:+ "," +:+ join_commas rest
  end.

Definition print_identity (c : libc) (pw : option passwd) (s : startup)
  : startup_outcome :=
  let head :=
    match pw with
    | Some pw => "[*] uid=" +:+ print_u (pw_uid pw) +:+ "(" +:+ pw_name pw
                 +:+ "), groups="
    | None => "[*] uid=" +:+ print_u (u_uid s) +:+ "(?), groups="
    end in
  if u_ngroups s <=? Z.of_nat (length (u_groups s)) then
    Started (print_line
               (head +:+ join_commas
                           (map (print_group c) (g_groups (identity_of s))))
               s)
  else StartupUndefined.

(** The first part of [obtain_user_info]: the local variables [uid] and
    [pw], or nothing when the function ends there in [exit]. *)
Definition find_user (c : libc) (user : option string)
  : option (Z * option passwd) :=
  match user with
  | None =>
      (* no user specified? use the current uid. *)
      Some (getuid c, getpwuid c (getuid c))
  | Some u =>
      match getpwnam c u with
      | Some pw => Some (wrap32 (-1), Some pw)
      | None =>
          (* if it fails, try to treat it as a number *)
          let parsed := strtol c u in
          if (fst parsed =? LONG_MAX) || negb (String.eqb (snd parsed) "")
          then None
          else Some (wrap32 (fst parsed), getpwuid c (wrap32 (fst parsed)))
      end
  end.

(** [obtain_user_info(user, groups)]; [None] is the null pointer. *)
Definition obtain_user_info (c : libc) (user groups : option string)
  : startup_outcome :=
  let s0 := startup_init in
  match find_user c user with
  | None =>
      StartupExit
        (complain (InvalidUserId (default "" user)) s0)
  | Some (uid, pw) =>
      let s1 :=
        match pw with
        | None =>
            set_u_groups (u_groups s0) 0
              (set_u_uid uid (complain (UnableToFindUid uid) s0))
        | Some pw => set_u_uid (pw_uid pw) s0
        end in
      (* the groups of the current or specified user *)
      let s2 : startup_outcome :=
        match user with
        | None =>
            let num := fst (getgroups c 0 (u_groups s1)) in
            if u_ngroups s1 <? num then
              StartupExit (complain TooManyGroups s1)
            else
              let got := getgroups c (u_ngroups s1) (u_groups s1) in
              let s1' := set_u_groups (snd got) (fst got) s1 in
              if fst got =? -1 then
                StartupExit (complain UnableToGetgroups s1')
              else
                (* make sure our gid is in the groups *)
                match pw with
                | None => StartupUndefined
                | Some pw => add_group_once (pw_gid pw) s1'
                end
        | Some _ =>
            match pw with
            | Some pw => Started (fill_grouplist c pw s1)
            | None => Started s1
            end
        end in
      match s2 with
      | Started s2 =>
          (* append any extra groups *)
          match append_groups c
                  (match groups with
                   | Some g => strtok_all g
                   | None => []
                   end) s2 with
          | Started s3 => print_identity c pw s3
          | o => o
          end
      | o => o
      end
  end.

(** ** [main] *)

(** What [getopt] made of the arguments: an option that it does not
    know, or the arguments of [-u] and [-g] and the arguments that are
    left. *)
Inductive options : Type :=
  | BadOption
  | Options (user groups : option string) (paths : list string).

(** How the loop of [main] over the paths ends. *)
Inductive roots_outcome : Type :=
  | RootsDone (st : state)
  | RootsUnresolved (arg : string) (st : state)
  | RootsExit (st : state)
  | RootsUndefined.

(** How [main] ends: with [usage] and status 1; in [obtain_user_info];
    with a path that does not resolve and status 1; in a scan; or with
    the reports, each the line for [stderr] and the lines for [stdout],
    and status 0. *)
Inductive main_outcome : Type :=
  | MainUsage
  | MainStartupExit (s : startup)
  | MainUnresolved (s : startup) (arg : string) (st : state)
  | MainScanExit (s : startup) (st : state)
  | MainUndefined
  | MainReturned (s : startup) (st : state)
      (reports : list (string * list string)).

Section Main.

Variable c : libc.
Variable alloc_ok : nat -> bool.
Variable RECORD_LESS_INTERESTING : bool.

(** The loop of [main] over the paths: [realpath] writes the resolved
    path to the buffer of [main], frame 0, and [scan_directory] is
    called on it. *)
Fixpoint scan_roots (id : identity) (paths : list string) (st : state)
  : roots_outcome :=
  match paths with
  | [] => RootsDone st
  | arg :: rest =>
      match realpath c arg with
      | None => RootsUnresolved arg st
      | Some p =>
          match scan_directory alloc_ok id RECORD_LESS_INTERESTING
                  (object_at c p) (StackBuf 0)
                  (set_stack (<[0%nat := p]> (stack st)) st) with
          | Done st' => scan_roots id rest st'
          | Exit st' => RootsExit st'
          | Undefined => RootsUndefined
          end
      end
  end.

(** The calls of [report_findings] at the end of [main]. *)
Definition reported : list (string * bucket) :=
  [("set-uid executable", Suid); ("set-gid executable", Sgid);
   ("writable", Writable)]
  ++ (if RECORD_LESS_INTERESTING
      then [("readable", Readable); ("only executable", Executable)]
      else []).

Fixpoint report_all (l : list (string * bucket)) (st : state)
  : option (list (string * list string)) :=
  match l with
  | [] => Some []
  | (name, b) :: rest =>
      match report_findings c name b st, report_all rest st with
      | Some r, Some rs => Some (r :: rs)
      | _, _ => None
      end
  end.

Definition main (opts : options) : main_outcome :=
  match opts with
  | BadOption => MainUsage
  | Options user groups paths =>
      (* get user info *)
      match obtain_user_info c user groups with
      | StartupExit s => MainStartupExit s
      | StartupUndefined => MainUndefined
      | Started s =>
          (* process remaining args as directories *)
          match scan_roots (identity_of s) paths (initial_state "") with
          | RootsUnresolved arg st => MainUnresolved s arg st
          | RootsExit st => MainScanExit s st
          | RootsUndefined => MainUndefined
          | RootsDone st =>
              (* report the findings *)
              match report_all reported st with
              | Some reports => MainReturned s st reports
              | None => MainUndefined
              end
          end
      end
  end.

End Main.

(** ** What the program is to find and to print

    The definitions below are not in the source: they say, as functions
    of the system, what [obtain_user_info] and [main] come to. *)

(** A list of groups with one more, if it is not there. *)
Definition add_once (l : list Z) (gid : Z) : list Z :=
  if in_group_loop l gid then l else l ++ [gid].

(** The group that a name of the [-g] list stands for: the group of
    that name, or else the group of that number. *)
Definition group_named (c : libc) (grnam : string) : option Z :=
  match getgrnam c grnam with
  | Some pg => Some (gr_gid pg)
  | None =>
      let parsed := strtoul c grnam in
      if (fst parsed =? ULONG_MAX) || negb (String.eqb (snd parsed) "")
      then None
      else
        Some (match getgrgid c (wrap32 (fst parsed)) with
              | Some pg => gr_gid pg
              | None => wrap32 (fst parsed)
              end)
  end.

(** The groups before the [-g] list is appended: the groups of the
    process with the group of its passwd entry, or the groups of the
    user of [-u], or none for a user that has no passwd entry. *)
Definition first_groups (c : libc) (user : option string)
    (pw : option passwd) : list Z :=
  match pw with
  | None => []
  | Some pw =>
      match user with
      | None => add_once (process_groups c) (pw_gid pw)
      | Some _ => getgrouplist c (pw_name pw) (pw_gid pw)
      end
  end.

Definition groups_named (c : libc) (groups : option string)
  : list (option Z) :=
  map (group_named c)
    (match groups with Some g => strtok_all g | None => [] end).

Definition all_groups (c : libc) (user groups : option string)
    (pw : option passwd) : list Z :=
  fold_left add_once (omap (fun g => g) (groups_named c groups))
    (first_groups c user pw).

(** What the scans of [main] find: the findings below each path, in the
    order of the paths. *)
Definition all_findings (c : libc) (id : identity) (extended : bool)
    (paths : list string) : list (bucket * (string * stat)) :=
  flat_map
    (fun arg =>
       match realpath c arg with
       | Some p => findings id extended (object_at c p) p
       | None => []
       end) paths.

(** The report on the findings [F] for one bucket. *)
Definition report_of (c : libc) (F : list (bucket * (string * stat)))
    (nb : string * bucket) : string * list string :=
  let mine := filter (fun r => fst r = snd nb) F in
  ("[*] Found " +:+ print_u (Z.of_nat (length mine)) +:+ " entries that are "
   +:+ fst nb,
   map (fun r => report_line c (fst (snd r)) (snd (snd r))) mine).

(** A path that [realpath] gives fits the buffer of [main], and the
    names below it are within [NAME_MAX]. *)
Definition resolves (c : libc) (arg : string) : Prop :=
  exists p, realpath c arg = Some p /\ strlen p <= PATH_MAX /\
            names_fit (object_at c p) = true.

Definition objects_below (c : libc) (paths : list string) : nat :=
  sum_list_with
    (fun arg =>
       match realpath c arg with
       | Some p => objects (object_at c p)
       | None => O
       end) paths.

(** ** Sample data for the findings *)

(** A directory with a set-uid file and a directory that is open to the
    others only for search, with a world-writable file in it. *)
Definition sample_tree : node :=
  Node (Some dir_0700)
    (Some [("a", Node (Some file_4755) None);
           ("d", Node (Some (mk_stat (S_IFDIR + 72) 1000 1000))
                   (Some [("secret", Node (Some file_0666) None)]))]).

(** The state that an outcome ends in. *)
Definition final_state (o : outcome) : state :=
  match o with
  | Done st => st
  | Exit st => st
  | Undefined => initial_state ""
  end.

(** The buckets of the extended mode are in [st'] as they are in [st]. *)
Definition same_less_interesting (st st' : state) : Prop :=
  get_entries Readable st' = get_entries Readable st /\
  get_entries Executable st' = get_entries Executable st.

(** ** A sample system *)

(** The start of a string that is made of decimal digits, as a number,
    and what follows it. *)
Fixpoint parse_decimal (s : string) (acc : Z) : Z * string :=
  match s with
  | EmptyString => (acc, "")
  | String ch rest =>
      let n := Z.of_nat (nat_of_ascii ch) in
      if (48 <=? n) && (n <=? 57) then parse_decimal rest (10 * acc + (n - 48))
      else (acc, s)
  end.

Definition root_entry : passwd := mk_passwd "root" 0 0.
Definition alice_entry : passwd := mk_passwd "alice" 1000 1000.

(** A system with the users root and alice, the groups wheel and sudo,
    a process of alice, and [sample_tree] at [/srv]; only absolute paths
    resolve. *)
Definition sample_libc : libc :=
  {| getuid := 1000;
     getpwuid := fun uid =>
       if uid =? 0 then Some root_entry
       else if uid =? 1000 then Some alice_entry else None;
     getpwnam := fun name =>
       if String.eqb name "root" then Some root_entry
       else if String.eqb name "alice" then Some alice_entry else None;
     process_groups := [1000; 27];
     getgrouplist := fun name gid =>
       if String.eqb name "alice" then [gid; 27] else [gid];
     getgrnam := fun name =>
       if String.eqb name "wheel" then Some (mk_group "wheel" 0)
       else if String.eqb name "sudo" then Some (mk_group "sudo" 27)
       else None;
     getgrgid := fun gid =>
       if gid =? 0 then Some (mk_group "wheel" 0)
       else if gid =? 27 then Some (mk_group "sudo" 27) else None;
     strtol := fun s => parse_decimal s 0;
     strtoul := fun s => parse_decimal s 0;
     realpath := fun p =>
       match p with
       | String "/" _ => Some p
       | _ => None
       end;
     object_at := fun p =>
       if String.eqb p "/srv" then sample_tree else Node None None |}.

(** The globals that an outcome of [obtain_user_info] ends with. *)
Definition final_startup (o : startup_outcome) : startup :=
  match o with
  | Started s => s
  | StartupExit s => s
  | StartupUndefined => startup_init
  end.

Definition is_started (o : startup_outcome) : bool :=
  match o with
  | Started _ => true
  | _ => false
  end.

(** The first cells of [g_groups] hold the list [L], and [g_ngroups] is
    its length. *)
Definition holds_groups (s : startup) (L : list Z) : Prop :=
  length (u_groups s) = Z.to_nat NGROUPS_MAX /\
  u_ngroups s = Z.of_nat (length L) /\
  take (length L) (u_groups s) = L.

(** [g_ngroups] is beyond the array [g_groups]. *)
Definition groups_overrun (s : startup) : Prop :=
  length (u_groups s) = Z.to_nat NGROUPS_MAX /\
  NGROUPS_MAX < u_ngroups s.

(** A system like [sample_libc] in which every user is in more groups
    than [g_groups] has cells. *)
Definition crowded_libc : libc :=
  {| getuid := getuid sample_libc;
     getpwuid := getpwuid sample_libc;
     getpwnam := getpwnam sample_libc;
     process_groups := process_groups sample_libc;
     getgrouplist := fun _ gid =>
       replicate (S (Z.to_nat NGROUPS_MAX)) gid;
     getgrnam := getgrnam sample_libc;
     getgrgid := getgrgid sample_libc;
     strtol := strtol sample_libc;
     strtoul := strtoul sample_libc;
     realpath := realpath sample_libc;
     object_at := object_at sample_libc |}.

(** An allocator that serves the first request only. *)
Definition served_once : nat -> bool := fun n => Nat.eqb n 0.

(** A line of a report that [report_findings] prints for some record
    that is not a symbolic link. *)
Definition line_of_no_link (c : libc) (line : string) : Prop :=
  exists p sb, line = report_line c p sb /\ type_str (st_mode sb) <> "link".

(** Every bucket is full: its capacity is its count. *)
Definition full_buckets (st : state) : Prop :=
  forall b, len (get_entries b st) = idx (get_entries b st).

Definition stays_full (st st' : state) : Prop :=
  state_wf st -> full_buckets st -> state_wf st' /\ full_buckets st'.

(** No name of the tree is empty, as no name that [readdir] gives is. *)
Fixpoint names_given (fs : node) : bool :=
  match fs with
  | Node _ None => true
  | Node _ (Some entries) =>
      forallb (fun pe => (0 <? strlen (fst pe)) && names_given (snd pe))
        entries
  end.


(** ** What a walk complains of

    The messages that a walk of the directory [fs], whose path is [d],
    writes to [stderr] when memory does not run out, in their order:
    one for a directory that cannot be opened, one for each name that
    is too long and one for each object whose [lstat] fails. *)





(** ** Facts about mode bits and group membership *)

Lemma land_pow2_cases (m k : Z) :
  0 <= k -> Z.land m (2 ^ k) = if Z.testbit m k then 2 ^ k else 0.
Proof.
  intros Hk. apply Z.bits_inj'. intros n Hn.
  rewrite Z.land_spec, Z.pow2_bits_eqb by lia.
  destruct (Z.eqb_spec k n) as [->|Hne].
  - destruct (Z.testbit m n) eqn:E; simpl.
    + now rewrite Z.pow2_bits_true.
    + now rewrite Z.bits_0.
  - rewrite andb_false_r.
    destruct (Z.testbit m k).
    + now rewrite Z.pow2_bits_false.
    + now rewrite Z.bits_0.
Qed.

Lemma truthy_mask_testbit (m k : Z) :
  0 <= k -> truthy (Z.land m (2 ^ k)) = Z.testbit m k.
Proof.
  intros Hk. unfold truthy. rewrite land_pow2_cases by assumption.
  destruct (Z.testbit m k); [|reflexivity].
  assert (0 < 2 ^ k) by (apply Z.pow_pos_nonneg; lia).
  destruct (Z.eqb_spec (2 ^ k) 0); [lia|reflexivity].
Qed.

Lemma in_group_loop_In (groups : list Z) (gid : Z) :
  in_group_loop groups gid = true <-> In gid groups.
Proof.
  induction groups as [|g rest IH]; simpl.
  - split; [discriminate|tauto].
  - destruct (Z.eqb_spec g gid) as [->|Hne].
    + split; auto.
    + rewrite IH. split; [auto|]. intros [Heq|Hin]; [contradiction|exact Hin].
Qed.

Lemma in_group_In (id : identity) (gid : Z) :
  in_group id gid = true <-> In gid (g_groups id).
Proof. apply in_group_loop_In. Qed.


(** The owner/group/other rule for one triple of permission bits. *)
Lemma ugo_rule (id : identity) (sb : stat) (o u g : Z) :
  0 <= o -> 0 <= u -> 0 <= g ->
  (if truthy (Z.land (st_mode sb) (2 ^ o)) then true
   else if truthy (Z.land (st_mode sb) (2 ^ u)) && (st_uid sb =? g_uid id)
     then true
   else if truthy (Z.land (st_mode sb) (2 ^ g)) && in_group id (st_gid sb)
     then true
   else false) = true <->
  Z.testbit (st_mode sb) o = true \/
  (Z.testbit (st_mode sb) u = true /\ st_uid sb = g_uid id) \/
  (Z.testbit (st_mode sb) g = true /\ In (st_gid sb) (g_groups id)).
Proof.
  intros Ho Hu Hg.
  rewrite !truthy_mask_testbit by assumption.
  rewrite <- in_group_In.
  destruct (Z.testbit (st_mode sb) o); [tauto|].
  destruct (Z.eqb_spec (st_uid sb) (g_uid id)) as [E|E];
    destruct (Z.testbit (st_mode sb) u); cbn [andb]; try tauto;
    destruct (Z.testbit (st_mode sb) g); cbn [andb];
    destruct (in_group id (st_gid sb)); cbn [andb];
    intuition congruence.
Qed.

(** ** Structural facts *)

Lemma node_ind (P : node -> Prop) :
  (forall r, P (Node r None)) ->
  (forall r entries,
      Forall (fun pe => P (snd pe)) entries -> P (Node r (Some entries))) ->
  forall fs, P fs.
Proof.
  intros Hnone Hsome. fix IH 1. intros [r [entries|]]; [|apply Hnone].
  apply Hsome.
  induction entries as [|[n c] rest IHrest]; constructor;
    [apply IH | exact IHrest].
Qed.

Lemma get_set_entries_eq (b : bucket) (e : entries_t) (st : state) :
  get_entries b (set_entries b e st) = e.
Proof. now destruct b. Qed.

Lemma get_set_entries_ne (b b' : bucket) (e : entries_t) (st : state) :
  b' <> b -> get_entries b' (set_entries b e st) = get_entries b' st.
Proof. destruct b, b'; simpl; congruence. Qed.

Lemma wrap32_small (z : Z) : 0 <= z < 2 ^ 32 -> wrap32 z = z.
Proof. intros H. unfold wrap32. now apply Z.mod_small. Qed.

Lemma wrap32_top : wrap32 (2 ^ 32) = 0.
Proof. reflexivity. Qed.

(** ** The bucket store: [record_access] *)

Section StoreFacts.

Variable alloc_ok : nat -> bool.

Lemma record_access_frame b p sb st st' :
  ends (record_access alloc_ok b p sb st) st' ->
  (forall b', b' <> b -> get_entries b' st' = get_entries b' st) /\
  stack st' = stack st /\
  (exists l, heap st' = heap st ++ l) /\
  (brk st <= brk st')%nat.
Proof.
  unfold ends, record_access. intros [H|H].
  all: repeat case_match; simplify_eq.
  all: repeat split; simpl.
  all: try (intros b' Hb'; rewrite ?get_set_entries_ne by assumption;
            now destruct b').
  all: try (now destruct b).
  all: try (destruct b; simpl; eauto using app_nil_r; fail).
  all: try (destruct b; simpl; lia).
Qed.

Lemma record_access_exit b p sb st st' :
  record_access alloc_ok b p sb st = Exit st' ->
  st' = report OutOfMemory (set_brk (S (brk st)) st) /\
  alloc_ok (brk st) = false /\
  get_entries b st' = get_entries b st.
Proof.
  unfold record_access. intros H.
  repeat case_match; simplify_eq.
  repeat split; assumption.
Qed.

Lemma record_access_done b p sb st st' :
  entries_wf (get_entries b st) ->
  record_access alloc_ok b p sb st = Done st' ->
  let pe := get_entries b st in
  let pe' := get_entries b st' in
  let k := if idx pe =? len pe then S (brk st) else brk st in
  let q := if alloc_ok k then HeapStr (length (heap st)) else NULL in
  exists s,
    deref st p = Some s /\
    idx pe' = idx pe + 1 /\
    len pe' = (if idx pe =? len pe then len pe + 1 else len pe) /\
    (idx pe = len pe -> alloc_ok (brk st) = true) /\
    entries_wf pe' /\
    head pe' !! Z.to_nat (idx pe) = Some (Some (mk_entry q sb)) /\
    (forall i, i <> Z.to_nat (idx pe) -> (i < length (head pe))%nat ->
               head pe' !! i = head pe !! i) /\
    heap st' = (if alloc_ok k then heap st ++ [s] else heap st) /\
    brk st' = S k /\
    stderr st' = stderr st.
Proof.
  intros (Hidx & Hlen & Hblk). unfold record_access.
  destruct (Z.ltb_spec (len (get_entries b st))
              (wrap32 (idx (get_entries b st) + 1))) as [Hfull|Hfree].
  - (* the array is full and grows *)
    assert (idx (get_entries b st) = len (get_entries b st)
            /\ len (get_entries b st) + 1 < 2 ^ 32) as [Heq Hsmall].
    { destruct (Z.eq_dec (idx (get_entries b st) + 1) (2 ^ 32)) as [E|E].
      - rewrite E, wrap32_top in Hfull. lia.
      - rewrite wrap32_small in Hfull by lia. lia. }
    destruct (alloc_ok (brk st)) eqn:Hre; [|discriminate].
    cbn [idx len head fst snd].
    intros H. destruct (deref (set_brk (S (brk st)) st) p) as [s|] eqn:Hs;
      [|discriminate].
    exists s.
    rewrite !wrap32_small in * by lia.
    unfold realloc in *.
    destruct (resize _ _ _ !! _) eqn:Hcell; [|discriminate].
    simplify_eq. rewrite !get_set_entries_eq. cbn [idx len head].
    rewrite Heq, Z.eqb_refl.
    assert (Z.to_nat (len (get_entries b st)) = length (head (get_entries b st)))
      as Hn by lia.
    assert (forall st0, deref (set_brk (S (brk st)) st0) p = deref st0 p)
      as Hd by (now destruct p).
    rewrite Hd in Hs.
    destruct (alloc_ok (S (brk st))); cbn [fst snd].
    all: split_and!; try done; try lia.
    all: try (now destruct b).
    all: try (unfold entries_wf; cbn [idx len head];
              rewrite length_insert, length_resize; lia).
    all: try (rewrite list_lookup_insert_eq;
              [reflexivity | rewrite length_resize; lia]).
    all: intros i Hi Hlt; rewrite list_lookup_insert_ne by congruence;
      apply lookup_resize; lia.
  - (* there is room *)
    cbn [idx len head fst snd].
    intros H. destruct (deref st p) as [s|] eqn:Hs; [|discriminate].
    exists s.
    destruct (head (get_entries b st) !! Z.to_nat (idx (get_entries b st)))
      eqn:Hcell; [|discriminate].
    apply lookup_lt_Some in Hcell.
    assert (idx (get_entries b st) + 1 <= len (get_entries b st)) as Hroom.
    { lia. }
    rewrite wrap32_small in * by lia.
    simplify_eq. rewrite !get_set_entries_eq. cbn [idx len head].
    destruct (Z.eqb_spec (idx (get_entries b st)) (len (get_entries b st)));
      [lia|].
    destruct (alloc_ok (brk st)); cbn [fst snd].
    all: split_and!; try done; try lia.
    all: try (now destruct b).
    all: try (unfold entries_wf; cbn [idx len head];
              rewrite length_insert; lia).
    all: try (now rewrite list_lookup_insert_eq by assumption).
    all: intros i Hi Hlt; now rewrite list_lookup_insert_ne by congruence.
Qed.

End StoreFacts.

(** ** The walker: a relation kept along every walk *)

Section WalkRel.

Variable alloc_ok : nat -> bool.
Variable id : identity.
Variable RECORD_LESS_INTERESTING : bool.

(** [RD] relates the state before and after a step that returns, [RE]
    the state before a step and the state at [exit]. *)
Variables RD RE : state -> state -> Prop.

Hypothesis RD_refl : forall st, RD st st.
Hypothesis RD_trans : forall st1 st2 st3, RD st1 st2 -> RD st2 st3 -> RD st1 st3.
Hypothesis RD_RE : forall st1 st2 st3, RD st1 st2 -> RE st2 st3 -> RE st1 st3.
Hypothesis RD_report : forall d st, RD st (report d st).
Hypothesis RD_stack : forall s st, RD st (set_stack s st).
Hypothesis RD_record : forall p sb st st',
  S_ISLNK (st_mode sb) = false ->
  record_access_level alloc_ok id RECORD_LESS_INTERESTING p sb st = Done st' ->
  RD st st'.
Hypothesis RE_record : forall p sb st st',
  S_ISLNK (st_mode sb) = false ->
  record_access_level alloc_ok id RECORD_LESS_INTERESTING p sb st = Exit st' ->
  RE st st'.



Lemma process_entry_rel scan dir cp d_name child st :
  (forall dir0 st0, walk_ok RD RE (scan child dir0 st0) st0) ->
  walk_ok RD RE (process_entry alloc_ok id RECORD_LESS_INTERESTING scan dir cp
             d_name child st) st.
Proof.
  intros Hscan. unfold process_entry, visit.
  repeat case_match; simpl; eauto.
  all: match goal with
       | Hrec : record_access_level _ _ _ _ _ _ = Done ?st0 |- _ =>
           specialize (Hscan (StackBuf cp) st0)
       end.
  all: destruct (scan child (StackBuf cp) _); simpl in *; eauto 6.
Qed.

Lemma scan_entries_rel scan dir cp entries :
  Forall (fun pe => forall dir0 st0, walk_ok RD RE (scan (snd pe) dir0 st0) st0)
    entries ->
  forall st,
    walk_ok RD RE (scan_entries alloc_ok id RECORD_LESS_INTERESTING scan dir cp
               entries st) st.
Proof.
  induction 1 as [|pe rest Hpe Hrest IH]; intros st; simpl; [apply RD_refl|].
  unfold scan_entry.
  destruct (is_dot_or_dotdot (fst pe)); [apply IH|].
  pose proof (process_entry_rel scan dir cp (fst pe) (snd pe) st Hpe) as H.
  destruct (process_entry _ _ _ _ _ _ _ _ _) as [st1| |]; simpl in *; auto.
  specialize (IH st1).
  destruct (scan_entries _ _ _ _ _ _ _ _) as [st2| |]; simpl in *; eauto.
Qed.

Lemma scan_directory_rel fs :
  forall dir st,
    walk_ok RD RE (scan_directory alloc_ok id RECORD_LESS_INTERESTING fs dir st) st.
Proof.
  induction fs as [r|r entries IH] using node_ind; intros dir st; simpl.
  - destruct (deref st dir); simpl; eauto.
  - destruct (deref st dir); simpl; [|exact I].
    pose proof (scan_entries_rel
                  (fun child => scan_directory alloc_ok id
                                  RECORD_LESS_INTERESTING child)
                  dir (length (stack st)) entries IH (enter_frame st)) as H.
    destruct (scan_entries _ _ _ _ _ _ _ _) as [st1| |]; simpl in *; eauto.
Qed.

End WalkRel.

(** ** What every walk keeps *)

Lemma get_entries_report b d st :
  get_entries b (report d st) = get_entries b st.
Proof. now destruct b. Qed.

Lemma get_entries_set_stack b s st :
  get_entries b (set_stack s st) = get_entries b st.
Proof. now destruct b. Qed.

Lemma get_entries_set_brk b n st :
  get_entries b (set_brk n st) = get_entries b st.
Proof. now destruct b. Qed.

Lemma entries_init_wf : entries_wf entries_init.
Proof. unfold entries_wf, entries_init; simpl. lia. Qed.

Lemma initial_state_wf root : state_wf (initial_state root).
Proof. intros []; apply entries_init_wf. Qed.

Section KeepFacts.

Variable alloc_ok : nat -> bool.
Variable id : identity.
Variable RECORD_LESS_INTERESTING : bool.

(** The records of a bucket after an append: the new one at the old
    count, the old ones where they were. *)
Lemma record_access_recorded b p sb st st' :
  entries_wf (get_entries b st) ->
  record_access alloc_ok b p sb st = Done st' ->
  let pe := get_entries b st in
  let k := if idx pe =? len pe then S (brk st) else brk st in
  let q := if alloc_ok k then HeapStr (length (heap st)) else NULL in
  forall b' i,
    recorded b' st' i =
      if decide (b' = b /\ i = Z.to_nat (idx pe))
      then Some (mk_entry q sb)
      else recorded b' st i.
Proof.
  intros Hwf Hdone pe k q b' i.
  destruct (record_access_done alloc_ok b p sb st st' Hwf Hdone)
    as (s & _ & Hidx & _ & _ & _ & Hnew & Hold & _).
  destruct (record_access_frame alloc_ok b p sb st st' (or_introl Hdone))
    as (Hother & _).
  fold pe in Hidx, Hnew, Hold. fold k q in Hnew.
  destruct Hwf as (Hi & _ & Hblk). fold pe in Hi, Hblk.
  destruct (decide (b' = b /\ i = Z.to_nat (idx pe))) as [[-> ->]|Hne].
  - unfold recorded. rewrite Hidx, Hnew.
    destruct (Z.ltb_spec (Z.of_nat (Z.to_nat (idx pe))) (idx pe + 1));
      [reflexivity|lia].
  - destruct (decide (b' = b)) as [->|Hb].
    + assert (i <> Z.to_nat (idx pe)) as Hi' by tauto.
      unfold recorded. rewrite Hidx. fold pe.
      destruct (Z.ltb_spec (Z.of_nat i) (idx pe)) as [Hlt|Hge].
      * destruct (Z.ltb_spec (Z.of_nat i) (idx pe + 1)); [|lia].
        rewrite Hold by lia. reflexivity.
      * destruct (Z.ltb_spec (Z.of_nat i) (idx pe + 1)); [lia|reflexivity].
    + unfold recorded. now rewrite Hother.
Qed.

(** A step keeps the store when it keeps the buckets well formed, the
    records where they are and the strings of the heap as they are. *)
Lemma keeps_refl st : keeps st st.
Proof. intros Hwf. auto. Qed.

Lemma keeps_trans st1 st2 st3 : keeps st1 st2 -> keeps st2 st3 -> keeps st1 st3.
Proof.
  intros H12 H23 Hwf. destruct (H12 Hwf) as (Hwf2 & Hr2 & Hh2).
  destruct (H23 Hwf2) as (Hwf3 & Hr3 & Hh3). auto.
Qed.

Lemma keeps_same_store st st' :
  (forall b, get_entries b st' = get_entries b st) ->
  heap st' = heap st ->
  keeps st st'.
Proof.
  intros Hb Hh Hwf. split_and!.
  - intros b. rewrite Hb. apply Hwf.
  - intros b i e. unfold recorded. now rewrite Hb.
  - intros k s. now rewrite Hh.
Qed.

Lemma keeps_report d st : keeps st (report d st).
Proof. apply keeps_same_store; [intros []|]; reflexivity. Qed.

Lemma keeps_set_stack s st : keeps st (set_stack s st).
Proof. apply keeps_same_store; [intros []|]; reflexivity. Qed.

Lemma record_access_keeps b p sb st st' :
  ends (record_access alloc_ok b p sb st) st' -> keeps st st'.
Proof.
  intros [Hdone|Hexit].
  - intros Hwf.
    destruct (record_access_done alloc_ok b p sb st st' (Hwf b) Hdone)
      as (s & _ & _ & _ & _ & Hwf' & _ & _ & Hheap & _).
    destruct (record_access_frame alloc_ok b p sb st st' (or_introl Hdone))
      as (Hother & _).
    split_and!.
    + intros b'. destruct (decide (b' = b)) as [->|Hb]; [exact Hwf'|].
      rewrite Hother by assumption. apply Hwf.
    + intros b' i e Hrec.
      rewrite (record_access_recorded b p sb st st' (Hwf b) Hdone).
      case_decide as Hd; [|exact Hrec].
      destruct Hd as [-> ->]. unfold recorded in Hrec.
      destruct (Z.ltb_spec (Z.of_nat (Z.to_nat (idx (get_entries b st))))
                  (idx (get_entries b st))); [lia|discriminate].
    + intros k s0 Hk. rewrite Hheap.
      destruct (alloc_ok _); [|exact Hk].
      now apply lookup_app_l_Some.
  - apply record_access_exit in Hexit as (-> & _ & _).
    apply keeps_same_store; [intros []|]; reflexivity.
Qed.

Lemma record_access_level_cases p sb st :
  (exists b, first_match id RECORD_LESS_INTERESTING sb = Some b /\
     record_access_level alloc_ok id RECORD_LESS_INTERESTING p sb st =
     record_access alloc_ok b p sb st) \/
  (first_match id RECORD_LESS_INTERESTING sb = None /\
     record_access_level alloc_ok id RECORD_LESS_INTERESTING p sb st =
     Done st).
Proof.
  unfold record_access_level, first_match, priority_chain.
  destruct RECORD_LESS_INTERESTING; simpl;
    destruct (is_setuid id sb), (is_setgid id sb), (is_writable id sb);
    try destruct (is_readable id sb); try destruct (is_executable id sb);
    simpl; eauto.
Qed.

Lemma record_access_level_keeps p sb st st' :
  ends (record_access_level alloc_ok id RECORD_LESS_INTERESTING p sb st) st' ->
  keeps st st'.
Proof.
  destruct (record_access_level_cases p sb st) as [(b & _ & ->)|[_ ->]].
  - apply record_access_keeps.
  - intros [H|H]; [|discriminate]. injection H as <-. apply keeps_refl.
Qed.

(** Whatever the walk, it keeps the store. *)
Lemma scan_directory_keeps fs dir st st' :
  ends (scan_directory alloc_ok id RECORD_LESS_INTERESTING fs dir st) st' ->
  keeps st st'.
Proof.
  intros Hends.
  pose proof (scan_directory_rel alloc_ok id RECORD_LESS_INTERESTING
                keeps keeps keeps_refl keeps_trans keeps_trans
                keeps_report keeps_set_stack) as H.
  specialize (H (fun p sb st0 st1 _ Hd =>
                   record_access_level_keeps p sb st0 st1 (or_introl Hd))
                (fun p sb st0 st1 _ He =>
                   record_access_level_keeps p sb st0 st1 (or_intror He))
                fs dir st).
  destruct Hends as [E|E]; rewrite E in H; exact H.
Qed.

End KeepFacts.

(** ** The walker: what it never does *)

Section WalkFacts.

Variable alloc_ok : nat -> bool.
Variable id : identity.
Variable RECORD_LESS_INTERESTING : bool.

Lemma scan_directory_unfold fs dir st :
  scan_directory alloc_ok id RECORD_LESS_INTERESTING fs dir st =
  match deref st dir with
  | None => Undefined
  | Some d =>
      leave_frame (length (stack st))
        match opendir fs with
        | None => Done (report (UnableToOpenDir d) (enter_frame st))
        | Some entries =>
            scan_entries alloc_ok id RECORD_LESS_INTERESTING
              (scan_directory alloc_ok id RECORD_LESS_INTERESTING)
              dir (length (stack st)) entries (enter_frame st)
        end
  end.
Proof. destruct fs as [r [entries|]]; reflexivity. Qed.

(** The process ends in [exit] only for want of memory. *)
Lemma scan_directory_exit fs dir st st' :
  scan_directory alloc_ok id RECORD_LESS_INTERESTING fs dir st = Exit st' ->
  out_of_memory alloc_ok st'.
Proof.
  intros Hexit.
  pose proof (scan_directory_rel alloc_ok id RECORD_LESS_INTERESTING
                (fun _ _ => True) (fun _ st1 => out_of_memory alloc_ok st1))
    as H.
  specialize (H (fun _ => I) (fun _ _ _ _ _ => I) (fun _ _ _ _ H => H)
                (fun _ _ => I) (fun _ _ => I) (fun _ _ _ _ _ _ => I)).
  assert (forall p sb st0 st1,
             S_ISLNK (st_mode sb) = false ->
             record_access_level alloc_ok id RECORD_LESS_INTERESTING p sb st0
             = Exit st1 -> out_of_memory alloc_ok st1) as Hrec.
  { intros p sb st0 st1 _ He.
    destruct (record_access_level_cases alloc_ok id RECORD_LESS_INTERESTING
                p sb st0) as [(b & _ & Hb)|[_ Hb]];
      rewrite Hb in He; [|discriminate].
    apply record_access_exit in He as (-> & Hno & _).
    exists (brk st0). split_and!; [reflexivity|exact Hno|].
    simpl. apply last_snoc. }
  specialize (H Hrec fs dir st). now rewrite Hexit in H.
Qed.

(** A property of the records that later copies on the heap do not
    undo, and that every new record of an object that is no symbolic
    link has, holds of all records after a walk if it did before. *)
Section RecordsInvariant.

Variable P : state -> entry_t -> Prop.

Hypothesis P_mono : forall st st' e,
  (forall k s, heap st !! k = Some s -> heap st' !! k = Some s) ->
  P st e -> P st' e.

Hypothesis P_new : forall b p sb st st' e,
  S_ISLNK (st_mode sb) = false ->
  entries_wf (get_entries b st) ->
  record_access alloc_ok b p sb st = Done st' ->
  recorded b st' (Z.to_nat (idx (get_entries b st))) = Some e ->
  P st' e.

Lemma record_access_level_all_recorded p sb st st' :
  S_ISLNK (st_mode sb) = false ->
  state_wf st -> all_recorded P st ->
  ends (record_access_level alloc_ok id RECORD_LESS_INTERESTING p sb st) st' ->
  all_recorded P st'.
Proof.
  intros Hsb Hwf Hall Hends.
  pose proof (record_access_level_keeps alloc_ok id RECORD_LESS_INTERESTING
                p sb st st' Hends Hwf) as (_ & _ & Hheap).
  destruct (record_access_level_cases alloc_ok id RECORD_LESS_INTERESTING
              p sb st) as [(b & _ & Hb)|[_ Hb]]; rewrite Hb in Hends.
  - destruct Hends as [Hdone|Hexit].
    + intros b' i e Hrec.
      pose proof Hrec as Hrec'.
      rewrite (record_access_recorded alloc_ok b p sb st st' (Hwf b) Hdone)
        in Hrec'.
      case_decide as Hd.
      * destruct Hd as [-> ->].
        exact (P_new b p sb st st' e Hsb (Hwf b) Hdone Hrec).
      * apply (P_mono st st' e Hheap). exact (Hall b' i e Hrec').
    + apply record_access_exit in Hexit as (-> & _ & _).
      intros b' i e Hrec. apply (P_mono st _ e Hheap).
      apply (Hall b' i e). unfold recorded in *.
      now rewrite get_entries_report, get_entries_set_brk in Hrec.
  - destruct Hends as [[= <-]|[=]]. exact Hall.
Qed.

Lemma scan_directory_all_recorded fs dir st st' :
  state_wf st -> all_recorded P st ->
  ends (scan_directory alloc_ok id RECORD_LESS_INTERESTING fs dir st) st' ->
  all_recorded P st'.
Proof.
  intros Hwf Hall Hends.
  set (R := fun st0 st1 : state =>
              keeps st0 st1 /\
              (state_wf st0 -> all_recorded P st0 -> all_recorded P st1)).
  assert (forall st0 st1,
             (forall b, get_entries b st1 = get_entries b st0) ->
             heap st1 = heap st0 -> R st0 st1) as Hsame.
  { intros st0 st1 Hb Hh. split; [now apply keeps_same_store|].
    intros _ H0 b i e Hrec. apply (P_mono st0 st1 e).
    - intros k s. now rewrite Hh.
    - apply (H0 b i e). unfold recorded in *. now rewrite Hb in Hrec. }
  assert (forall st1 st2 st3, R st1 st2 -> R st2 st3 -> R st1 st3) as Htrans.
  { intros st1 st2 st3 [K12 N12] [K23 N23]. split.
    - eapply keeps_trans; eassumption.
    - intros W1 H1. apply N23; [apply (K12 W1)|now apply N12]. }
  pose proof (scan_directory_rel alloc_ok id RECORD_LESS_INTERESTING R R) as H.
  specialize (H (fun st0 => Hsame st0 st0 (fun _ => eq_refl) eq_refl)
                Htrans Htrans).
  specialize (H (fun d st0 =>
                   Hsame st0 (report d st0)
                     (fun b => get_entries_report b d st0) eq_refl)
                (fun s st0 =>
                   Hsame st0 (set_stack s st0)
                     (fun b => get_entries_set_stack b s st0) eq_refl)).
  assert (forall p sb st0 st1,
             S_ISLNK (st_mode sb) = false ->
             ends (record_access_level alloc_ok id RECORD_LESS_INTERESTING
                     p sb st0) st1 -> R st0 st1) as Hrec.
  { intros p sb st0 st1 Hsb He. split.
    - eapply record_access_level_keeps; eassumption.
    - intros W0 N0. eapply record_access_level_all_recorded; eassumption. }
  specialize (H (fun p sb st0 st1 Hsb Hd => Hrec p sb st0 st1 Hsb (or_introl Hd))
                (fun p sb st0 st1 Hsb He => Hrec p sb st0 st1 Hsb (or_intror He))
                fs dir st).
  destruct Hends as [E|E]; rewrite E in H; simpl in H; now apply H.
Qed.

End RecordsInvariant.

(** A walk that starts without the record of a symbolic link ends
    without one. *)
Lemma scan_directory_no_symlink fs dir st st' :
  state_wf st -> no_symlink_recorded st ->
  ends (scan_directory alloc_ok id RECORD_LESS_INTERESTING fs dir st) st' ->
  no_symlink_recorded st'.
Proof.
  apply (scan_directory_all_recorded
           (fun _ e => S_ISLNK (st_mode (statbuf e)) = false)).
  - intros st0 st1 e _ H. exact H.
  - intros b p sb st0 st1 e Hsb Hwf Hdone Hrec.
    rewrite (record_access_recorded alloc_ok b p sb st0 st1 Hwf Hdone) in Hrec.
    rewrite decide_True in Hrec by (split; reflexivity).
    now injection Hrec as <-.
Qed.

(** A walk that starts with the path of every record on the heap ends
    so. *)
Lemma scan_directory_paths_on_heap fs dir st st' :
  state_wf st -> paths_on_heap st ->
  ends (scan_directory alloc_ok id RECORD_LESS_INTERESTING fs dir st) st' ->
  paths_on_heap st'.
Proof.
  apply (scan_directory_all_recorded on_heap).
  - intros st0 st1 e Hheap [Hnull|(k & Hk & [s Hs])]; [now left|].
    right. exists k. split; [exact Hk|]. exists s. now apply Hheap.
  - intros b p sb st0 st1 e _ Hwf Hdone Hrec.
    rewrite (record_access_recorded alloc_ok b p sb st0 st1 Hwf Hdone) in Hrec.
    rewrite decide_True in Hrec by (split; reflexivity).
    injection Hrec as <-.
    destruct (record_access_done alloc_ok b p sb st0 st1 Hwf Hdone)
      as (s & _ & _ & _ & _ & _ & _ & _ & Hheap & _).
    unfold on_heap. cbn [path].
    destruct (alloc_ok _); [right|now left].
    eexists. split; [reflexivity|]. rewrite Hheap.
    exists s. now apply list_lookup_middle.
Qed.

(** What the walker does not enter has no part in the walk: cutting
    it from the file system leaves the outcome as it is. *)
Section Cut.

Variable keep : stat -> bool.

Hypothesis keep_entered : forall sb,
  S_ISLNK (st_mode sb) = false ->
  S_ISDIR (st_mode sb) && is_executable id sb = true ->
  keep sb = true.

Lemma visit_cut cp p child st :
  (forall dir0 st0,
      scan_directory alloc_ok id RECORD_LESS_INTERESTING
        (cut_listing keep child) dir0 st0 =
      scan_directory alloc_ok id RECORD_LESS_INTERESTING child dir0 st0) ->
  visit alloc_ok id RECORD_LESS_INTERESTING
    (scan_directory alloc_ok id RECORD_LESS_INTERESTING) cp p
    (cut keep child) st =
  visit alloc_ok id RECORD_LESS_INTERESTING
    (scan_directory alloc_ok id RECORD_LESS_INTERESTING) cp p child st.
Proof.
  intros IH. destruct child as [[sb|] od]; [|reflexivity].
  unfold visit. cbn [cut lstat].
  destruct (S_ISLNK (st_mode sb)) eqn:Hlnk; [reflexivity|].
  destruct (record_access_level _ _ _ _ _ _); try reflexivity.
  destruct (S_ISDIR (st_mode sb) && is_executable id sb) eqn:Henter;
    [|reflexivity].
  rewrite (keep_entered sb Hlnk Henter). apply IH.
Qed.

Lemma scan_entries_cut dir cp entries :
  Forall (fun pe => forall dir0 st0,
            scan_directory alloc_ok id RECORD_LESS_INTERESTING
              (cut_listing keep (snd pe)) dir0 st0 =
            scan_directory alloc_ok id RECORD_LESS_INTERESTING
              (snd pe) dir0 st0) entries ->
  forall st,
    scan_entries alloc_ok id RECORD_LESS_INTERESTING
      (scan_directory alloc_ok id RECORD_LESS_INTERESTING) dir cp
      (map (fun pe => (fst pe, cut keep (snd pe))) entries) st =
    scan_entries alloc_ok id RECORD_LESS_INTERESTING
      (scan_directory alloc_ok id RECORD_LESS_INTERESTING) dir cp entries st.
Proof.
  induction 1 as [|pe rest Hpe Hrest IH]; intros st; [reflexivity|].
  cbn [map scan_entries]. unfold scan_entry, process_entry. cbn [fst snd].
  destruct (is_dot_or_dotdot (fst pe)); [apply IH|].
  destruct (deref st dir); [|reflexivity].
  destruct (stack st !! cp); [|reflexivity].
  destruct (build_path _ _); try reflexivity; [now rewrite IH|].
  rewrite (visit_cut cp p (snd pe) _ Hpe).
  destruct (visit _ _ _ _ _ _ _ _); try reflexivity. apply IH.
Qed.

Lemma scan_directory_cut fs dir st :
  scan_directory alloc_ok id RECORD_LESS_INTERESTING (cut_listing keep fs)
    dir st =
  scan_directory alloc_ok id RECORD_LESS_INTERESTING fs dir st.
Proof.
  revert dir st.
  induction fs as [r|r entries IH] using node_ind; intros dir st;
    [reflexivity|].
  rewrite !scan_directory_unfold. cbn [cut_listing opendir option_map].
  now rewrite (scan_entries_cut dir (length (stack st)) entries IH).
Qed.

End Cut.

End WalkFacts.

Lemma is_dot_or_dotdot_iff (d_name : string) :
  is_dot_or_dotdot d_name = true <-> d_name = "." \/ d_name = "..".
Proof.
  unfold is_dot_or_dotdot.
  destruct d_name as [|c0 [|c1 [|c2 r]]]; try (split; [discriminate|]).
  - intros [H|H]; discriminate H.
  - destruct (Ascii.eqb_spec c0 "."%char) as [->|Hne].
    + split; auto.
    + split; [discriminate|]. intros [[= H]|[=]]. contradiction.
  - destruct (Ascii.eqb_spec c0 "."%char) as [->|Hne0];
      [destruct (Ascii.eqb_spec c1 "."%char) as [->|Hne1]|].
    + split; auto.
    + split; [discriminate|]. intros [[=]|[= H]]. contradiction.
    + split; [discriminate|]. intros [[=]|[= H]]. contradiction.
  - destruct (Ascii.eqb c0 "."%char), (Ascii.eqb c1 "."%char);
      (split; [discriminate|]); intros [[=]|[=]].
Qed.

Lemma initial_state_all_recorded (P : state -> entry_t -> Prop)
    (root : string) :
  all_recorded P (initial_state root).
Proof.
  intros b i e. unfold recorded.
  replace (idx (get_entries b (initial_state root))) with 0
    by (now destruct b).
  destruct (Z.ltb_spec (Z.of_nat i) 0); [lia|discriminate].
Qed.

Lemma build_path_too_long (d d_name : string) :
  strlen d <= PATH_MAX + 1 -> strlen d_name <= PATH_MAX - 1 ->
  build_path d d_name = PathTooLong <->
  PATH_MAX - 1 <= strlen d + strlen d_name.
Proof.
  intros Hd Hn. unfold build_path.
  assert (0 <= strlen d_name) as Hn0 by (unfold strlen; lia).
  destruct (Z.ltb_spec (PATH_MAX + 1) (strlen d)); [lia|].
  unfold wrap64. rewrite Z.mod_small by (unfold PATH_MAX in *; lia).
  destruct (Z.leb_spec (PATH_MAX - 1 - strlen d_name) (strlen d)).
  - split; [lia|reflexivity].
  - split; [|lia]. now destruct (_ <? _).
Qed.

Lemma scan_directory_opendir_fails (alloc_ok : nat -> bool) (id : identity)
    (extended : bool) (fs : node) (dir : ptr) (st : state) (d : string) :
  opendir fs = None -> deref st dir = Some d ->
  scan_directory alloc_ok id extended fs dir st
  = Done (report (UnableToOpenDir d) st).
Proof.
  intros Hopen Hd. rewrite scan_directory_unfold, Hd, Hopen.
  unfold leave_frame, enter_frame. cbn [stack report set_stack].
  rewrite take_app_length. now destruct st.
Qed.

(** ** The walker goes well *)

Lemma strlen_app (a b : string) : strlen (a +:+ b) = strlen a + strlen b.
Proof.
  unfold strlen. induction a as [|c a IH]; [reflexivity|].
  change (String c a +:+ b) with (String c (a +:+ b)).
  cbn [String.length]. rewrite !Nat2Z.inj_succ. lia.
Qed.

Lemma build_path_fits (d d_name : string) :
  strlen d <= PATH_MAX + 1 -> strlen d_name <= NAME_MAX ->
  build_path d d_name <> PathOverflow /\
  (forall p, build_path d d_name = PathOk p -> strlen p <= PATH_MAX).
Proof.
  intros Hd Hn. unfold build_path.
  assert (0 <= strlen d_name) as Hn0 by (unfold strlen; lia).
  assert (0 <= strlen d) as Hd0 by (unfold strlen; lia).
  destruct (Z.ltb_spec (PATH_MAX + 1) (strlen d)); [lia|].
  unfold wrap64.
  rewrite Z.mod_small by (unfold PATH_MAX, NAME_MAX in *; lia).
  destruct (Z.leb_spec (PATH_MAX - 1 - strlen d_name) (strlen d));
    [split; [discriminate|intros p; discriminate]|].
  set (sep := if (0 <? strlen d) && negb (last_is_slash d) then "/" else "").
  assert (strlen sep <= 1) as Hsep by (subst sep; now destruct (_ && _)).
  assert (strlen (d +:+ sep +:+ d_name) <= PATH_MAX) as Hp.
  { rewrite !strlen_app. lia. }
  destruct (Z.ltb_spec (PATH_MAX + 1) (strlen (d +:+ sep +:+ d_name) + 1));
    [lia|].
  split; [discriminate|]. now intros p [= <-].
Qed.

Section Progress.

Variable alloc_ok : nat -> bool.
Variable id : identity.
Variable RECORD_LESS_INTERESTING : bool.

Lemma record_access_defined b p sb st :
  entries_wf (get_entries b st) ->
  idx (get_entries b st) + 1 < 2 ^ 32 ->
  is_Some (deref st p) ->
  record_access alloc_ok b p sb st <> Undefined.
Proof.
  intros (Hidx & Hlen & Hblk) Hroom [s Hs]. unfold record_access.
  rewrite wrap32_small by lia.
  destruct (Z.ltb_spec (len (get_entries b st)) (idx (get_entries b st) + 1)).
  - destruct (alloc_ok (brk st)); [|discriminate].
    cbn [idx len head fst snd].
    replace (deref (set_brk (S (brk st)) st) p) with (Some s)
      by (now destruct p).
    rewrite wrap32_small by lia. unfold realloc.
    destruct (resize _ _ _ !! _) eqn:Hcell; [discriminate|].
    apply lookup_ge_None in Hcell. rewrite length_resize in Hcell. lia.
  - rewrite Hs.
    destruct (head _ !! _) eqn:Hcell; [discriminate|].
    apply lookup_ge_None in Hcell. lia.
Qed.

Lemma record_access_level_goes_well p sb st :
  state_wf st ->
  (forall b, idx (get_entries b st) + 1 < 2 ^ 32) ->
  is_Some (deref st p) ->
  goes_well 1 st
    (record_access_level alloc_ok id RECORD_LESS_INTERESTING p sb st).
Proof.
  intros Hwf Hroom Hp.
  destruct (record_access_level_cases alloc_ok id RECORD_LESS_INTERESTING
              p sb st) as [(b & _ & ->)|[_ ->]].
  - pose proof (record_access_defined b p sb st (Hwf b) (Hroom b) Hp) as Hdef.
    destruct (record_access alloc_ok b p sb st) as [st'| |] eqn:Hrec;
      [|exact I|congruence].
    destruct (record_access_frame alloc_ok b p sb st st' (or_introl Hrec))
      as (Hother & Hstack & _).
    destruct (record_access_done alloc_ok b p sb st st' (Hwf b) Hrec)
      as (s & _ & Hidx & _).
    split_and!; [exact Hstack| |].
    + apply (record_access_keeps alloc_ok b p sb st st' (or_introl Hrec) Hwf).
    + intros b'. destruct (decide (b' = b)) as [->|Hne].
      * rewrite Hidx. lia.
      * rewrite Hother by assumption. lia.
  - simpl. split_and!; [reflexivity|exact Hwf|intros b; lia].
Qed.

Lemma scan_entries_goes_well scan f d base entries :
  Forall (fun pe => forall dir0 st0,
            scan_pre (snd pe) dir0 st0 ->
            goes_well (objects (snd pe)) st0 (scan (snd pe) dir0 st0))
    entries ->
  base !! f = Some d -> strlen d <= PATH_MAX + 1 ->
  forall st buf,
    forallb (fun pe => (strlen (fst pe) <=? NAME_MAX) && names_fit (snd pe))
      entries = true ->
    state_wf st ->
    stack st = base ++ [buf] ->
    (forall b, idx (get_entries b st)
               + Z.of_nat (sum_list_with (fun pe => S (objects (snd pe)))
                             entries) < 2 ^ 32) ->
    match scan_entries alloc_ok id RECORD_LESS_INTERESTING scan
            (StackBuf f) (length base) entries st with
    | Done st' =>
        (exists buf', stack st' = base ++ [buf']) /\ state_wf st' /\
        forall b, idx (get_entries b st')
                  <= idx (get_entries b st)
                     + Z.of_nat (sum_list_with
                                   (fun pe => S (objects (snd pe))) entries)
    | Exit _ => True
    | Undefined => False
    end.
Proof.
  intros Hall Hf Hd.
  induction Hall as [|[d_name child] rest Hchild _ IH];
    intros st buf Hnames Hwf Hstack Hroom.
  { simpl. split_and!; [eauto|exact Hwf|intros b; lia]. }
  cbn [forallb fst snd] in Hnames.
  apply andb_prop in Hnames as [Hname Hrest].
  apply andb_prop in Hname as [Hn Hfit]. apply Z.leb_le in Hn.
  cbn [sum_list_with snd] in Hroom |- *.
  cbn [scan_entries]. unfold scan_entry. cbn [fst snd].
  (* the rest of the loop, from any state that the turn may leave *)
  assert (forall st1 buf1,
             state_wf st1 -> stack st1 = base ++ [buf1] ->
             (forall b, idx (get_entries b st1)
                        <= idx (get_entries b st)
                           + Z.of_nat (S (objects child))) ->
             match scan_entries alloc_ok id RECORD_LESS_INTERESTING scan
                     (StackBuf f) (length base) rest st1 with
             | Done st' =>
                 (exists buf', stack st' = base ++ [buf']) /\ state_wf st' /\
                 forall b, idx (get_entries b st')
                           <= idx (get_entries b st)
                              + Z.of_nat
                                  (S (objects child)
                                   + sum_list_with
                                       (fun pe => S (objects (snd pe))) rest)
             | Exit _ => True
             | Undefined => False
             end) as Hgo.
  { intros st1 buf1 Hwf1 Hstack1 Hidx1.
    specialize (IH st1 buf1 Hrest Hwf1 Hstack1).
    destruct (scan_entries _ _ _ _ _ _ _ _); try exact I.
    - destruct IH as (Hs & Hw & Hi).
      + intros b. specialize (Hidx1 b). specialize (Hroom b). lia.
      + split_and!; [exact Hs|exact Hw|].
        intros b. specialize (Hi b). specialize (Hidx1 b). lia.
    - apply IH. intros b. specialize (Hidx1 b). specialize (Hroom b). lia. }
  destruct (is_dot_or_dotdot d_name).
  { apply (Hgo st buf Hwf Hstack). intros b. lia. }
  unfold process_entry.
  assert (deref st (StackBuf f) = Some d) as ->.
  { simpl. rewrite Hstack. apply lookup_app_l_Some. exact Hf. }
  assert (stack st !! length base = Some buf) as ->.
  { rewrite Hstack. now apply list_lookup_middle. }
  assert (forall x, <[length base := x]> (stack st) = base ++ [x]) as Hins.
  { intros x. rewrite Hstack.
    replace (length base) with (length base + 0)%nat at 1 by lia.
    now rewrite insert_app_r. }
  destruct (build_path_fits d d_name Hd Hn) as [Hno Hlen].
  destruct (build_path d d_name) as [| |p] eqn:Hbuild; [|congruence|].
  { (* name too long *)
    apply (Hgo _ (my_stpcpy buf d)).
    - intros b. rewrite get_entries_report, get_entries_set_stack. apply Hwf.
    - simpl. apply Hins.
    - intros b. rewrite get_entries_report, get_entries_set_stack. lia. }
  specialize (Hlen p eq_refl). rewrite Hins.
  set (st2 := set_stack (base ++ [p]) st).
  assert (state_wf st2) as Hwf2.
  { intros b. unfold st2. rewrite get_entries_set_stack. apply Hwf. }
  unfold visit. destruct (lstat child) as [sb|].
  2:{ apply (Hgo _ p).
      - intros b. rewrite get_entries_report. apply Hwf2.
      - reflexivity.
      - intros b. rewrite get_entries_report. unfold st2.
        rewrite get_entries_set_stack. lia. }
  destruct (S_ISLNK (st_mode sb)).
  { apply (Hgo _ p Hwf2 eq_refl). intros b. unfold st2.
    rewrite get_entries_set_stack. lia. }
  pose proof (record_access_level_goes_well (StackBuf (length base)) sb st2
                Hwf2) as Hrec.
  destruct (record_access_level _ _ _ _ _ _) as [st3| |].
  3:{ apply Hrec.
      - intros b. unfold st2. rewrite get_entries_set_stack.
        specialize (Hroom b). lia.
      - simpl. rewrite list_lookup_middle; eauto. }
  2:{ exact I. }
  destruct Hrec as (Hstack3 & Hwf3 & Hidx3).
  { intros b. unfold st2. rewrite get_entries_set_stack.
    specialize (Hroom b). lia. }
  { simpl. rewrite list_lookup_middle; eauto. }
  assert (forall b, idx (get_entries b st3) <= idx (get_entries b st) + 1)
    as Hidx3'.
  { intros b. specialize (Hidx3 b). unfold st2 in Hidx3.
    rewrite get_entries_set_stack in Hidx3. lia. }
  destruct (S_ISDIR (st_mode sb) && is_executable id sb).
  2:{ apply (Hgo _ p Hwf3 Hstack3). intros b. specialize (Hidx3' b). lia. }
  specialize (Hchild (StackBuf (length base)) st3).
  cbn [snd] in Hchild.
  destruct (scan child (StackBuf (length base)) st3) as [st4| |].
  - destruct Hchild as (Hstack4 & Hwf4 & Hidx4).
    { split_and!; [exact Hfit|exact Hwf3| |].
      - exists (length base), p. split_and!; [reflexivity| |lia].
        rewrite Hstack3. simpl. now apply list_lookup_middle.
      - intros b. specialize (Hidx3' b). specialize (Hroom b). lia. }
    apply (Hgo _ p Hwf4).
    + now rewrite Hstack4, Hstack3.
    + intros b. specialize (Hidx4 b). specialize (Hidx3' b). lia.
  - exact I.
  - apply Hchild. split_and!; [exact Hfit|exact Hwf3| |].
    + exists (length base), p. split_and!; [reflexivity| |lia].
      rewrite Hstack3. simpl. now apply list_lookup_middle.
    + intros b. specialize (Hidx3' b). specialize (Hroom b). lia.
Qed.

Lemma scan_directory_goes_well fs :
  forall dir st,
    scan_pre fs dir st ->
    goes_well (objects fs) st
      (scan_directory alloc_ok id RECORD_LESS_INTERESTING fs dir st).
Proof.
  induction fs as [r|r entries IH] using node_ind;
    intros dir st (Hnames & Hwf & (f & d & -> & Hd & Hlen) & Hroom).
  - rewrite (scan_directory_opendir_fails alloc_ok id
               RECORD_LESS_INTERESTING (Node r None) (StackBuf f) st d
               eq_refl Hd).
    split_and!; [reflexivity| |].
    + intros b. rewrite get_entries_report. apply Hwf.
    + intros b. rewrite get_entries_report. lia.
  - rewrite scan_directory_unfold. cbn [deref opendir]. rewrite Hd.
    assert (state_wf (enter_frame st)) as Hwf0.
    { intros b. unfold enter_frame. rewrite get_entries_set_stack. apply Hwf. }
    assert (forall b,
               idx (get_entries b (enter_frame st))
               + Z.of_nat (sum_list_with (fun pe => S (objects (snd pe)))
                             entries) < 2 ^ 32) as Hroom0.
    { intros b. unfold enter_frame. rewrite get_entries_set_stack.
      apply Hroom. }
    pose proof (scan_entries_goes_well
                  (scan_directory alloc_ok id RECORD_LESS_INTERESTING)
                  f d (stack st) entries IH Hd Hlen (enter_frame st) ""
                  Hnames Hwf0 eq_refl Hroom0) as H.
    destruct (scan_entries _ _ _ _ _ _ _ _) as [st'| |];
      [|exact I|exact H].
    destruct H as ((buf' & Hs) & Hw & Hi).
    cbn [leave_frame goes_well stack set_stack]. split_and!.
    + rewrite Hs. apply take_app_length.
    + intros b. rewrite get_entries_set_stack. apply Hw.
    + intros b. rewrite get_entries_set_stack. specialize (Hi b).
      unfold enter_frame in Hi. rewrite get_entries_set_stack in Hi.
      exact Hi.
Qed.

End Progress.

(** ** The scenarios of the specification

    Under [/tmp/root]: [a] of mode 4755 and [b] of mode 0666, both of
    root; [c] of mode 0700 of uid 2000; the directory [d] of mode 0110
    of uid and gid 1000, with [secret] of mode 0666 in it. For uid 1000
    with group 1000, [a] is recorded as set-uid, [b] and [d/secret] as
    writable, [c] and [d] not at all. *)

Example scenarios_of_the_specification :
  exists st',
    scan_directory always_served tester false
      (Node (Some dir_0700)
         (Some [("a", Node (Some file_4755) None);
                ("b", Node (Some file_0666) None);
                ("c", Node (Some (mk_stat (S_IFREG + 448) 2000 2000)) None);
                ("d", Node (Some (mk_stat (S_IFDIR + 72) 1000 1000))
                        (Some [("secret", Node (Some file_0666) None)]))]))
      (StackBuf 0) (initial_state "/tmp/root") = Done st' /\
    heap st' = ["/tmp/root/a"; "/tmp/root/b"; "/tmp/root/d/secret"] /\
    recorded Suid st' 0 = Some (mk_entry (HeapStr 0) file_4755) /\
    recorded Writable st' 0 = Some (mk_entry (HeapStr 1) file_0666) /\
    recorded Writable st' 1 = Some (mk_entry (HeapStr 2) file_0666) /\
    idx (g_suid st') = 1 /\ idx (g_sgid st') = 0 /\
    idx (g_writable st') = 2 /\
    stack st' = ["/tmp/root"] /\ stderr st' = [].
Proof.
  eexists. split; [vm_compute; reflexivity|].
  vm_compute. split_and!; reflexivity.
Qed.

(** ** The claims *)

(** C1. The recorder follows the priority chain set-uid, set-gid,
    writable and, in extended mode only, readable, executable: it appends
    to the first category that matches and to no other, so an object is
    recorded at most once, and it records nothing when none matches. *)
Theorem record_access_level_priority (alloc_ok : nat -> bool)
    (id : identity) (extended : bool) (p : ptr) (sb : stat) (st : state) :
  record_access_level alloc_ok id extended p sb st =
    match first_match id extended sb with
    | Some b => record_access alloc_ok b p sb st
    | None => Done st
    end /\
  (forall st' b,
      ends (record_access_level alloc_ok id extended p sb st) st' ->
      first_match id extended sb <> Some b ->
      get_entries b st' = get_entries b st) /\
  (forall st' b,
      state_wf st ->
      record_access_level alloc_ok id extended p sb st = Done st' ->
      first_match id extended sb = Some b ->
      idx (get_entries b st') = idx (get_entries b st) + 1 /\
      exists q,
        recorded b st' (Z.to_nat (idx (get_entries b st)))
        = Some (mk_entry q sb)) /\
  (first_match id extended sb = None ->
   record_access_level alloc_ok id extended p sb st = Done st).
Proof.
  destruct (record_access_level_cases alloc_ok id extended p sb st)
    as [(b0 & Hb0 & Heq)|[Hnone Heq]]; rewrite Heq.
  - rewrite Hb0. split_and!; [reflexivity| | |discriminate].
    + intros st' b Hends Hb.
      apply (record_access_frame alloc_ok b0 p sb st st' Hends). congruence.
    + intros st' b Hwf Hdone [= <-].
      destruct (record_access_done alloc_ok b0 p sb st st' (Hwf b0) Hdone)
        as (s & _ & Hidx & _).
      split; [exact Hidx|]. eexists.
      rewrite (record_access_recorded alloc_ok b0 p sb st st' (Hwf b0) Hdone).
      now rewrite decide_True.
  - rewrite Hnone. split_and!; [reflexivity| |discriminate|reflexivity].
    intros st' b [[= <-]|[=]] _. reflexivity.
Qed.

(** The first scenario of the specification: a file of mode 4755 of
    root goes to the set-uid bucket, and the writable bucket stays
    empty. *)
Lemma record_access_level_priority_witness :
  exists st',
    record_access_level always_served tester false (StackBuf 0) file_4755
      (initial_state "/tmp/root/a") = Done st' /\
    idx (g_suid st') = 1 /\
    g_writable st' = entries_init.
Proof.
  eexists. split; [vm_compute; reflexivity|].
  destruct (record_access_level_priority always_served tester false
              (StackBuf 0) file_4755 (initial_state "/tmp/root/a"))
    as (_ & Hother & Hrec & _).
  split.
  - exact (proj1 (Hrec _ Suid (initial_state_wf "/tmp/root/a") eq_refl
                    eq_refl)).
  - apply (Hother _ Writable (or_introl eq_refl)).
    vm_compute. discriminate.
Defined.

(** C2. [is_executable] holds exactly when the identity's uid is 0, or
    the other-execute bit is set, or the owner-execute bit is set and the
    owner is the identity's uid, or the group-execute bit is set and the
    owning group is in the identity's group list; for uid 0 it holds
    whatever the mode bits are. *)
Theorem is_executable_iff (id : identity) (sb : stat) :
  (is_executable id sb = true <->
     g_uid id = 0 \/
     Z.testbit (st_mode sb) 0 = true \/
     (Z.testbit (st_mode sb) 6 = true /\ st_uid sb = g_uid id) \/
     (Z.testbit (st_mode sb) 3 = true /\ In (st_gid sb) (g_groups id))) /\
  (forall id0 sb0, g_uid id0 = 0 -> is_executable id0 sb0 = true).
Proof.
  split.
  - unfold is_executable.
    destruct (Z.eqb_spec (g_uid id) 0) as [H0|H0]; [tauto|].
    rewrite (ugo_rule id sb 0 6 3) by lia. tauto.
  - intros id0 sb0 H. unfold is_executable. now rewrite H.
Qed.

Lemma is_executable_iff_witness :
  is_executable (mk_identity 0 []) (mk_stat S_IFREG 1000 1000) = true /\
  is_executable tester file_4755 = true.
Proof.
  split.
  - apply (proj2 (is_executable_iff tester file_4755)). reflexivity.
  - apply (proj1 (is_executable_iff tester file_4755)).
    right; left. reflexivity.
Defined.

(** C3. [is_writable] and [is_readable] follow the owner/group/other rule
    of [is_executable] on the write and read bits, and nothing else makes
    them hold: uid 0 gets no bypass. *)
Theorem is_writable_is_readable_iff (id : identity) (sb : stat) :
  (is_writable id sb = true <->
     Z.testbit (st_mode sb) 1 = true \/
     (Z.testbit (st_mode sb) 7 = true /\ st_uid sb = g_uid id) \/
     (Z.testbit (st_mode sb) 4 = true /\ In (st_gid sb) (g_groups id))) /\
  (is_readable id sb = true <->
     Z.testbit (st_mode sb) 2 = true \/
     (Z.testbit (st_mode sb) 8 = true /\ st_uid sb = g_uid id) \/
     (Z.testbit (st_mode sb) 5 = true /\ In (st_gid sb) (g_groups id))) /\
  (* uid 0 and modes 0555 and 0333 of another owner *)
  is_writable (mk_identity 0 []) (mk_stat 365 1000 1000) = false /\
  is_readable (mk_identity 0 []) (mk_stat 219 1000 1000) = false.
Proof.
  split; [|split; [|split; reflexivity]].
  - apply (ugo_rule id sb 1 7 4); lia.
  - apply (ugo_rule id sb 2 8 5); lia.
Qed.

Lemma is_writable_is_readable_iff_witness :
  is_writable tester file_0666 = true /\ is_readable tester file_0666 = true.
Proof.
  destruct (is_writable_is_readable_iff tester file_0666) as (Hw & Hr & _).
  split; [apply Hw|apply Hr]; left; reflexivity.
Defined.

(** C4. [is_setuid] holds exactly when [is_executable] holds and the
    set-uid bit is set; an object that the identity can execute and that
    has the set-uid bit goes to the set-uid bucket and to no other,
    whatever its other permissions. *)
Theorem is_setuid_recorded_as_suid (alloc_ok : nat -> bool) (id : identity)
    (extended : bool) (p : ptr) (sb : stat) (st : state) :
  is_setuid id sb = is_executable id sb && Z.testbit (st_mode sb) 11 /\
  (is_executable id sb = true -> Z.testbit (st_mode sb) 11 = true ->
   record_access_level alloc_ok id extended p sb st
   = record_access alloc_ok Suid p sb st /\
   (forall st' b,
       ends (record_access_level alloc_ok id extended p sb st) st' ->
       b <> Suid -> get_entries b st' = get_entries b st) /\
   (forall st',
       state_wf st ->
       record_access_level alloc_ok id extended p sb st = Done st' ->
       idx (g_suid st') = idx (g_suid st) + 1 /\
       exists q,
         recorded Suid st' (Z.to_nat (idx (g_suid st)))
         = Some (mk_entry q sb))).
Proof.
  assert (is_setuid id sb = is_executable id sb && Z.testbit (st_mode sb) 11)
    as Hsuid.
  { unfold is_setuid, S_ISUID.
    now rewrite (truthy_mask_testbit _ 11) by lia. }
  split; [exact Hsuid|]. intros Hx Hbit.
  assert (first_match id extended sb = Some Suid) as Hfirst.
  { unfold first_match, priority_chain. simpl.
    now rewrite Hsuid, Hx, Hbit. }
  destruct (record_access_level_cases alloc_ok id extended p sb st)
    as [(b0 & Hb0 & Heq)|[Hnone _]]; [|congruence].
  assert (b0 = Suid) as -> by congruence.
  rewrite Heq. split_and!; [reflexivity| |].
  - intros st' b Hends Hb.
    now apply (record_access_frame alloc_ok Suid p sb st st' Hends).
  - intros st' Hwf Hdone.
    destruct (record_access_done alloc_ok Suid p sb st st' (Hwf Suid) Hdone)
      as (s & _ & Hidx & _).
    split; [exact Hidx|]. eexists.
    rewrite (record_access_recorded alloc_ok Suid p sb st st' (Hwf Suid)
               Hdone).
    now rewrite decide_True.
Qed.

(** A file of mode 4777 of root: writable by everyone, and yet recorded
    as set-uid only. *)
Lemma is_setuid_recorded_as_suid_witness :
  exists st',
    record_access_level always_served tester true (StackBuf 0)
      (mk_stat (S_IFREG + 2559) 0 0) (initial_state "/tmp/root/a")
    = Done st' /\
    is_writable tester (mk_stat (S_IFREG + 2559) 0 0) = true /\
    idx (g_suid st') = 1 /\
    g_writable st' = entries_init.
Proof.
  eexists. split; [vm_compute; reflexivity|].
  split; [reflexivity|].
  destruct (proj2 (is_setuid_recorded_as_suid always_served tester true
                     (StackBuf 0) (mk_stat (S_IFREG + 2559) 0 0)
                     (initial_state "/tmp/root/a")) eq_refl eq_refl)
    as (_ & Hother & Hrec).
  split.
  - exact (proj1 (Hrec _ (initial_state_wf "/tmp/root/a") eq_refl)).
  - apply (Hother _ Writable (or_introl eq_refl)). discriminate.
Defined.

(** C5. The loop skips the entries named [.] and [..] and no other:
    every other name, also one that starts with a dot, goes through the
    rest of the turn, where its path is built and the object is examined,
    recorded and entered. *)
Theorem scan_entry_skips_dot_entries (alloc_ok : nat -> bool)
    (id : identity) (extended : bool)
    (scan : node -> ptr -> state -> outcome) (dir : ptr) (cp : nat)
    (d_name : string) (child : node) (st : state) :
  (is_dot_or_dotdot d_name = true <-> d_name = "." \/ d_name = "..") /\
  scan_entry alloc_ok id extended scan dir cp (d_name, child) st =
    (if decide (d_name = "." \/ d_name = "..") then Done st
     else process_entry alloc_ok id extended scan dir cp d_name child st) /\
  is_dot_or_dotdot ".bashrc" = false /\
  is_dot_or_dotdot "..foo" = false /\
  (exists st',
      scan_directory always_served tester false
        (Node (Some dir_0700)
           (Some [(".", Node (Some file_0666) None);
                  ("..", Node (Some file_0666) None);
                  (".bashrc", Node (Some file_0666) None);
                  ("..foo", Node (Some file_0666) None)]))
        (StackBuf 0) (initial_state "/tmp/root") = Done st' /\
      idx (g_writable st') = 2 /\
      heap st' = ["/tmp/root/.bashrc"; "/tmp/root/..foo"]).
Proof.
  split_and!; try reflexivity.
  - apply is_dot_or_dotdot_iff.
  - unfold scan_entry. cbn [fst snd].
    pose proof (is_dot_or_dotdot_iff d_name) as H.
    case_decide as Hd.
    + now rewrite (proj2 H Hd).
    + destruct (is_dot_or_dotdot d_name); [|reflexivity].
      exfalso. apply Hd, H. reflexivity.
  - eexists. vm_compute. split_and!; reflexivity.
Qed.

Lemma scan_entry_skips_dot_entries_witness :
  scan_entry always_served tester false (fun _ _ _ => Undefined)
    (StackBuf 0) 1 ("..", Node (Some file_0666) None)
    (enter_frame (initial_state "/tmp/root"))
  = Done (enter_frame (initial_state "/tmp/root")).
Proof.
  exact (proj1 (proj2 (scan_entry_skips_dot_entries always_served tester
                         false (fun _ _ _ => Undefined) (StackBuf 0) 1 ".."
                         (Node (Some file_0666) None)
                         (enter_frame (initial_state "/tmp/root"))))).
Defined.

(** C6. An entry whose metadata say symbolic link is left alone: nothing
    is appended and it is not entered. What lies below such an entry has
    no part in the walk, and no walk puts the record of a symbolic link
    into a bucket. *)
Theorem symlinks_are_skipped (alloc_ok : nat -> bool) (id : identity)
    (extended : bool) :
  (forall scan cp p child sb st,
      lstat child = Some sb -> S_ISLNK (st_mode sb) = true ->
      visit alloc_ok id extended scan cp p child st = Done st) /\
  (forall fs dir st,
      scan_directory alloc_ok id extended
        (cut_listing (fun sb => negb (S_ISLNK (st_mode sb))) fs) dir st =
      scan_directory alloc_ok id extended fs dir st) /\
  (forall fs dir st st',
      state_wf st -> no_symlink_recorded st ->
      ends (scan_directory alloc_ok id extended fs dir st) st' ->
      no_symlink_recorded st').
Proof.
  split_and!.
  - intros scan cp p child sb st Hl Hlnk. unfold visit. now rewrite Hl, Hlnk.
  - apply scan_directory_cut. intros sb Hlnk _. now rewrite Hlnk.
  - apply scan_directory_no_symlink.
Qed.

(** A symbolic link with every permission bit set, among the entries
    of the directory that the scan starts from. *)
Lemma symlinks_are_skipped_witness :
  visit always_served tester true (fun _ _ _ => Undefined) 1 "/tmp/root/l"
    (Node (Some (mk_stat (S_IFLNK + 511) 0 0))
       (Some [("passwd", Node (Some file_0666) None)]))
    (enter_frame (initial_state "/tmp/root"))
  = Done (enter_frame (initial_state "/tmp/root")) /\
  exists st',
    scan_directory always_served tester true
      (Node (Some dir_0700)
         (Some [("l", Node (Some (mk_stat (S_IFLNK + 511) 0 0))
                        (Some [("passwd", Node (Some file_0666) None)]))]))
      (StackBuf 0) (initial_state "/tmp/root") = Done st' /\
    no_symlink_recorded st'.
Proof.
  destruct (symlinks_are_skipped always_served tester true)
    as (Hskip & _ & Hnone).
  split.
  - apply Hskip with (sb := mk_stat (S_IFLNK + 511) 0 0); reflexivity.
  - eexists. split; [vm_compute; reflexivity|].
    apply (Hnone
             (Node (Some dir_0700)
                (Some [("l", Node (Some (mk_stat (S_IFLNK + 511) 0 0))
                               (Some [("passwd",
                                       Node (Some file_0666) None)]))]))
             (StackBuf 0) (initial_state "/tmp/root")).
    + apply initial_state_wf.
    + apply initial_state_all_recorded.
    + left. vm_compute. reflexivity.
Defined.

(** C7, as the specification states it: below a directory that the
    identity cannot execute, nothing is recorded. The directory that the
    scan starts from is opened without a look at its metadata. *)
Lemma scan_root_is_not_gated :
  ~ (forall alloc_ok id extended sb od dir st st',
        S_ISDIR (st_mode sb) = true ->
        is_executable id sb = false ->
        scan_directory alloc_ok id extended (Node (Some sb) od) dir st
        = Done st' ->
        forall b, get_entries b st' = get_entries b st).
Proof.
  intros H.
  specialize (H always_served tester false dir_0700
                (Some [("secret", Node (Some file_0666) None)])
                (StackBuf 0) (initial_state "/tmp/root/d")
                ltac:(match eval vm_compute in
                          (scan_directory always_served tester false
                             (Node (Some dir_0700)
                                (Some [("secret",
                                        Node (Some file_0666) None)]))
                             (StackBuf 0) (initial_state "/tmp/root/d")) with
                      | Done ?s => exact s
                      end)
                eq_refl eq_refl eq_refl Writable).
  vm_compute in H. discriminate H.
Qed.

(** C7, amended. The walker enters an entry exactly when its metadata
    say directory and [is_executable] holds of them. So what lies below
    an entry of which this fails has no part in the walk: the outcome is
    the one for the file system without it. The directory that the scan
    starts from is not an entry: it is entered in any case. *)
Theorem walker_enters_executable_directories (alloc_ok : nat -> bool)
    (id : identity) (extended : bool) :
  (forall scan cp p child sb st st',
      lstat child = Some sb -> S_ISLNK (st_mode sb) = false ->
      record_access_level alloc_ok id extended (StackBuf cp) sb st
      = Done st' ->
      visit alloc_ok id extended scan cp p child st =
        if S_ISDIR (st_mode sb) && is_executable id sb
        then scan child (StackBuf cp) st'
        else Done st') /\
  (forall scan scan' cp p sb od od' st,
      S_ISDIR (st_mode sb) && is_executable id sb = false ->
      visit alloc_ok id extended scan cp p (Node (Some sb) od) st =
      visit alloc_ok id extended scan' cp p (Node (Some sb) od') st) /\
  (forall fs dir st,
      scan_directory alloc_ok id extended
        (cut_listing
           (fun sb => S_ISDIR (st_mode sb) && is_executable id sb) fs)
        dir st =
      scan_directory alloc_ok id extended fs dir st).
Proof.
  split_and!.
  - intros scan cp p child sb st st' Hl Hlnk Hrec. unfold visit.
    now rewrite Hl, Hlnk, Hrec.
  - intros scan scan' cp p sb od od' st Hno. unfold visit. cbn [lstat].
    now rewrite Hno.
  - apply scan_directory_cut. intros sb _ H. exact H.
Qed.

(** A directory of mode 0700 of root among the entries: the world-writable
    file below it is not looked at. *)
Lemma walker_enters_executable_directories_witness :
  visit always_served tester false
    (scan_directory always_served tester false) 1 "/tmp/root/d"
    (Node (Some dir_0700) (Some [("secret", Node (Some file_0666) None)]))
    (enter_frame (initial_state "/tmp/root"))
  = visit always_served tester false (fun _ _ _ => Undefined) 1 "/tmp/root/d"
      (Node (Some dir_0700) None)
      (enter_frame (initial_state "/tmp/root")) /\
  visit always_served tester false (fun _ _ _ => Undefined) 1 "/tmp/root/d"
    (Node (Some dir_0700) None) (enter_frame (initial_state "/tmp/root"))
  = Done (enter_frame (initial_state "/tmp/root")).
Proof.
  destruct (walker_enters_executable_directories always_served tester false)
    as (Henter & Hsame & _).
  split.
  - apply Hsame. reflexivity.
  - rewrite (Henter _ 1%nat _ _ dir_0700 _
               (enter_frame (initial_state "/tmp/root")));
      reflexivity.
Defined.

(** C8. A directory that cannot be opened, an object that cannot be
    examined and a path that is too long are reported and passed over:
    the call returns, the loop goes on with the next entry, and no bucket
    has changed. The process ends in [exit] only when the allocator
    refuses to grow a bucket. Whatever happens, the records made so far
    stay as they are; and over a file system whose names fit a
    [struct dirent], with room in the buckets for its objects, the walk
    does return or end in [exit]. *)
Theorem walker_failures_are_not_fatal (alloc_ok : nat -> bool)
    (id : identity) (extended : bool) :
  (forall fs dir st d,
      opendir fs = None -> deref st dir = Some d ->
      scan_directory alloc_ok id extended fs dir st
      = Done (report (UnableToOpenDir d) st)) /\
  (forall scan dir cp d_name child st d buf p,
      deref st dir = Some d -> stack st !! cp = Some buf ->
      build_path d d_name = PathOk p -> lstat child = None ->
      process_entry alloc_ok id extended scan dir cp d_name child st
      = Done (report (UnableToLstat p)
                (set_stack (<[cp := p]> (stack st)) st))) /\
  (forall scan dir cp d_name child st d buf,
      deref st dir = Some d -> stack st !! cp = Some buf ->
      build_path d d_name = PathTooLong ->
      process_entry alloc_ok id extended scan dir cp d_name child st
      = Done (report (NameTooLong d d_name)
                (set_stack (<[cp := my_stpcpy buf d]> (stack st)) st))) /\
  (forall d d_name,
      strlen d <= PATH_MAX + 1 -> strlen d_name <= PATH_MAX - 1 ->
      build_path d d_name = PathTooLong <->
      PATH_MAX - 1 <= strlen d + strlen d_name) /\
  (forall scan dir cp pe rest st st1,
      scan_entry alloc_ok id extended scan dir cp pe st = Done st1 ->
      scan_entries alloc_ok id extended scan dir cp (pe :: rest) st
      = scan_entries alloc_ok id extended scan dir cp rest st1) /\
  (forall b w s st,
      get_entries b (report w (set_stack s st)) = get_entries b st) /\
  (forall fs dir st st',
      scan_directory alloc_ok id extended fs dir st = Exit st' ->
      out_of_memory alloc_ok st') /\
  (forall fs dir st st',
      ends (scan_directory alloc_ok id extended fs dir st) st' ->
      keeps st st') /\
  (forall fs dir st,
      scan_pre fs dir st ->
      goes_well (objects fs) st
        (scan_directory alloc_ok id extended fs dir st)).
Proof.
  split_and!.
  - apply scan_directory_opendir_fails.
  - intros scan dir cp d_name child st d buf p Hd Hbuf Hp Hl.
    unfold process_entry, visit. now rewrite Hd, Hbuf, Hp, Hl.
  - intros scan dir cp d_name child st d buf Hd Hbuf Hp.
    unfold process_entry. now rewrite Hd, Hbuf, Hp.
  - apply build_path_too_long.
  - intros scan dir cp pe rest st st1 H. cbn [scan_entries]. now rewrite H.
  - intros [] w s st; reflexivity.
  - apply scan_directory_exit.
  - apply scan_directory_keeps.
  - apply scan_directory_goes_well.
Qed.

(** A directory with an entry that cannot be examined, a directory that
    cannot be opened, and a world-writable file: two diagnostics, and the
    file is recorded. With an allocator that refuses everything, the
    first record ends the process. *)
Lemma walker_failures_are_not_fatal_witness :
  let fs :=
    Node (Some dir_0700)
      (Some [("gone", Node None None);
             ("d", Node (Some (mk_stat (S_IFDIR + 493) 0 0)) None);
             ("w", Node (Some file_0666) None)]) in
  (exists st',
      scan_directory always_served tester false fs (StackBuf 0)
        (initial_state "/tmp/root") = Done st' /\
      stderr st' = [UnableToLstat "/tmp/root/gone";
                    UnableToOpenDir "/tmp/root/d"] /\
      idx (g_writable st') = 1 /\ heap st' = ["/tmp/root/w"]) /\
  (exists st',
      scan_directory (fun _ => false) tester false fs (StackBuf 0)
        (initial_state "/tmp/root") = Exit st' /\
      out_of_memory (fun _ => false) st') /\
  scan_directory always_served tester false (Node (Some dir_0700) None)
    (StackBuf 0) (initial_state "/tmp/root")
  = Done (report (UnableToOpenDir "/tmp/root") (initial_state "/tmp/root")) /\
  goes_well 3 (initial_state "/tmp/root")
    (scan_directory always_served tester false fs (StackBuf 0)
       (initial_state "/tmp/root")).
Proof.
  intros fs. split_and!.
  - eexists. vm_compute. split_and!; reflexivity.
  - eexists. split; [vm_compute; reflexivity|].
    destruct (walker_failures_are_not_fatal (fun _ => false) tester false)
      as (_ & _ & _ & _ & _ & _ & Hexit & _).
    apply (Hexit fs (StackBuf 0) (initial_state "/tmp/root")).
    vm_compute. reflexivity.
  - apply (proj1 (walker_failures_are_not_fatal always_served tester false));
      reflexivity.
  - destruct (walker_failures_are_not_fatal always_served tester false)
      as (_ & _ & _ & _ & _ & _ & _ & _ & Hwell).
    apply (Hwell fs (StackBuf 0) (initial_state "/tmp/root")).
    split_and!.
    + reflexivity.
    + apply initial_state_wf.
    + exists 0%nat, "/tmp/root". split_and!; [reflexivity|reflexivity|].
      vm_compute. discriminate.
    + intros []; vm_compute; reflexivity.
Defined.

(** C9, as the specification states it: an append to a full bucket
    grows its capacity by more than one element. *)
Lemma growth_is_not_amortized :
  ~ (forall alloc_ok b p sb st st',
        entries_wf (get_entries b st) ->
        idx (get_entries b st) = len (get_entries b st) ->
        record_access alloc_ok b p sb st = Done st' ->
        len (get_entries b st) + 1 < len (get_entries b st')).
Proof.
  intros H.
  specialize (H always_served Writable (StackBuf 0) file_0666
                (initial_state "/tmp/root")
                ltac:(match eval vm_compute in
                          (record_access always_served Writable (StackBuf 0)
                             file_0666 (initial_state "/tmp/root")) with
                      | Done ?s => exact s
                      end)
                (initial_state_wf "/tmp/root" Writable) eq_refl eq_refl).
  vm_compute in H. discriminate H.
Qed.

(** C9, amended. An append to a bucket whose count has reached its
    capacity grows the capacity by exactly one element, and leaves the
    bucket full again; an append to a bucket with room leaves the
    capacity as it is. *)
Theorem record_access_grows_by_one (alloc_ok : nat -> bool) (b : bucket)
    (p : ptr) (sb : stat) (st st' : state) :
  entries_wf (get_entries b st) ->
  record_access alloc_ok b p sb st = Done st' ->
  (idx (get_entries b st) = len (get_entries b st) ->
   len (get_entries b st') = len (get_entries b st) + 1 /\
   idx (get_entries b st') = len (get_entries b st') /\
   length (head (get_entries b st'))
   = S (length (head (get_entries b st)))) /\
  (idx (get_entries b st) < len (get_entries b st) ->
   len (get_entries b st') = len (get_entries b st)).
Proof.
  intros Hwf Hdone.
  destruct (record_access_done alloc_ok b p sb st st' Hwf Hdone)
    as (s & _ & Hidx & Hlen & _ & Hwf' & _).
  destruct Hwf as (_ & _ & Hblk). destruct Hwf' as (_ & _ & Hblk').
  split; intros H.
  - rewrite H, Z.eqb_refl in Hlen. lia.
  - destruct (Z.eqb_spec (idx (get_entries b st)) (len (get_entries b st)));
      [lia|exact Hlen].
Qed.

Lemma record_access_grows_by_one_witness :
  exists st',
    record_access always_served Writable (StackBuf 0) file_0666
      (initial_state "/tmp/root") = Done st' /\
    len (g_writable st') = 1.
Proof.
  eexists. split; [vm_compute; reflexivity|].
  apply (record_access_grows_by_one always_served Writable (StackBuf 0)
           file_0666 (initial_state "/tmp/root")).
  - vm_compute. intuition discriminate.
  - vm_compute. reflexivity.
  - reflexivity.
Defined.

(** C10. The count of a bucket never exceeds its capacity. An append
    that returns, the allocator having served it, puts the record at the
    old count, adds one to the count, and stores a copy of the metadata
    and a fresh copy of the path: no later write to a path buffer
    changes it, and the other records, the other buckets and the strings
    already copied are as before. A walk keeps all of this: the path of
    no record points into a path buffer, and every record made before
    the walk is where it was after it, with the same path string. *)
Theorem record_access_append (alloc_ok : nat -> bool) (id : identity)
    (extended : bool) :
  (forall root, state_wf (initial_state root)) /\
  (forall b p sb st st',
      entries_wf (get_entries b st) ->
      record_access alloc_ok b p sb st = Done st' ->
      (forall n, (brk st <= n < brk st')%nat -> alloc_ok n = true) ->
      exists s,
        deref st p = Some s /\
        entries_wf (get_entries b st') /\
        idx (get_entries b st') = idx (get_entries b st) + 1 /\
        recorded b st' (Z.to_nat (idx (get_entries b st)))
        = Some (mk_entry (HeapStr (length (heap st))) sb) /\
        heap st !! length (heap st) = None /\
        (forall stk,
            deref (set_stack stk st') (HeapStr (length (heap st))) = Some s) /\
        (forall b' i,
            ~ (b' = b /\ i = Z.to_nat (idx (get_entries b st))) ->
            recorded b' st' i = recorded b' st i) /\
        (forall k s0, heap st !! k = Some s0 -> heap st' !! k = Some s0)) /\
  (forall fs dir st st',
      ends (scan_directory alloc_ok id extended fs dir st) st' ->
      keeps st st') /\
  (forall root, paths_on_heap (initial_state root)) /\
  (forall fs dir st st',
      state_wf st -> paths_on_heap st ->
      ends (scan_directory alloc_ok id extended fs dir st) st' ->
      paths_on_heap st' /\
      forall b i e,
        recorded b st i = Some e ->
        recorded b st' i = Some e /\
        deref st' (path e) = deref st (path e)).
Proof.
  split_and!.
  - apply initial_state_wf.
  - intros b p sb st st' Hwf Hdone Hserved.
    destruct (record_access_done alloc_ok b p sb st st' Hwf Hdone)
      as (s & Hs & Hidx & _ & _ & Hwf' & _ & _ & Hheap & Hbrk & _).
    pose proof (record_access_recorded alloc_ok b p sb st st' Hwf Hdone)
      as Hrec. cbn zeta in Hrec.
    rewrite (Hserved _) in Hheap, Hrec
      by (rewrite Hbrk; destruct (_ =? _); lia).
    exists s. split_and!; try assumption.
    + rewrite Hrec. now rewrite decide_True.
    + apply lookup_ge_None. lia.
    + intros stk. simpl. rewrite Hheap. apply list_lookup_middle. reflexivity.
    + intros b' i Hne. rewrite Hrec. now rewrite decide_False.
    + intros k s0 Hk. rewrite Hheap. now apply lookup_app_l_Some.
  - intros fs dir st st'. apply scan_directory_keeps.
  - intros root. apply initial_state_all_recorded.
  - intros fs dir st st' Hwf Hheap Hends.
    destruct (scan_directory_keeps alloc_ok id extended fs dir st st' Hends
                Hwf) as (_ & Hrec & Hstr).
    split.
    + eapply scan_directory_paths_on_heap; eassumption.
    + intros b i e He. split; [now apply Hrec|].
      destruct (Hheap b i e He) as [->|(k & -> & [s Hs])]; [reflexivity|].
      simpl. rewrite Hs. now apply Hstr.
Qed.

(** An append, and then two scans in a row, as [main] runs them over
    two roots: the record of the first scan is where it was after the
    second, with the same path. *)
Lemma record_access_append_witness :
  (exists st',
      record_access always_served Writable (StackBuf 0) file_0666
        (initial_state "/tmp/root/b") = Done st' /\
      recorded Writable st' 0 = Some (mk_entry (HeapStr 0) file_0666) /\
      deref (set_stack ["/tmp/root/c"] st') (HeapStr 0)
      = Some "/tmp/root/b") /\
  (exists st1 st2,
      scan_directory always_served tester false
        (Node (Some dir_0700) (Some [("b", Node (Some file_0666) None)]))
        (StackBuf 0) (initial_state "/tmp/root") = Done st1 /\
      scan_directory always_served tester false
        (Node (Some dir_0700) (Some [("c", Node (Some file_0666) None)]))
        (StackBuf 0) (set_stack ["/var/tmp"] st1) = Done st2 /\
      recorded Writable st2 0 = Some (mk_entry (HeapStr 0) file_0666) /\
      deref st2 (HeapStr 0) = Some "/tmp/root/b").
Proof.
  destruct (record_access_append always_served tester false)
    as (Hinit & Happend & Hkeeps & Hheap0 & Hwalk).
  split.
  - eexists. split; [vm_compute; reflexivity|].
    destruct (Happend Writable (StackBuf 0) file_0666
                (initial_state "/tmp/root/b") _
                (Hinit "/tmp/root/b" Writable) eq_refl (fun n _ => eq_refl))
      as (s & Hs & _ & _ & Hrec & _ & Hstk & _).
    injection Hs as <-. split; [exact Hrec|apply Hstk].
  - eexists. eexists.
    split; [vm_compute; reflexivity|].
    split; [vm_compute; reflexivity|].
    set (fs1 := Node (Some dir_0700)
                  (Some [("b", Node (Some file_0666) None)])).
    set (fs2 := Node (Some dir_0700)
                  (Some [("c", Node (Some file_0666) None)])).
    pose (st1 := match scan_directory always_served tester false fs1
                         (StackBuf 0) (initial_state "/tmp/root") with
                 | Done s => s
                 | _ => initial_state "/tmp/root"
                 end).
    assert (ends (scan_directory always_served tester false fs1 (StackBuf 0)
                    (initial_state "/tmp/root")) st1) as Hends1
      by (left; vm_compute; reflexivity).
    assert (state_wf st1) as Hwf1
      by apply (Hkeeps _ _ _ _ Hends1 (Hinit "/tmp/root")).
    assert (paths_on_heap st1) as Hheap1
      by apply (Hwalk _ _ _ _ (Hinit "/tmp/root") (Hheap0 "/tmp/root")
                  Hends1).
    assert (state_wf (set_stack ["/var/tmp"] st1)) as Hwf1'
      by (intros b; rewrite get_entries_set_stack; apply Hwf1).
    assert (paths_on_heap (set_stack ["/var/tmp"] st1)) as Hheap1'
      by (intros b i e; apply (Hheap1 b i e)).
    destruct (Hwalk fs2 (StackBuf 0) (set_stack ["/var/tmp"] st1) _
                Hwf1' Hheap1' (or_introl eq_refl)) as (_ & Hsame).
    destruct (Hsame Writable 0%nat (mk_entry (HeapStr 0) file_0666) eq_refl)
      as (Hrec & Hderef).
    split; [exact Hrec|exact Hderef].
Defined.

(** ** The walk as a function of the file system *)

Lemma found_in_app b F G : found_in b (F ++ G) = found_in b F ++ found_in b G.
Proof. unfold found_in. now rewrite filter_app, map_app. Qed.

Lemma found_in_nil b : found_in b [] = [].
Proof. reflexivity. Qed.

Lemma findings_unfold id extended fs d :
  findings id extended fs d =
  match opendir fs with
  | None => []
  | Some entries =>
      flat_map (found_entry id extended (findings id extended) d) entries
  end.
Proof. destruct fs as [r [entries|]]; reflexivity. Qed.

Lemma recorded_cell b st i e :
  recorded b st i = Some e <->
  Z.of_nat i < idx (get_entries b st) /\
  head (get_entries b st) !! i = Some (Some e).
Proof.
  unfold recorded.
  destruct (Z.ltb_spec (Z.of_nat i) (idx (get_entries b st))) as [Hlt|Hge].
  - destruct (head (get_entries b st) !! i) as [[e0|]|]; simpl;
      split; try (intros [? ?]); try discriminate; try congruence; auto.
    intros [= ->]. auto.
  - split; [discriminate|lia].
Qed.

(** The strings that the records point to do not change when the heap
    only grows. *)
Lemma view_mono st st' cells :
  (forall e, In (Some e) cells -> on_heap st e) ->
  (forall k s, heap st !! k = Some s -> heap st' !! k = Some s) ->
  map (view st') cells = map (view st) cells.
Proof.
  intros Hon Hheap. apply map_ext_in. intros [e|] Hin; [|reflexivity].
  simpl. f_equal. f_equal.
  destruct (Hon e Hin) as [->|(k & -> & [s Hs])]; [reflexivity|].
  simpl. rewrite Hs. now apply Hheap.
Qed.

Lemma cells_on_heap b st :
  paths_on_heap st ->
  forall e,
    In (Some e)
      (take (Z.to_nat (idx (get_entries b st))) (head (get_entries b st))) ->
    on_heap st e.
Proof.
  intros Hon e Hin. apply list_elem_of_In, list_elem_of_lookup in Hin.
  destruct Hin as [i Hi]. apply lookup_take_Some in Hi as [Hi Hlt].
  apply (Hon b i e). apply recorded_cell. split; [lia|exact Hi].
Qed.

Lemma contents_mono b st st' :
  paths_on_heap st ->
  get_entries b st' = get_entries b st ->
  (forall k s, heap st !! k = Some s -> heap st' !! k = Some s) ->
  contents b st' = contents b st.
Proof.
  intros Hon Hb Hheap. unfold contents. rewrite Hb.
  apply view_mono; [|exact Hheap]. now apply cells_on_heap.
Qed.

Section Findings.

Variable alloc_ok : nat -> bool.
Variable id : identity.
Variable RECORD_LESS_INTERESTING : bool.

(** The allocator serves every request. *)
Hypothesis served : forall n, alloc_ok n = true.

Lemma record_access_contents b p sb st st' :
  state_wf st -> paths_on_heap st ->
  record_access alloc_ok b p sb st = Done st' ->
  exists s,
    deref st p = Some s /\
    forall b',
      contents b' st' =
      contents b' st ++ (if decide (b' = b) then [Some (Some s, sb)] else []).
Proof.
  intros Hwf Hon Hdone.
  destruct (record_access_done alloc_ok b p sb st st' (Hwf b) Hdone)
    as (s & Hs & Hidx & _ & _ & _ & Hnew & Hold & Hheap & _).
  destruct (record_access_frame alloc_ok b p sb st st' (or_introl Hdone))
    as (Hother & _).
  rewrite served in Hnew, Hheap.
  assert (forall k s0, heap st !! k = Some s0 -> heap st' !! k = Some s0)
    as Hmono.
  { intros k s0 Hk. rewrite Hheap. now apply lookup_app_l_Some. }
  exists s. split; [exact Hs|]. intros b'.
  destruct (decide (b' = b)) as [->|Hne].
  2:{ rewrite app_nil_r. apply contents_mono; auto. }
  destruct (Hwf b) as (Hi & _ & Hblk).
  unfold contents. rewrite Hidx.
  replace (Z.to_nat (idx (get_entries b st) + 1))
    with (S (Z.to_nat (idx (get_entries b st)))) by lia.
  rewrite (take_S_r _ _ _ Hnew), map_app. cbn [map view path statbuf deref].
  assert (heap st' !! length (heap st) = Some s) as ->.
  { rewrite Hheap. now apply list_lookup_middle. }
  f_equal.
  assert (take (Z.to_nat (idx (get_entries b st))) (head (get_entries b st'))
          = take (Z.to_nat (idx (get_entries b st))) (head (get_entries b st)))
    as ->.
  { apply list_eq. intros i. rewrite !lookup_take.
    case_decide as Hlt; [|reflexivity]. apply Hold; lia. }
  apply view_mono; [|exact Hmono]. now apply cells_on_heap.
Qed.

Lemma found_in_one b b0 s sb :
  found_in b [(b0, (s, sb))]
  = if decide (b = b0) then [Some (Some s, sb)] else [].
Proof.
  unfold found_in. rewrite filter_cons, filter_nil. cbn [fst].
  destruct (decide (b0 = b)) as [->|Hne].
  - now rewrite decide_True.
  - rewrite decide_False by congruence. reflexivity.
Qed.

Lemma record_access_level_on_heap p sb st st' :
  state_wf st -> paths_on_heap st ->
  record_access_level alloc_ok id RECORD_LESS_INTERESTING p sb st = Done st' ->
  paths_on_heap st'.
Proof.
  intros Hwf Hon Hdone.
  destruct (record_access_level_cases alloc_ok id RECORD_LESS_INTERESTING
              p sb st) as [(b & _ & Hb)|[_ Hb]]; rewrite Hb in Hdone.
  2:{ now injection Hdone as <-. }
  destruct (record_access_done alloc_ok b p sb st st' (Hwf b) Hdone)
    as (s & _ & _ & _ & _ & _ & _ & _ & Hheap & _).
  rewrite served in Hheap.
  intros b' i e Hrec.
  rewrite (record_access_recorded alloc_ok b p sb st st' (Hwf b) Hdone)
    in Hrec.
  rewrite served in Hrec. case_decide.
  - injection Hrec as <-. right. eexists. split; [reflexivity|].
    rewrite Hheap. exists s. now apply list_lookup_middle.
  - destruct (Hon b' i e Hrec) as [Hnull|(k & Hk & [s0 Hs0])]; [now left|].
    right. exists k. split; [exact Hk|]. exists s0. rewrite Hheap.
    now apply lookup_app_l_Some.
Qed.

Lemma record_access_level_found p s sb st st' :
  state_wf st -> paths_on_heap st ->
  deref st p = Some s ->
  record_access_level alloc_ok id RECORD_LESS_INTERESTING p sb st = Done st' ->
  stack st' = stack st /\
  found_ok st st'
    match first_match id RECORD_LESS_INTERESTING sb with
    | Some b => [(b, (s, sb))]
    | None => []
    end.
Proof.
  intros Hwf Hon Hs Hdone.
  pose proof (record_access_level_on_heap p sb st st' Hwf Hon Hdone) as Hon'.
  pose proof (record_access_level_keeps alloc_ok id RECORD_LESS_INTERESTING
                p sb st st' (or_introl Hdone) Hwf) as (Hwf' & _).
  destruct (record_access_level_cases alloc_ok id RECORD_LESS_INTERESTING
              p sb st) as [(b & Hfirst & Hb)|[Hfirst Hb]];
    rewrite Hb in Hdone; rewrite Hfirst.
  - destruct (record_access_frame alloc_ok b p sb st st' (or_introl Hdone))
      as (_ & Hstack & _).
    split; [exact Hstack|]. split_and!; [exact Hwf'|exact Hon'|].
    destruct (record_access_contents b p sb st st' Hwf Hon Hdone)
      as (s0 & Hs0 & Hc).
    assert (s0 = s) as -> by congruence.
    intros b'. now rewrite Hc, found_in_one.
  - injection Hdone as <-. split; [reflexivity|].
    split_and!; [exact Hwf|exact Hon|]. intros b'. now rewrite app_nil_r.
Qed.

Lemma found_ok_same st st' :
  state_wf st -> paths_on_heap st ->
  (forall b, get_entries b st' = get_entries b st) ->
  heap st' = heap st ->
  found_ok st st' [].
Proof.
  intros Hwf Hon Hb Hheap. split_and!.
  - intros b. rewrite Hb. apply Hwf.
  - intros b i e Hrec. unfold recorded in Hrec. rewrite Hb in Hrec.
    destruct (Hon b i e Hrec) as [Hnull|(k & Hk & Hsome)]; [now left|].
    right. exists k. now rewrite Hheap.
  - intros b. rewrite found_in_nil, app_nil_r.
    apply contents_mono; [exact Hon|apply Hb|]. intros k s. now rewrite Hheap.
Qed.

Lemma found_ok_trans st1 st2 st3 F G :
  found_ok st1 st2 F -> found_ok st2 st3 G -> found_ok st1 st3 (F ++ G).
Proof.
  intros (_ & _ & H12) (Hwf & Hon & H23). split_and!; [exact Hwf|exact Hon|].
  intros b. now rewrite H23, H12, found_in_app, app_assoc.
Qed.

Lemma scan_entries_found scan below f d base entries :
  Forall (fun pe => scans_found scan below (snd pe)) entries ->
  base !! f = Some d ->
  forall st st' buf,
    state_wf st -> paths_on_heap st ->
    stack st = base ++ [buf] ->
    scan_entries alloc_ok id RECORD_LESS_INTERESTING scan
      (StackBuf f) (length base) entries st = Done st' ->
    (exists buf', stack st' = base ++ [buf']) /\
    found_ok st st'
      (flat_map (found_entry id RECORD_LESS_INTERESTING below d) entries).
Proof.
  intros Hall Hf.
  induction Hall as [|[d_name child] rest Hchild _ IH];
    intros st st' buf Hwf Hon Hstack Hdone.
  { injection Hdone as <-. split; [eauto|].
    apply found_ok_same; auto. }
  cbn [scan_entries] in Hdone. cbn [flat_map]. cbn [snd] in Hchild.
  unfold scan_entry in Hdone. unfold found_entry at 1. cbn [fst snd] in *.
  (* the rest of the loop, after a turn that has found [F] *)
  assert (forall st1 buf1 F,
             stack st1 = base ++ [buf1] -> found_ok st st1 F ->
             scan_entries alloc_ok id RECORD_LESS_INTERESTING scan
               (StackBuf f) (length base) rest st1 = Done st' ->
             (exists buf', stack st' = base ++ [buf']) /\
             found_ok st st'
               (F ++ flat_map (found_entry id RECORD_LESS_INTERESTING below d)
                       rest)) as Hgo.
  { intros st1 buf1 F Hstack1 Hok1 Hrest.
    destruct (IH st1 st' buf1 (proj1 Hok1) (proj1 (proj2 Hok1)) Hstack1 Hrest)
      as [Hbuf Hok2].
    split; [exact Hbuf|]. eapply found_ok_trans; eassumption. }
  destruct (is_dot_or_dotdot d_name).
  { refine (Hgo st buf [] Hstack _ Hdone). now apply found_ok_same. }
  unfold process_entry in Hdone.
  assert (deref st (StackBuf f) = Some d) as Hd.
  { simpl. rewrite Hstack. now apply lookup_app_l_Some. }
  rewrite Hd in Hdone.
  assert (stack st !! length base = Some buf) as Hbuf.
  { rewrite Hstack. now apply list_lookup_middle. }
  rewrite Hbuf in Hdone.
  assert (forall x, <[length base := x]> (stack st) = base ++ [x]) as Hins.
  { intros x. rewrite Hstack.
    replace (length base) with (length base + 0)%nat at 1 by lia.
    now rewrite insert_app_r. }
  destruct (build_path d d_name) as [| |p] eqn:Hbuild; [|discriminate|].
  { (* name too long *)
    refine (Hgo _ (my_stpcpy buf d) [] _ _ Hdone).
    - simpl. apply Hins.
    - now apply found_ok_same. }
  rewrite Hins in Hdone.
  set (st2 := set_stack (base ++ [p]) st) in *.
  assert (found_ok st st2 []) as Hok2 by (now apply found_ok_same).
  unfold visit in Hdone. destruct (lstat child) as [sb|].
  2:{ refine (Hgo _ p [] _ _ Hdone); [reflexivity|].
      now apply found_ok_same. }
  destruct (S_ISLNK (st_mode sb)).
  { refine (Hgo st2 p [] _ Hok2 Hdone). reflexivity. }
  destruct (record_access_level _ _ _ _ _ _) as [st3| |] eqn:Hrec;
    try discriminate.
  destruct (record_access_level_found (StackBuf (length base)) p sb st2 st3
              (proj1 Hok2) (proj1 (proj2 Hok2)))
    as [Hstack3 Hok3]; [|exact Hrec|].
  { simpl. now apply list_lookup_middle. }
  assert (found_ok st st3
            match first_match id RECORD_LESS_INTERESTING sb with
            | Some b => [(b, (p, sb))]
            | None => []
            end) as Hok3'.
  { apply (found_ok_trans st st2 st3 [] _ Hok2 Hok3). }
  destruct (S_ISDIR (st_mode sb) && is_executable id sb).
  2:{ rewrite app_nil_r. exact (Hgo _ p _ Hstack3 Hok3' Hdone). }
  destruct (scan child (StackBuf (length base)) st3) as [st4| |] eqn:Hscan;
    try discriminate.
  destruct (Hchild (length base) p st3 st4 (proj1 Hok3) (proj1 (proj2 Hok3)))
    as [Hstack4 Hok4]; [|exact Hscan|].
  { rewrite Hstack3. simpl. now apply list_lookup_middle. }
  refine (Hgo st4 p _ _ _ Hdone).
  - now rewrite Hstack4, Hstack3.
  - eapply found_ok_trans; eassumption.
Qed.

Lemma scan_directory_found fs :
  scans_found (scan_directory alloc_ok id RECORD_LESS_INTERESTING)
    (findings id RECORD_LESS_INTERESTING) fs.
Proof.
  induction fs as [r|r entries IH] using node_ind;
    intros f d st st' Hwf Hon Hd Hdone.
  - rewrite (scan_directory_opendir_fails alloc_ok id
               RECORD_LESS_INTERESTING (Node r None) (StackBuf f) st d
               eq_refl Hd) in Hdone.
    injection Hdone as <-. split; [reflexivity|].
    apply found_ok_same; auto; intros []; reflexivity.
  - rewrite scan_directory_unfold in Hdone. cbn [deref opendir] in Hdone.
    rewrite Hd in Hdone.
    destruct (scan_entries _ _ _ _ _ _ _ _) as [st1| |] eqn:Hloop;
      try discriminate.
    injection Hdone as <-.
    destruct (scan_entries_found
                (scan_directory alloc_ok id RECORD_LESS_INTERESTING)
                (findings id RECORD_LESS_INTERESTING)
                f d (stack st) entries IH Hd (enter_frame st) st1 "")
      as [[buf' Hstack1] Hok1]; try exact Hloop; try reflexivity.
    { intros b. unfold enter_frame. rewrite get_entries_set_stack. apply Hwf. }
    { intros b i e Hrec. unfold recorded in Hrec.
      unfold enter_frame in Hrec. rewrite get_entries_set_stack in Hrec.
      exact (Hon b i e Hrec). }
    split.
    + cbn [stack set_stack]. rewrite Hstack1. apply take_app_length.
    + rewrite findings_unfold. cbn [opendir].
      change (flat_map ?g entries) with ([] ++ flat_map g entries).
      eapply (found_ok_trans st (enter_frame st)).
      * apply found_ok_same; auto; intros []; reflexivity.
      * rewrite <- (app_nil_r (flat_map _ _)).
        eapply found_ok_trans; [exact Hok1|].
        destruct Hok1 as (Hwf1 & Hon1 & _).
        apply found_ok_same; auto; intros []; reflexivity.
Qed.

End Findings.

Lemma scan_directory_total (alloc_ok : nat -> bool)
    (id : identity) (extended : bool) (fs : node) (f : nat) (d : string)
    (st : state) :
  (forall n, alloc_ok n = true) ->
  names_fit fs = true ->
  state_wf st -> paths_on_heap st ->
  stack st !! f = Some d -> strlen d <= PATH_MAX + 1 ->
  (forall b, idx (get_entries b st) + Z.of_nat (objects fs) < 2 ^ 32) ->
  exists st',
    scan_directory alloc_ok id extended fs (StackBuf f) st = Done st' /\
    stack st' = stack st /\
    found_ok st st' (findings id extended fs d) /\
    forall b,
      idx (get_entries b st') <= idx (get_entries b st) + Z.of_nat (objects fs).
Proof.
  intros Hserved Hnames Hwf Hon Hd Hlen Hroom.
  assert (scan_pre fs (StackBuf f) st) as Hpre.
  { split_and!; eauto. }
  pose proof (scan_directory_goes_well alloc_ok id extended fs (StackBuf f)
                st Hpre) as Hwell.
  destruct (scan_directory alloc_ok id extended fs (StackBuf f) st)
    as [st'|st'|] eqn:Hscan; [|exfalso|contradiction].
  - exists st'. split; [reflexivity|].
    destruct (scan_directory_found alloc_ok id extended Hserved fs f d st st'
                Hwf Hon Hd Hscan) as (Hstack & Hfound).
    destruct Hwell as (_ & _ & Hidx). auto.
  - apply scan_directory_exit in Hscan as (n & _ & Hno & _).
    rewrite Hserved in Hno. discriminate.
Qed.

(** X1. When memory does not run out, a scan of a directory whose names
    fit a [struct dirent], from a state with room in the buckets,
    returns: it leaves the stack as it was, and has appended to every
    bucket, after what was there and in the order of the walk, the
    findings for that bucket, each with its own copy of the path. *)
Theorem scan_directory_records_findings (alloc_ok : nat -> bool)
    (id : identity) (extended : bool) (fs : node) (f : nat) (d : string)
    (st : state) :
  (forall n, alloc_ok n = true) ->
  names_fit fs = true ->
  state_wf st -> paths_on_heap st ->
  stack st !! f = Some d -> strlen d <= PATH_MAX + 1 ->
  (forall b, idx (get_entries b st) + Z.of_nat (objects fs) < 2 ^ 32) ->
  exists st',
    scan_directory alloc_ok id extended fs (StackBuf f) st = Done st' /\
    stack st' = stack st /\
    state_wf st' /\ paths_on_heap st' /\
    forall b,
      contents b st' = contents b st
                       ++ found_in b (findings id extended fs d).
Proof.
  intros Hserved Hnames Hwf Hon Hd Hlen Hroom.
  destruct (scan_directory_total alloc_ok id extended fs f d st Hserved
              Hnames Hwf Hon Hd Hlen Hroom)
    as (st' & Hscan & Hstack & (Hwf' & Hon' & Hc) & _).
  exists st'. auto.
Qed.

Lemma scan_directory_records_findings_witness :
  exists st',
    scan_directory always_served tester false
      (Node (Some dir_0700)
         (Some [("a", Node (Some file_4755) None);
                ("d", Node (Some (mk_stat (S_IFDIR + 72) 1000 1000))
                        (Some [("secret", Node (Some file_0666) None)]))]))
      (StackBuf 0) (initial_state "/tmp/root") = Done st' /\
    contents Suid st' = [Some (Some "/tmp/root/a", file_4755)] /\
    contents Writable st' = [Some (Some "/tmp/root/d/secret", file_0666)].
Proof.
  destruct (scan_directory_records_findings always_served tester false
              (Node (Some dir_0700)
                 (Some [("a", Node (Some file_4755) None);
                        ("d", Node (Some (mk_stat (S_IFDIR + 72) 1000 1000))
                                (Some [("secret",
                                        Node (Some file_0666) None)]))]))
              0 "/tmp/root" (initial_state "/tmp/root"))
    as (st' & Hscan & _ & _ & _ & Hc).
  - reflexivity.
  - reflexivity.
  - apply initial_state_wf.
  - apply initial_state_all_recorded.
  - reflexivity.
  - vm_compute. discriminate.
  - intros []; vm_compute; reflexivity.
  - exists st'. split; [exact Hscan|]. split; apply Hc.
Defined.

(** ** Which objects a walk records *)

Section Reached.

Variable id : identity.
Variable extended : bool.

Lemma found_entry_In below d pe b p sb :
  In (b, (p, sb)) (found_entry id extended below d pe) <->
  is_dot_or_dotdot (fst pe) = false /\
  exists p0 sb0,
    build_path d (fst pe) = PathOk p0 /\ lstat (snd pe) = Some sb0 /\
    S_ISLNK (st_mode sb0) = false /\
    ((first_match id extended sb0 = Some b /\ p = p0 /\ sb = sb0) \/
     (S_ISDIR (st_mode sb0) && is_executable id sb0 = true /\
      In (b, (p, sb)) (below (snd pe) p0))).
Proof.
  unfold found_entry.
  destruct (is_dot_or_dotdot (fst pe)); [split; [intros []|intros [[=] _]]|].
  destruct (build_path d (fst pe)) as [| |p0];
    try (split; [intros []|intros (_ & ? & ? & [=] & _)]).
  destruct (lstat (snd pe)) as [sb0|];
    [|split; [intros []|intros (_ & ? & ? & _ & [=] & _)]].
  destruct (S_ISLNK (st_mode sb0)) eqn:Hlnk.
  { split; [intros []|]. intros (_ & ? & ? & [= <-] & [= <-] & Hno & _).
    congruence. }
  rewrite in_app_iff. split.
  - intros H. split; [reflexivity|]. exists p0, sb0.
    split; [reflexivity|]. split; [reflexivity|]. split; [exact Hlnk|].
    destruct H as [H|H].
    + left. destruct (first_match id extended sb0) as [b0|]; [|destruct H].
      destruct H as [[= -> -> ->]|[]]. auto.
    + right. destruct (S_ISDIR (st_mode sb0) && is_executable id sb0);
        [auto|destruct H].
  - intros (_ & p1 & sb1 & [= <-] & [= <-] & _ & [(Hf & -> & ->)|(He & Hin)]).
    + left. rewrite Hf. now left.
    + right. now rewrite He.
Qed.

Lemma findings_entry fs d entries d_name child p sb :
  opendir fs = Some entries -> In (d_name, child) entries ->
  is_dot_or_dotdot d_name = false ->
  build_path d d_name = PathOk p ->
  lstat child = Some sb -> S_ISLNK (st_mode sb) = false ->
  (forall b, first_match id extended sb = Some b ->
             In (b, (p, sb)) (findings id extended fs d)) /\
  (S_ISDIR (st_mode sb) && is_executable id sb = true ->
   incl (findings id extended child p) (findings id extended fs d)).
Proof.
  intros Hopen Hin Hdot Hp Hl Hlnk. rewrite findings_unfold, Hopen.
  split.
  - intros b Hb. apply in_flat_map. exists (d_name, child).
    split; [exact Hin|]. apply found_entry_In. split; [exact Hdot|].
    exists p, sb. cbn [fst snd]. split_and!; auto.
  - intros He [b [q sb']] Hr. apply in_flat_map. exists (d_name, child).
    split; [exact Hin|]. apply found_entry_In. split; [exact Hdot|].
    exists p, sb. cbn [fst snd]. split_and!; auto.
Qed.

Lemma reached_findings fs d dir q sb :
  reached id fs d dir q ->
  lstat dir = Some sb -> S_ISLNK (st_mode sb) = false ->
  (forall b, first_match id extended sb = Some b ->
             In (b, (q, sb)) (findings id extended fs d)) /\
  (S_ISDIR (st_mode sb) && is_executable id sb = true ->
   incl (findings id extended dir q) (findings id extended fs d)).
Proof.
  intros Hr. revert sb.
  induction Hr as [entries d_name child p Hopen Hin Hdot Hp
                  |dir q sb0 entries d_name child p Hr IH Hl0 Hlnk0 He0
                     Hopen Hin Hdot Hp];
    intros sb Hl Hlnk.
  - now apply (findings_entry fs d entries d_name child p sb).
  - destruct (IH sb0 Hl0 Hlnk0) as [_ Hincl]. specialize (Hincl He0).
    destruct (findings_entry dir q entries d_name child p sb
                Hopen Hin Hdot Hp Hl Hlnk) as [Hone Hsub].
    split.
    + intros b Hb. apply Hincl. now apply Hone.
    + intros He x Hx. apply Hincl. now apply Hsub.
Qed.

Lemma reached_trans fs d dir q sb child p :
  reached id fs d dir q ->
  lstat dir = Some sb -> S_ISLNK (st_mode sb) = false ->
  S_ISDIR (st_mode sb) && is_executable id sb = true ->
  reached id dir q child p ->
  reached id fs d child p.
Proof.
  intros Hr Hl Hlnk He Hc.
  induction Hc as [entries d_name child p Hopen Hin Hdot Hp
                  |dir1 q1 sb1 entries d_name child p Hc IH Hl1 Hlnk1 He1
                     Hopen Hin Hdot Hp].
  - eapply reached_below; eassumption.
  - eapply reached_below; eassumption.
Qed.

Lemma findings_reached fs :
  forall d b p sb,
    In (b, (p, sb)) (findings id extended fs d) ->
    exists child,
      reached id fs d child p /\ lstat child = Some sb /\
      S_ISLNK (st_mode sb) = false /\
      first_match id extended sb = Some b.
Proof.
  induction fs as [r|r entries IH] using node_ind; intros d b p sb Hin;
    [destruct Hin|].
  cbn [findings] in Hin. apply in_flat_map in Hin as ([d_name child] & Hpe & Hin).
  apply found_entry_In in Hin as (Hdot & p0 & sb0 & Hp & Hl & Hlnk & Hcase).
  cbn [fst snd] in *.
  assert (reached id (Node r (Some entries)) d child p0) as Hr.
  { eapply reached_entry; [reflexivity|exact Hpe|exact Hdot|exact Hp]. }
  destruct Hcase as [(Hf & -> & ->)|(He & Hbelow)].
  - exists child. auto.
  - rewrite Forall_forall in IH.
    destruct (IH (d_name, child) (proj2 (list_elem_of_In _ _) Hpe)
                p0 b p sb Hbelow)
      as (c & Hc & Hlc & Hlnkc & Hfc).
    exists c. split_and!; auto.
    eapply reached_trans; eassumption.
Qed.

Lemma findings_iff fs d b p sb :
  In (b, (p, sb)) (findings id extended fs d) <->
  exists child,
    reached id fs d child p /\ lstat child = Some sb /\
    S_ISLNK (st_mode sb) = false /\
    first_match id extended sb = Some b.
Proof.
  split; [apply findings_reached|].
  intros (child & Hr & Hl & Hlnk & Hf).
  destruct (reached_findings fs d child p sb Hr Hl Hlnk) as [H _].
  now apply H.
Qed.

Lemma found_in_In b F p sb :
  In (Some (Some p, sb)) (found_in b F) <-> In (b, (p, sb)) F.
Proof.
  unfold found_in. rewrite in_map_iff. split.
  - intros ([b0 [p0 sb0]] & [= -> ->] & Hin).
    apply list_elem_of_In, list_elem_of_filter in Hin as [Hb Hin].
    cbn [fst] in Hb. subst b0. now apply list_elem_of_In.
  - intros Hin. exists (b, (p, sb)). split; [reflexivity|].
    apply list_elem_of_In, list_elem_of_filter. split; [reflexivity|].
    now apply list_elem_of_In.
Qed.

End Reached.


Lemma build_path_ok (d d_name p : string) :
  build_path d d_name = PathOk p ->
  (p = d +:+ d_name \/ p = d +:+ "/" +:+ d_name) /\ strlen p <= PATH_MAX.
Proof.
  unfold build_path.
  destruct (PATH_MAX + 1 <? strlen d); [discriminate|].
  destruct (wrap64 (PATH_MAX - 1 - strlen d_name) <=? strlen d);
    [discriminate|].
  destruct (Z.ltb_spec (PATH_MAX + 1)
              (strlen (d +:+ (if (0 <? strlen d) && negb (last_is_slash d)
                              then "/" else "") +:+ d_name) + 1));
    [discriminate|].
  intros [= <-]. split; [|lia].
  destruct ((0 <? strlen d) && negb (last_is_slash d)); [now right|now left].
Qed.


(** X2. Under the same conditions, what a scan adds to a bucket is
    exactly the objects that the walk reaches, through the directories
    that the identity can execute, whose [lstat] succeeds, that are no
    symbolic links, and whose first category in the priority chain is
    that bucket. *)
Theorem scan_directory_records_the_reached (alloc_ok : nat -> bool)
    (id : identity) (extended : bool) (fs : node) (f : nat) (d : string)
    (st st' : state) (b : bucket) (p : string) (sb : stat) :
  (forall n, alloc_ok n = true) ->
  state_wf st -> paths_on_heap st ->
  stack st !! f = Some d ->
  scan_directory alloc_ok id extended fs (StackBuf f) st = Done st' ->
  In (Some (Some p, sb)) (drop (length (contents b st)) (contents b st')) <->
  exists child,
    reached id fs d child p /\ lstat child = Some sb /\
    S_ISLNK (st_mode sb) = false /\
    first_match id extended sb = Some b.
Proof.
  intros Hserved Hwf Hon Hd Hscan.
  destruct (scan_directory_found alloc_ok id extended Hserved fs f d st st'
              Hwf Hon Hd Hscan) as (_ & _ & _ & Hc).
  rewrite Hc, drop_app_length, found_in_In. apply findings_iff.
Qed.


Lemma scan_directory_records_the_reached_witness :
  In (Some (Some "/tmp/root/d/secret", file_0666))
    (drop (length (contents Writable (initial_state "/tmp/root")))
       (contents Writable
          (final_state
             (scan_directory always_served tester false sample_tree
                (StackBuf 0) (initial_state "/tmp/root"))))) <->
  exists child,
    reached tester sample_tree "/tmp/root" child "/tmp/root/d/secret" /\
    lstat child = Some file_0666 /\
    S_ISLNK (st_mode file_0666) = false /\
    first_match tester false file_0666 = Some Writable.
Proof.
  apply (scan_directory_records_the_reached always_served tester false
           sample_tree 0 "/tmp/root" (initial_state "/tmp/root")
           (final_state
              (scan_directory always_served tester false sample_tree
                 (StackBuf 0) (initial_state "/tmp/root")))
           Writable "/tmp/root/d/secret" file_0666).
  - reflexivity.
  - apply initial_state_wf.
  - apply initial_state_all_recorded.
  - reflexivity.
  - vm_compute. reflexivity.
Defined.


(** ** The buckets of the extended mode *)

Lemma first_match_plain (id : identity) (sb : stat) (b : bucket) :
  first_match id false sb = Some b -> b <> Readable /\ b <> Executable.
Proof.
  unfold first_match, priority_chain. cbn [app List.find matches].
  destruct (is_setuid id sb); [intros [= <-]; split; discriminate|].
  destruct (is_setgid id sb); [intros [= <-]; split; discriminate|].
  destruct (is_writable id sb); [intros [= <-]; split; discriminate|].
  discriminate.
Qed.

Lemma record_access_level_plain alloc_ok id p sb st st' :
  ends (record_access_level alloc_ok id false p sb st) st' ->
  same_less_interesting st st'.
Proof.
  intros Hends.
  destruct (record_access_level_cases alloc_ok id false p sb st)
    as [(b & Hb & E)|(_ & E)]; rewrite E in Hends.
  - apply first_match_plain in Hb as [Hr He].
    apply record_access_frame in Hends as (Hframe & _).
    split; apply Hframe; congruence.
  - destruct Hends as [[= <-]|[=]]. split; reflexivity.
Qed.

(** X4. Without [RECORD_LESS_INTERESTING] a scan leaves the buckets
    [g_readable] and [g_executable] as they are, whatever the file
    system holds and whether the scan returns or ends in [exit]: only
    the set-uid, set-gid and writable buckets can grow. *)
Theorem plain_scan_leaves_less_interesting (alloc_ok : nat -> bool)
    (id : identity) (fs : node) (dir : ptr) (st st' : state) :
  ends (scan_directory alloc_ok id false fs dir st) st' ->
  get_entries Readable st' = get_entries Readable st /\
  get_entries Executable st' = get_entries Executable st.
Proof.
  intros Hends.
  assert (forall a b c, same_less_interesting a b ->
                        same_less_interesting b c ->
                        same_less_interesting a c) as Htrans.
  { intros a b c [H1 H2] [H3 H4]. split; congruence. }
  pose proof (scan_directory_rel alloc_ok id false
                same_less_interesting same_less_interesting
                (fun st0 => conj eq_refl eq_refl) Htrans Htrans
                (fun d st0 => conj eq_refl eq_refl)
                (fun s st0 => conj (get_entries_set_stack Readable s st0)
                                   (get_entries_set_stack Executable s st0))
                (fun p sb st0 st1 _ Hd =>
                   record_access_level_plain alloc_ok id p sb st0 st1
                     (or_introl Hd))
                (fun p sb st0 st1 _ He =>
                   record_access_level_plain alloc_ok id p sb st0 st1
                     (or_intror He))
                fs dir st) as H.
  destruct Hends as [E|E]; rewrite E in H; exact H.
Qed.

Lemma plain_scan_leaves_less_interesting_witness :
  get_entries Readable
    (final_state (scan_directory always_served tester false sample_tree
                    (StackBuf 0) (initial_state "/tmp/root")))
  = get_entries Readable (initial_state "/tmp/root") /\
  get_entries Executable
    (final_state (scan_directory always_served tester false sample_tree
                    (StackBuf 0) (initial_state "/tmp/root")))
  = get_entries Executable (initial_state "/tmp/root").
Proof.
  apply (plain_scan_leaves_less_interesting always_served tester sample_tree
           (StackBuf 0) (initial_state "/tmp/root")).
  left. vm_compute. reflexivity.
Defined.

(** X5. The bucket that is reported as "only executable" gets a record
    exactly for an object that the identity can execute but neither read
    nor write, and that is neither set-uid nor set-gid; and only in the
    extended mode. *)
Theorem only_executable_is_nothing_else (alloc_ok : nat -> bool)
    (id : identity) (extended : bool) (p : ptr) (sb : stat)
    (st st' : state) :
  state_wf st ->
  record_access_level alloc_ok id extended p sb st = Done st' ->
  idx (get_entries Executable st') = idx (get_entries Executable st) + 1 <->
  extended = true /\ is_executable id sb = true /\
  is_readable id sb = false /\ is_writable id sb = false /\
  Z.testbit (st_mode sb) 11 = false /\ Z.testbit (st_mode sb) 10 = false.
Proof.
  intros Hwf Hdone.
  assert (forall b, record_access alloc_ok b p sb st = Done st' ->
            idx (get_entries Executable st')
            = idx (get_entries Executable st) + 1 <-> b = Executable) as Hrec.
  { intros b Hb. destruct (decide (b = Executable)) as [->|Hne].
    - destruct (record_access_done alloc_ok Executable p sb st st' (Hwf _) Hb)
        as (_ & _ & Hidx & _). cbv zeta in Hidx. tauto.
    - destruct (record_access_frame alloc_ok b p sb st st' (or_introl Hb))
        as (Hframe & _).
      rewrite (Hframe Executable) by congruence. split; [lia|congruence]. }
  unfold record_access_level in Hdone. unfold is_setuid, is_setgid in Hdone.
  change S_ISUID with (2 ^ 11) in Hdone. change S_ISGID with (2 ^ 10) in Hdone.
  rewrite !truthy_mask_testbit in Hdone by lia.
  destruct (is_executable id sb) eqn:Ex; cbn [andb] in Hdone.
  - destruct (Z.testbit (st_mode sb) 11) eqn:B11.
    { rewrite (Hrec _ Hdone). split; [discriminate|]. intuition discriminate. }
    destruct (Z.testbit (st_mode sb) 10) eqn:B10.
    { rewrite (Hrec _ Hdone). split; [discriminate|]. intuition discriminate. }
    destruct (is_writable id sb) eqn:W.
    { rewrite (Hrec _ Hdone). split; [discriminate|]. intuition discriminate. }
    destruct extended; cbn [andb] in Hdone.
    + destruct (is_readable id sb) eqn:R.
      { rewrite (Hrec _ Hdone). split; [discriminate|].
        intuition discriminate. }
      rewrite (Hrec _ Hdone). tauto.
    + injection Hdone as <-. split; [lia|]. intuition discriminate.
  - destruct (is_writable id sb) eqn:W.
    { rewrite (Hrec _ Hdone). split; [discriminate|]. intuition discriminate. }
    destruct extended; cbn [andb] in Hdone.
    + destruct (is_readable id sb) eqn:R.
      { rewrite (Hrec _ Hdone). split; [discriminate|].
        intuition discriminate. }
      injection Hdone as <-. split; [lia|]. intuition discriminate.
    + injection Hdone as <-. split; [lia|]. intuition discriminate.
Qed.

Lemma only_executable_is_nothing_else_witness :
  idx (get_entries Executable
         (final_state
            (record_access_level always_served tester true (StackBuf 0)
               (mk_stat (S_IFREG + 73) 0 0) (initial_state "/bin/x"))))
  = idx (get_entries Executable (initial_state "/bin/x")) + 1 <->
  true = true /\ is_executable tester (mk_stat (S_IFREG + 73) 0 0) = true /\
  is_readable tester (mk_stat (S_IFREG + 73) 0 0) = false /\
  is_writable tester (mk_stat (S_IFREG + 73) 0 0) = false /\
  Z.testbit (st_mode (mk_stat (S_IFREG + 73) 0 0)) 11 = false /\
  Z.testbit (st_mode (mk_stat (S_IFREG + 73) 0 0)) 10 = false.
Proof.
  apply (only_executable_is_nothing_else always_served tester true
           (StackBuf 0) (mk_stat (S_IFREG + 73) 0 0)
           (initial_state "/bin/x")).
  - apply initial_state_wf.
  - vm_compute. reflexivity.
Defined.

(** ** The evaluator is monotone *)




(** ** The length test of the walker *)

(** X7. The test of [scan_directory] for a path that is too long cannot
    see a name of [PATH_MAX] characters or more: the unsigned
    subtraction wraps around, the test passes and the copy of the name
    runs over the buffer. Only the bound on [d_name] keeps the walker
    from this. *)
Theorem build_path_overruns_on_long_names (d d_name : string) :
  0 < strlen d <= PATH_MAX + 1 ->
  PATH_MAX <= strlen d_name < 2 ^ 63 ->
  build_path d d_name = PathOverflow.
Proof.
  intros Hd Hn. unfold build_path.
  destruct (Z.ltb_spec (PATH_MAX + 1) (strlen d)) as [|_]; [reflexivity|].
  assert (wrap64 (PATH_MAX - 1 - strlen d_name)
          = 2 ^ 64 + (PATH_MAX - 1 - strlen d_name)) as ->.
  { unfold wrap64, PATH_MAX in *.
    symmetry. apply Z.mod_unique with (q := -1); lia. }
  destruct (Z.leb_spec (2 ^ 64 + (PATH_MAX - 1 - strlen d_name)) (strlen d))
    as [Hle|_].
  { unfold PATH_MAX in *. lia. }
  rewrite !strlen_app.
  destruct (Z.ltb_spec (PATH_MAX + 1)
              (strlen d
               + (strlen (if (0 <? strlen d) && negb (last_is_slash d)
                          then "/" else "") + strlen d_name) + 1))
    as [|Hge]; [reflexivity|].
  exfalso.
  assert (0 <= strlen (if (0 <? strlen d) && negb (last_is_slash d)
                       then "/" else "")) by (unfold strlen; lia).
  unfold PATH_MAX in *. lia.
Qed.

Lemma build_path_overruns_on_long_names_witness :
  build_path "/"
    (String.concat "" (replicate 4096 "x")) = PathOverflow.
Proof.
  apply (build_path_overruns_on_long_names "/"
           (String.concat "" (replicate 4096 "x"))).
  - vm_compute. split; [reflexivity|discriminate].
  - vm_compute. split; [discriminate|reflexivity].
Defined.

(** ** The reports of [main] *)

Lemma contents_length b st :
  entries_wf (get_entries b st) ->
  Z.of_nat (length (contents b st)) = idx (get_entries b st).
Proof.
  intros (Hidx & _ & Hlen). unfold contents.
  rewrite length_map, length_take. lia.
Qed.

Lemma report_lines_found (c : libc) (l : list (bucket * (string * stat))) :
  report_lines c
    (map (fun r => Some (Some (fst (snd r)), snd (snd r))) l)
  = Some (map (fun r => report_line c (fst (snd r)) (snd (snd r))) l).
Proof.
  induction l as [|r l IH]; [reflexivity|].
  cbn [map report_lines]. now rewrite IH.
Qed.

Lemma report_findings_found (c : libc) (nb : string * bucket) (st : state)
    (F : list (bucket * (string * stat))) :
  state_wf st ->
  contents (snd nb) st = found_in (snd nb) F ->
  report_findings c (fst nb) (snd nb) st = Some (report_of c F nb).
Proof.
  intros Hwf Hc. unfold report_findings, report_of.
  pose proof (contents_length (snd nb) st (Hwf _)) as Hlen.
  destruct (Hwf (snd nb)) as (Hidx & _ & Hhead).
  destruct (Z.ltb_spec (Z.of_nat (length (head (get_entries (snd nb) st))))
              (idx (get_entries (snd nb) st))) as [|_]; [lia|].
  rewrite Hc in Hlen |- *. unfold found_in in Hlen |- *.
  rewrite report_lines_found. rewrite length_map in Hlen.
  now rewrite Hlen.
Qed.

Lemma report_all_found (c : libc) (st : state)
    (F : list (bucket * (string * stat))) (l : list (string * bucket)) :
  state_wf st ->
  (forall b, contents b st = found_in b F) ->
  report_all c l st = Some (map (report_of c F) l).
Proof.
  intros Hwf Hc. induction l as [|[name b] l IH]; [reflexivity|].
  cbn [report_all map].
  pose proof (report_findings_found c (name, b) st F Hwf (Hc b)) as Hr.
  cbn [fst snd] in Hr. rewrite Hr, IH. reflexivity.
Qed.

Lemma set_stack_found_ok s st :
  state_wf st -> paths_on_heap st -> found_ok st (set_stack s st) [].
Proof.
  intros Hwf Hon. apply found_ok_same; auto.
Qed.

Lemma scan_roots_found (c : libc) (alloc_ok : nat -> bool)
    (extended : bool) (id : identity) :
  (forall n, alloc_ok n = true) ->
  forall paths st,
    state_wf st -> paths_on_heap st ->
    (0 < length (stack st))%nat ->
    Forall (resolves c) paths ->
    (forall b, idx (get_entries b st) + Z.of_nat (objects_below c paths)
               < 2 ^ 32) ->
    exists st',
      scan_roots c alloc_ok extended id paths st = RootsDone st' /\
      found_ok st st' (all_findings c id extended paths).
Proof.
  intros Hserved paths.
  induction paths as [|arg rest IH]; intros st Hwf Hon Hstack Hres Hroom.
  - exists st. split; [reflexivity|].
    apply found_ok_same; auto.
  - apply Forall_cons in Hres as [(p & Hp & Hlen & Hnames) Hres].
    cbn [scan_roots]. rewrite Hp.
    unfold objects_below in Hroom. cbn [sum_list_with] in Hroom.
    rewrite Hp in Hroom. fold (objects_below c rest) in Hroom.
    pose proof (set_stack_found_ok (<[0%nat := p]> (stack st)) st Hwf Hon)
      as Hset.
    set (st1 := set_stack (<[0%nat := p]> (stack st)) st) in *.
    assert (stack st1 = <[0%nat := p]> (stack st)) as Hst1
        by (destruct st; reflexivity).
    assert (forall b, get_entries b st1 = get_entries b st) as Hsame
        by (intros b; apply get_entries_set_stack).
    destruct Hset as (Hwf1 & Hon1 & Hc1).
    destruct (scan_directory_total alloc_ok id extended (object_at c p) 0 p
                st1 Hserved Hnames Hwf1 Hon1) as
      (st2 & Hscan & Hstack2 & Hfound2 & Hidx2).
    + rewrite Hst1. now apply list_lookup_insert_eq.
    + unfold PATH_MAX in *. lia.
    + intros b. rewrite Hsame. specialize (Hroom b). lia.
    + rewrite Hscan.
      destruct Hfound2 as (Hwf2 & Hon2 & Hc2).
      destruct (IH st2 Hwf2 Hon2) as (st3 & Hroots & Hfound3).
      * rewrite Hstack2, Hst1, length_insert. exact Hstack.
      * exact Hres.
      * intros b. specialize (Hidx2 b). specialize (Hroom b).
        rewrite Hsame in Hidx2. lia.
      * exists st3. split; [exact Hroots|].
        unfold all_findings. cbn [flat_map]. rewrite Hp.
        fold (all_findings c id extended rest).
        eapply (found_ok_trans st st2 st3); [|exact Hfound3].
        change (findings id extended (object_at c p) p)
          with ([] ++ findings id extended (object_at c p) p).
        eapply (found_ok_trans st st1 st2); split_and!; auto.
Qed.

(** X8. With memory to be had, [main] returns 0 whenever
    [obtain_user_info] returns, every path resolves and the names below
    fit; and what it prints is a function of the file system: for each
    bucket the number and the lines of the objects found below the
    paths, in the order of the paths and of the walk. A path given twice
    is reported twice. *)
Theorem main_reports_the_findings (c : libc) (alloc_ok : nat -> bool)
    (extended : bool) (user groups : option string) (paths : list string)
    (s : startup) :
  (forall n, alloc_ok n = true) ->
  obtain_user_info c user groups = Started s ->
  Forall (resolves c) paths ->
  Z.of_nat (objects_below c paths) < 2 ^ 32 ->
  exists st,
    main c alloc_ok extended (Options user groups paths)
    = MainReturned s st
        (map (report_of c (all_findings c (identity_of s) extended paths))
           (reported extended)).
Proof.
  intros Hserved Hstart Hres Hroom. unfold main. rewrite Hstart.
  destruct (scan_roots_found c alloc_ok extended (identity_of s) Hserved
              paths (initial_state "")) as (st & Hroots & Hwf & Hon & Hc).
  - apply initial_state_wf.
  - apply initial_state_all_recorded.
  - cbn. lia.
  - exact Hres.
  - intros []; cbn; lia.
  - rewrite Hroots.
    rewrite (report_all_found c st
               (all_findings c (identity_of s) extended paths)); auto.
    + eauto.
    + intros b. rewrite Hc. destruct b; reflexivity.
Qed.




Lemma final_startup_started (o : startup_outcome) :
  is_started o = true -> o = Started (final_startup o).
Proof. destruct o; [reflexivity|discriminate|discriminate]. Qed.

Lemma main_reports_the_findings_witness :
  exists st,
    main sample_libc always_served false (Options None None ["/srv"; "/srv"])
    = MainReturned (final_startup (obtain_user_info sample_libc None None)) st
        (map (report_of sample_libc
                (all_findings sample_libc
                   (identity_of
                      (final_startup (obtain_user_info sample_libc None None)))
                   false ["/srv"; "/srv"]))
           (reported false)).
Proof.
  apply (main_reports_the_findings sample_libc always_served false None None
           ["/srv"; "/srv"]
           (final_startup (obtain_user_info sample_libc None None))).
  - reflexivity.
  - apply final_startup_started. vm_compute. reflexivity.
  - repeat constructor; exists "/srv"; vm_compute;
      (split; [reflexivity|split; [discriminate|reflexivity]]).
  - vm_compute. reflexivity.
Defined.

(** ** The identity that [obtain_user_info] sets up *)

Lemma NGROUPS_MAX_nat : Z.of_nat (Z.to_nat NGROUPS_MAX) = NGROUPS_MAX.
Proof. apply Z2Nat.id. unfold NGROUPS_MAX. lia. Qed.

Lemma holds_groups_length s L :
  holds_groups s L -> Z.of_nat (length L) <= NGROUPS_MAX.
Proof.
  intros (Hlen & _ & Htake). rewrite <- NGROUPS_MAX_nat, <- Hlen.
  rewrite <- Htake at 1. rewrite length_take. lia.
Qed.

Lemma identity_of_holds s L :
  holds_groups s L -> g_groups (identity_of s) = L.
Proof.
  intros (_ & Hn & Htake). unfold identity_of. cbn [g_groups].
  now rewrite Hn, Nat2Z.id.
Qed.

Lemma add_once_length L gid :
  (length L <= length (add_once L gid) <= S (length L))%nat.
Proof.
  unfold add_once. destruct (in_group_loop L gid); [lia|].
  rewrite length_app. cbn. lia.
Qed.

Lemma fold_add_once_length gids :
  forall L, (length L <= length (fold_left add_once gids L))%nat.
Proof.
  induction gids as [|g gids IH]; intros L; cbn [fold_left]; [lia|].
  pose proof (add_once_length L g). specialize (IH (add_once L g)). lia.
Qed.

Lemma add_group_once_holds gid s L :
  holds_groups s L ->
  Z.of_nat (length (add_once L gid)) < NGROUPS_MAX ->
  exists s',
    add_group_once gid s = Started s' /\ holds_groups s' (add_once L gid) /\
    u_uid s' = u_uid s.
Proof.
  intros Hh Hroom. pose proof (identity_of_holds s L Hh) as Hid.
  pose proof (holds_groups_length s L Hh) as HL.
  destruct Hh as (Hlen & Hn & Htake).
  unfold add_group_once, in_group_at, in_group. rewrite Hid.
  unfold add_once in *.
  destruct (in_group_loop L gid).
  - exists s. split_and!; auto. split_and!; auto.
  - rewrite length_app in Hroom. cbn [length] in Hroom.
    destruct (Z.leb_spec (u_ngroups s) (Z.of_nat (length (u_groups s))))
      as [_|Hgt]; [|rewrite Hlen, NGROUPS_MAX_nat in Hgt; lia].
    unfold add_group.
    destruct (Z.leb_spec NGROUPS_MAX (u_ngroups s + 1)) as [Hge|_]; [lia|].
    eexists. split; [reflexivity|]. split; [|reflexivity].
    unfold holds_groups, set_u_groups. cbn [u_groups u_ngroups].
    rewrite Hn, Nat2Z.id, length_insert, length_app. cbn [length].
    split_and!; [exact Hlen|lia|].
    replace (length L + 1)%nat with (S (length L)) by lia.
    rewrite (take_S_r _ _ gid).
    + rewrite take_insert_ge by lia. now rewrite Htake.
    + apply list_lookup_insert_eq. lia.
Qed.

Lemma holds_groups_complain d s L :
  holds_groups s L -> holds_groups (complain d s) L.
Proof. intros H. exact H. Qed.

Lemma append_group_holds c grnam gid s L :
  holds_groups s L ->
  group_named c grnam = Some gid ->
  Z.of_nat (length (add_once L gid)) < NGROUPS_MAX ->
  exists s',
    append_group c grnam s = Started s' /\ holds_groups s' (add_once L gid) /\
    u_uid s' = u_uid s.
Proof.
  intros Hh Hname Hroom. unfold append_group. unfold group_named in Hname.
  destruct (getgrnam c grnam) as [pg|].
  - injection Hname as <-. now apply add_group_once_holds.
  - destruct ((fst (strtoul c grnam) =? ULONG_MAX)
              || negb (String.eqb (snd (strtoul c grnam)) ""));
      [discriminate|].
    injection Hname as <-.
    destruct (getgrgid c (wrap32 (fst (strtoul c grnam)))) as [pg|].
    + now apply add_group_once_holds.
    + apply (add_group_once_holds _
               (complain (UnableToFindGid grnam) s) L); auto.
Qed.

Lemma append_groups_holds c names :
  forall gids s L,
    holds_groups s L ->
    map (group_named c) names = map Some gids ->
    Z.of_nat (length (fold_left add_once gids L)) < NGROUPS_MAX ->
    exists s',
      append_groups c names s = Started s' /\
      holds_groups s' (fold_left add_once gids L) /\
      u_uid s' = u_uid s.
Proof.
  induction names as [|grnam names IH]; intros gids s L Hh Hnames Hroom.
  - destruct gids; [|discriminate]. exists s. auto.
  - destruct gids as [|gid gids]; [discriminate|].
    cbn [map] in Hnames. injection Hnames as Hname Hnames.
    cbn [fold_left] in Hroom |- *.
    pose proof (fold_add_once_length gids (add_once L gid)) as Hmono.
    destruct (append_group_holds c grnam gid s L Hh Hname)
      as (s1 & Hstep & Hh1 & Huid1); [lia|].
    cbn [append_groups]. rewrite Hstep.
    destruct (IH gids s1 (add_once L gid) Hh1 Hnames Hroom)
      as (s2 & Hrest & Hh2 & Huid2).
    exists s2. split_and!; auto. congruence.
Qed.

Lemma all_named (l : list (option Z)) :
  Forall is_Some l -> l = map Some (omap (fun g => g) l).
Proof.
  induction 1 as [|x l [g ->] _ IH]; [reflexivity|].
  cbn. now rewrite <- IH.
Qed.

Lemma startup_init_holds :
  length (u_groups startup_init) = Z.to_nat NGROUPS_MAX /\
  u_ngroups startup_init = NGROUPS_MAX /\
  u_err startup_init = [].
Proof. split_and!; [apply length_replicate|reflexivity|reflexivity]. Qed.

Lemma overlay_holds (l arr : list Z) :
  (length l <= length arr)%nat ->
  length (overlay l arr) = length arr /\
  take (length l) (overlay l arr) = l.
Proof.
  intros Hle. unfold overlay. split.
  - rewrite length_app, length_drop. lia.
  - apply take_app_length.
Qed.

(** X10. When [obtain_user_info] has a passwd entry for the user, or a
    number for a user of [-u] without one, every name of the [-g] list
    is a group or a number, and the groups are fewer than [NGROUPS_MAX],
    it returns with this identity: the uid of the entry, or the number;
    and for groups those of the process with the group of the entry, or
    those of the user of [-u], or none for a user without an entry,
    followed by the groups of the [-g] list that are not there yet, each
    once, in their order. *)
Theorem obtain_user_info_identity (c : libc) (user groups : option string)
    (uid : Z) (pw : option passwd) :
  find_user c user = Some (uid, pw) ->
  (user = None -> is_Some pw) ->
  Forall is_Some (groups_named c groups) ->
  Z.of_nat (length (all_groups c user groups pw)) < NGROUPS_MAX ->
  exists s,
    obtain_user_info c user groups = Started s /\
    identity_of s
    = {| g_uid := match pw with Some e => pw_uid e | None => uid end;
         g_groups := all_groups c user groups pw |}.
Proof.
  intros Hfind Hpw Hnamed Hroom.
  unfold obtain_user_info. rewrite Hfind.
  destruct startup_init_holds as (Hlen0 & Hn0 & _).
  revert Hlen0 Hn0. generalize startup_init as s0. intros s0 Hlen0 Hn0.
  unfold all_groups in Hroom |- *.
  pose proof (fold_add_once_length
                (omap (fun g => g) (groups_named c groups))
                (first_groups c user pw)) as Hmono.
  apply all_named in Hnamed. unfold groups_named in Hnamed at 1.
  assert (forall s2,
            holds_groups s2 (first_groups c user pw) ->
            u_uid s2 = match pw with Some e => pw_uid e | None => uid end ->
            exists s,
              match
                append_groups c
                  match groups with
                  | Some g => strtok_all g
                  | None => []
                  end s2
              with
              | Started s3 => print_identity c pw s3
              | o => o
              end = Started s /\
              identity_of s
              = {| g_uid := match pw with
                            | Some e => pw_uid e
                            | None => uid
                            end;
                   g_groups :=
                     fold_left add_once
                       (omap (fun g => g) (groups_named c groups))
                       (first_groups c user pw) |}) as Hrest.
  { intros s2 Hh2 Huid2.
    destruct (append_groups_holds c _ _ s2 _ Hh2 Hnamed Hroom)
      as (s3 & Happ & Hh3 & Huid3).
    rewrite Happ. unfold print_identity.
    pose proof (holds_groups_length _ _ Hh3) as HL3.
    pose proof (identity_of_holds _ _ Hh3) as Hid3.
    destruct Hh3 as (Hlen3 & Hn3 & Htake3).
    destruct (Z.leb_spec (u_ngroups s3) (Z.of_nat (length (u_groups s3))))
      as [_|Hgt]; [|rewrite Hlen3, NGROUPS_MAX_nat in Hgt; lia].
    eexists. split; [reflexivity|].
    unfold identity_of in Hid3 |- *. cbn [g_groups] in Hid3.
    unfold print_line. cbn [u_uid u_groups u_ngroups].
    rewrite Hid3. f_equal. congruence. }
  destruct pw as [e|].
  - destruct user as [u|].
    + (* the groups of the user of -u *)
      apply Hrest; [|reflexivity].
      cbn [first_groups] in Hmono, Hroom |- *.
      unfold fill_grouplist, holds_groups, set_u_groups, set_u_uid.
      cbn [u_groups u_ngroups].
      rewrite Hn0.
      rewrite (take_ge (getgrouplist c (pw_name e) (pw_gid e)))
        by lia.
      destruct (overlay_holds (getgrouplist c (pw_name e) (pw_gid e))
                  (u_groups s0)) as (Hlen & Htake).
      { rewrite Hlen0. lia. }
      split_and!; [congruence|reflexivity|exact Htake].
    + (* the groups of the process *)
      cbn [first_groups] in Hmono, Hroom, Hrest.
      pose proof (add_once_length (process_groups c) (pw_gid e)) as Hadd.
      unfold getgroups. cbn [fst snd set_u_uid u_ngroups u_groups].
      rewrite Hn0.
      destruct (Z.eqb_spec 0 0) as [_|]; [|contradiction].
      destruct (Z.eqb_spec NGROUPS_MAX 0) as [E|_]; [discriminate E|].
      cbn [fst snd].
      destruct (Z.ltb_spec NGROUPS_MAX
                  (Z.of_nat (length (process_groups c)))) as [|_]; [lia|].
      cbn [fst snd].
      destruct (Z.eqb_spec (Z.of_nat (length (process_groups c))) (-1))
        as [|_]; [lia|].
      destruct (overlay_holds (process_groups c) (u_groups s0))
        as (Hlen & Htake).
      { rewrite Hlen0. lia. }
      match goal with
      | |- context [add_group_once ?g ?s1] =>
          destruct (add_group_once_holds g s1 (process_groups c))
            as (s2 & Hadd2 & Hh2 & Huid2)
      end.
      { unfold holds_groups, set_u_groups. cbn [u_groups u_ngroups].
        split_and!; [congruence|reflexivity|exact Htake]. }
      { lia. }
      rewrite Hadd2. apply Hrest; [exact Hh2|]. rewrite Huid2. reflexivity.
  - destruct user as [u|]; [|destruct (Hpw eq_refl); discriminate].
    apply Hrest; [|reflexivity].
    cbn [first_groups]. unfold holds_groups, set_u_groups.
    cbn [u_groups u_ngroups set_u_uid complain length take].
    split_and!; [exact Hlen0|reflexivity|]. now rewrite take_0.
Qed.

Lemma obtain_user_info_identity_witness :
  exists s,
    obtain_user_info sample_libc (Some "alice") (Some "wheel,5,,sudo")
    = Started s /\
    identity_of s = {| g_uid := 1000; g_groups := [1000; 27; 0; 5] |}.
Proof.
  apply (obtain_user_info_identity sample_libc (Some "alice")
           (Some "wheel,5,,sudo") (wrap32 (-1)) (Some alice_entry)).
  - reflexivity.
  - discriminate.
  - vm_compute. repeat constructor; eexists; reflexivity.
  - vm_compute. reflexivity.
Defined.

(** X11. For the current user the message "trying anyway" is never
    followed by a scan: when the uid of the process has no passwd entry
    and no [-u] is given, [obtain_user_info] does not return. It ends in
    [exit] with "Too many groups!" if the process has any group, and
    otherwise it reads the group of the entry through a null pointer. *)
Theorem current_user_needs_a_passwd_entry (c : libc)
    (groups : option string) :
  getpwuid c (getuid c) = None ->
  match obtain_user_info c None groups with
  | Started _ => False
  | StartupExit s =>
      process_groups c <> [] /\
      u_err s = [UnableToFindUid (getuid c); TooManyGroups]
  | StartupUndefined => process_groups c = []
  end.
Proof.
  intros Hno. unfold obtain_user_info, find_user. rewrite Hno.
  destruct startup_init_holds as (_ & _ & Herr0).
  revert Herr0. generalize startup_init as s0. intros s0 Herr0.
  unfold getgroups.
  cbn [fst snd set_u_uid set_u_groups complain u_ngroups u_groups u_err].
  destruct (Z.eqb_spec 0 0) as [_|]; [|contradiction]. cbn [fst snd].
  destruct (process_groups c) as [|g rest] eqn:Hpg.
  - cbn [length]. change (0 <? Z.of_nat 0) with false. cbn iota.
    change (Z.of_nat 0 =? -1) with false. cbn iota. reflexivity.
  - destruct (Z.ltb_spec 0 (Z.of_nat (length (g :: rest)))) as [_|Hle];
      [|cbn [length] in Hle; lia].
    split; [discriminate|].
    cbn [u_err complain set_u_groups set_u_uid]. rewrite Herr0. reflexivity.
Qed.

Lemma current_user_needs_a_passwd_entry_witness :
  match
    obtain_user_info
      (mk_libc 4242 (getpwuid sample_libc) (getpwnam sample_libc) [4242]
         (getgrouplist sample_libc) (getgrnam sample_libc)
         (getgrgid sample_libc) (strtol sample_libc) (strtoul sample_libc)
         (realpath sample_libc) (object_at sample_libc))
      None None
  with
  | Started _ => False
  | StartupExit s =>
      [4242] <> [] /\ u_err s = [UnableToFindUid 4242; TooManyGroups]
  | StartupUndefined => [4242] = []
  end.
Proof.
  apply (current_user_needs_a_passwd_entry
           (mk_libc 4242 (getpwuid sample_libc) (getpwnam sample_libc) [4242]
              (getgrouplist sample_libc) (getgrnam sample_libc)
              (getgrgid sample_libc) (strtol sample_libc)
              (strtoul sample_libc) (realpath sample_libc)
              (object_at sample_libc))
           None).
  reflexivity.
Defined.

(** ** More groups than the array holds *)

Lemma add_group_once_overrun gid s s' :
  groups_overrun s -> add_group_once gid s = Started s' -> s' = s.
Proof.
  intros (Hlen & Hgt). unfold add_group_once.
  destruct (in_group_at s gid) as [[|]|]; [congruence| |discriminate].
  unfold add_group.
  destruct (Z.leb_spec NGROUPS_MAX (u_ngroups s + 1)); [discriminate|lia].
Qed.

Lemma append_group_overrun c grnam s s' :
  groups_overrun s -> append_group c grnam s = Started s' ->
  groups_overrun s'.
Proof.
  intros Hover. unfold append_group.
  destruct (getgrnam c grnam) as [pg|].
  - intros H. now apply add_group_once_overrun in H as ->.
  - destruct ((fst (strtoul c grnam) =? ULONG_MAX)
              || negb (String.eqb (snd (strtoul c grnam)) ""));
      [discriminate|].
    destruct (getgrgid c (wrap32 (fst (strtoul c grnam)))) as [pg|]; intros H.
    + now apply add_group_once_overrun in H as ->.
    + apply add_group_once_overrun in H as ->; exact Hover.
Qed.

Lemma append_groups_overrun c names :
  forall s s',
    groups_overrun s -> append_groups c names s = Started s' ->
    groups_overrun s'.
Proof.
  induction names as [|grnam names IH]; intros s s' Hover; cbn [append_groups].
  - now intros [= <-].
  - destruct (append_group c grnam s) as [s1| |] eqn:Hstep; try discriminate.
    apply IH. eapply append_group_overrun; eassumption.
Qed.

(** X12. The result of [getgrouplist] is not looked at: for a user of
    [-u] who is in more than [NGROUPS_MAX] groups, [g_ngroups] is left
    beyond the array, and [obtain_user_info] does not return; it ends
    in [exit] at a group of [-g] that is new or not known, or else reads
    beyond [g_groups]. *)
Theorem obtain_user_info_overruns_on_many_groups (c : libc)
    (u : string) (groups : option string) (uid : Z) (e : passwd) :
  find_user c (Some u) = Some (uid, Some e) ->
  NGROUPS_MAX < Z.of_nat (length (getgrouplist c (pw_name e) (pw_gid e))) ->
  is_started (obtain_user_info c (Some u) groups) = false.
Proof.
  intros Hfind Hmany. unfold obtain_user_info. rewrite Hfind.
  destruct startup_init_holds as (Hlen0 & Hn0 & _).
  revert Hlen0 Hn0. generalize startup_init as s0. intros s0 Hlen0 Hn0.
  assert (groups_overrun (fill_grouplist c e (set_u_uid (pw_uid e) s0)))
    as Hover.
  { unfold groups_overrun, fill_grouplist, set_u_groups, set_u_uid.
    cbn [u_groups u_ngroups]. split; [|exact Hmany].
    unfold overlay. rewrite length_app, length_drop, length_take. lia. }
  destruct (append_groups c _ _) as [s3| |] eqn:Happ; try reflexivity.
  apply append_groups_overrun in Happ as (Hlen3 & Hgt3); [|exact Hover].
  unfold print_identity.
  destruct (Z.leb_spec (u_ngroups s3) (Z.of_nat (length (u_groups s3))))
    as [Hle|_]; [|reflexivity].
  rewrite Hlen3, NGROUPS_MAX_nat in Hle. lia.
Qed.

Lemma obtain_user_info_overruns_on_many_groups_witness :
  is_started (obtain_user_info crowded_libc (Some "alice") None) = false.
Proof.
  apply (obtain_user_info_overruns_on_many_groups crowded_libc "alice" None
           (wrap32 (-1)) alice_entry).
  - reflexivity.
  - vm_compute. reflexivity.
Defined.

(** ** What [report_findings] reads *)

Lemma report_lines_cells (c : libc)
    (cells : list (option (option string * stat))) (lines : list string) :
  report_lines c cells = Some lines ->
  Forall (fun x => exists p sb, x = Some (Some p, sb)) cells.
Proof.
  revert lines. induction cells as [|x cells IH]; intros lines H.
  - constructor.
  - cbn [report_lines] in H. destruct x as [[[p|] sb]|]; try discriminate.
    destruct (report_lines c cells) as [rest|] eqn:E; [|discriminate].
    constructor; eauto.
Qed.

(** X13. The result of [strdup] is not looked at: when the copy of the
    path cannot be made, [record_access] still returns, with a record
    whose path is null, and the report on that bucket then reads the
    path through the null pointer. *)
Theorem unchecked_strdup_breaks_the_report (c : libc)
    (alloc_ok : nat -> bool) (name : string) (b : bucket) (p : ptr)
    (sb : stat) (st st' : state) :
  state_wf st ->
  record_access alloc_ok b p sb st = Done st' ->
  alloc_ok (if idx (get_entries b st) =? len (get_entries b st)
            then S (brk st) else brk st) = false ->
  report_findings c name b st' = None.
Proof.
  intros Hwf Hdone Hno.
  destruct (record_access_done alloc_ok b p sb st st' (Hwf b) Hdone)
    as (s & _ & Hidx & _ & _ & _ & Hcell & _).
  cbv zeta in Hidx, Hcell. rewrite Hno in Hcell.
  destruct (Hwf b) as ((Hidx0 & _) & _).
  unfold report_findings. cbv zeta.
  destruct (_ <? _); [reflexivity|].
  destruct (report_lines c (contents b st')) as [lines|] eqn:E;
    [exfalso|reflexivity].
  apply report_lines_cells in E.
  assert (contents b st' !! Z.to_nat (idx (get_entries b st))
          = Some (Some (None, sb))) as Hat.
  { unfold contents. rewrite list_lookup_fmap, lookup_take_lt by lia.
    rewrite Hcell. reflexivity. }
  apply (Forall_lookup_1 _ _ _ _ E) in Hat as (q & sb' & [=]).
Qed.

Lemma unchecked_strdup_breaks_the_report_witness :
  report_findings sample_libc "writable" Writable
    (final_state
       (record_access served_once Writable (StackBuf 0) file_0666
          (initial_state "/srv/b"))) = None.
Proof.
  apply (unchecked_strdup_breaks_the_report sample_libc served_once
           "writable" Writable (StackBuf 0) file_0666
           (initial_state "/srv/b")).
  - apply initial_state_wf.
  - vm_compute. reflexivity.
  - reflexivity.
Defined.

(** ** No symbolic link in a report *)

Lemma type_str_link (m : Z) : type_str m = "link" -> S_ISLNK m = true.
Proof.
  unfold type_str, S_ISLNK. cbv zeta.
  destruct (Z.land m S_IFMT =? S_IFSOCK); [discriminate|].
  destruct (Z.land m S_IFMT =? S_IFLNK); [reflexivity|].
  destruct (Z.land m S_IFMT =? S_IFREG); [discriminate|].
  destruct (Z.land m S_IFMT =? S_IFBLK); [discriminate|].
  destruct (Z.land m S_IFMT =? S_IFDIR); [discriminate|].
  destruct (Z.land m S_IFMT =? S_IFCHR); [discriminate|].
  destruct (Z.land m S_IFMT =? S_IFIFO); discriminate.
Qed.

Lemma report_lines_no_link (c : libc) (st : state)
    (cells : list (option entry_t)) :
  (forall e, In (Some e) cells -> S_ISLNK (st_mode (statbuf e)) = false) ->
  forall lines,
    report_lines c (map (view st) cells) = Some lines ->
    Forall (line_of_no_link c) lines.
Proof.
  induction cells as [|x cells IH]; intros Hcells lines H.
  - injection H as <-. constructor.
  - cbn [map report_lines] in H. destruct x as [e|]; [|discriminate].
    cbn [view] in H. destruct (deref st (path e)) as [p|]; [|discriminate].
    destruct (report_lines c (map (view st) cells)) as [rest|] eqn:E;
      [|discriminate].
    injection H as <-. constructor.
    + exists p, (statbuf e). split; [reflexivity|].
      intros Hlink. apply type_str_link in Hlink.
      rewrite (Hcells e) in Hlink; [discriminate|now left].
    + apply IH; [|reflexivity]. intros e' Hin. apply Hcells. now right.
Qed.

Lemma report_findings_no_link (c : libc) (name : string) (b : bucket)
    (st : state) (r : string * list string) :
  no_symlink_recorded st ->
  report_findings c name b st = Some r ->
  Forall (line_of_no_link c) (snd r).
Proof.
  intros Hno. unfold report_findings. cbv zeta.
  destruct (_ <? _); [discriminate|].
  destruct (report_lines c (contents b st)) as [lines|] eqn:E;
    [|discriminate].
  intros [= <-]. cbn [snd].
  apply (report_lines_no_link c st _) in E; [exact E|].
  intros e Hin. apply list_elem_of_In, list_elem_of_lookup in Hin.
  destruct Hin as [i Hi]. apply lookup_take_Some in Hi as [Hi Hlt].
  apply (Hno b i e). apply recorded_cell. split; [lia|exact Hi].
Qed.

Lemma report_all_no_link (c : libc) (st : state) (l : list (string * bucket)) :
  no_symlink_recorded st ->
  forall reports,
    report_all c l st = Some reports ->
    Forall (fun r => Forall (line_of_no_link c) (snd r)) reports.
Proof.
  intros Hno. induction l as [|[name b] l IH]; intros reports H.
  - injection H as <-. constructor.
  - cbn [report_all] in H.
    destruct (report_findings c name b st) as [r|] eqn:Hr; [|discriminate].
    destruct (report_all c l st) as [rs|]; [|discriminate].
    injection H as <-. constructor; [|now apply IH].
    eapply report_findings_no_link; eassumption.
Qed.

Lemma set_stack_no_symlink s st :
  no_symlink_recorded st -> no_symlink_recorded (set_stack s st).
Proof.
  intros Hno b i e H. apply (Hno b i e).
  unfold recorded in *. now rewrite get_entries_set_stack in H.
Qed.

Lemma set_stack_wf s st : state_wf st -> state_wf (set_stack s st).
Proof. intros Hwf b. rewrite get_entries_set_stack. apply Hwf. Qed.

Lemma scan_roots_no_symlink (c : libc) (alloc_ok : nat -> bool)
    (extended : bool) (id : identity) (paths : list string) :
  forall st st',
    state_wf st -> no_symlink_recorded st ->
    scan_roots c alloc_ok extended id paths st = RootsDone st' ->
    no_symlink_recorded st'.
Proof.
  induction paths as [|arg rest IH]; intros st st' Hwf Hno; cbn [scan_roots].
  - now intros [= <-].
  - destruct (realpath c arg) as [p|]; [|discriminate].
    destruct (scan_directory alloc_ok id extended (object_at c p)
                (StackBuf 0) _) as [st1|st1|] eqn:Hscan; try discriminate.
    apply IH.
    + apply (scan_directory_keeps alloc_ok id extended _ _ _ _
               (or_introl Hscan)).
      now apply set_stack_wf.
    + apply (scan_directory_no_symlink alloc_ok id extended _ _ _ st1
               (set_stack_wf _ _ Hwf) (set_stack_no_symlink _ _ Hno)
               (or_introl Hscan)).
Qed.

(** X14. No line of the reports of [main] is for a symbolic link: the
    case "link" of [report_findings] is never taken, whatever the file
    system holds and however the allocator behaves. *)
Theorem main_never_reports_a_link (c : libc) (alloc_ok : nat -> bool)
    (extended : bool) (opts : options) :
  match main c alloc_ok extended opts with
  | MainReturned _ _ reports =>
      Forall (fun r => Forall (line_of_no_link c) (snd r)) reports
  | _ => True
  end.
Proof.
  unfold main. destruct opts as [|user groups paths]; [exact I|].
  destruct (obtain_user_info c user groups) as [s0|s0|]; try exact I.
  destruct (scan_roots c alloc_ok extended (identity_of s0) paths
              (initial_state "")) as [st1|a st1|st1|] eqn:Hroots;
    try exact I.
  destruct (report_all c (reported extended) st1) as [rs|] eqn:Hrep;
    [|exact I].
  apply (report_all_no_link c st1 (reported extended)); [|exact Hrep].
  apply (scan_roots_no_symlink c alloc_ok extended (identity_of s0) paths
           (initial_state "") st1); [apply initial_state_wf| |exact Hroots].
  apply initial_state_all_recorded.
Qed.

(** ** The buffers of [report_findings] *)

Lemma digits_loop_length (radix : Z) :
  1 < radix ->
  forall fuel k n acc,
    (1 <= k <= fuel)%nat -> 0 <= n < radix ^ Z.of_nat k ->
    (String.length acc + 1
     <= String.length (digits_loop fuel radix n acc)
     <= String.length acc + k)%nat.
Proof.
  intros Hradix. induction fuel as [|fuel IH]; intros k n acc Hk Hn; [lia|].
  cbn [digits_loop].
  destruct (Z.eqb_spec (n / radix) 0) as [E|E].
  - cbn [String.length]. lia.
  - assert (radix <= n) as Hge.
    { destruct (Z.lt_ge_cases n radix) as [Hlt|]; [|lia].
      rewrite Z.div_small in E by lia. contradiction. }
    destruct k as [|[|k]]; [lia| |].
    + change (Z.of_nat 1) with 1 in Hn. rewrite Z.pow_1_r in Hn. lia.
    + assert (0 <= n / radix < radix ^ Z.of_nat (S k)) as Hq.
      { split; [apply Z.div_pos; lia|].
        apply Z.div_lt_upper_bound; [lia|].
        rewrite <- Z.pow_succ_r by lia.
        replace (Z.succ (Z.of_nat (S k))) with (Z.of_nat (S (S k))) by lia.
        lia. }
      specialize (IH (S k) (n / radix)
                    (String (digit (n mod radix)) acc)).
      cbn [String.length] in IH. lia.
Qed.

Lemma fill_length n ch s :
  String.length (fill n ch s) = (n + String.length s)%nat.
Proof. induction n as [|n IH]; cbn [fill String.length]; lia. Qed.

Lemma strip_type_small (m : Z) :
  0 <= m < 2 ^ 16 -> Z.land m (Z.lnot S_IFMT) = m mod 2 ^ 12.
Proof.
  intros Hm. apply Z.bits_inj'. intros i Hi.
  rewrite Z.land_spec, Z.lnot_spec by lia.
  destruct (Z.lt_ge_cases i 12) as [Hlt|Hge].
  - rewrite Z.mod_pow2_bits_low by lia.
    change S_IFMT with (15 * 2 ^ 12).
    rewrite Z.mul_pow2_bits_low by lia. apply andb_true_r.
  - rewrite Z.mod_pow2_bits_high by lia.
    destruct (Z.lt_ge_cases i 16) as [Hlt|Hge16].
    + assert (i = 12 \/ i = 13 \/ i = 14 \/ i = 15) as Hcases by lia.
      destruct Hcases as [->|[->|[->| ->]]]; apply andb_false_r.
    + rewrite <- (Z.mod_small m (2 ^ 16)) by lia.
      rewrite Z.mod_pow2_bits_high by lia. reflexivity.
Qed.

(** X15. The strings that [report_findings] formats fit its buffers:
    the mode takes from 4 to 11 characters of the 16 of [mode_str],
    and exactly the four octal digits of the permission bits for a mode
    of 16 bits; a numeric owner or group below 2^64 takes at most 20 of
    the 128 of [tmpu] and [tmpg]. *)
Theorem report_findings_buffers_suffice (m n : Z) :
  4 <= strlen (mode_str m) <= 11 /\
  (0 <= m < 2 ^ 16 -> strlen (mode_str m) = 4) /\
  (0 <= n < 2 ^ 64 -> strlen (print_u n) <= 20).
Proof.
  assert (forall x, 0 <= x < 2 ^ 32 ->
            4 <= strlen (print_04o x) <= 11) as Hgen.
  { intros x Hx. unfold print_04o, pad_left, strlen.
    rewrite fill_length.
    pose proof (digits_loop_length 8 ltac:(lia) 64 11 x "" ltac:(lia)
                  ltac:(change (8 ^ Z.of_nat 11) with 8589934592; lia))
      as Hd.
    fold (digits 8 x) in Hd. cbn [String.length] in Hd. lia. }
  split; [|split].
  - apply Hgen. unfold wrap32. apply Z.mod_pos_bound. lia.
  - intros Hm. unfold mode_str. rewrite strip_type_small by exact Hm.
    assert (0 <= m mod 2 ^ 12 < 2 ^ 12) as Hr
        by (apply Z.mod_pos_bound; lia).
    unfold wrap32. rewrite (Z.mod_small (m mod 2 ^ 12)) by lia.
    unfold print_04o, pad_left, strlen. rewrite fill_length.
    pose proof (digits_loop_length 8 ltac:(lia) 64 4 (m mod 2 ^ 12) ""
                  ltac:(lia)
                  ltac:(change (8 ^ Z.of_nat 4) with (2 ^ 12); lia)) as Hd.
    fold (digits 8 (m mod 2 ^ 12)) in Hd. cbn [String.length] in Hd. lia.
  - intros Hn. unfold print_u, strlen.
    pose proof (digits_loop_length 10 ltac:(lia) 64 20 n "" ltac:(lia)
                  ltac:(change (10 ^ Z.of_nat 20)
                          with 100000000000000000000; lia)) as Hd.
    fold (digits 10 n) in Hd. cbn [String.length] in Hd. lia.
Qed.

Lemma report_findings_buffers_suffice_witness :
  4 <= strlen (mode_str (S_IFREG + 2541)) <= 11 /\
  strlen (mode_str (S_IFREG + 2541)) = 4 /\
  strlen (print_u 4294967295) <= 20.
Proof.
  destruct (report_findings_buffers_suffice (S_IFREG + 2541) 4294967295)
    as (H1 & H2 & H3).
  split; [|split].
  - exact H1.
  - apply H2. vm_compute. split; [discriminate|reflexivity].
  - apply H3. vm_compute. split; [discriminate|reflexivity].
Defined.

(** ** The buckets are always full *)

Lemma record_access_stays_full alloc_ok b p sb st st' :
  record_access alloc_ok b p sb st = Done st' -> stays_full st st'.
Proof.
  intros Hdone Hwf Hfull.
  destruct (record_access_keeps alloc_ok b p sb st st' (or_introl Hdone) Hwf)
    as (Hwf' & _).
  split; [exact Hwf'|]. intros b'.
  destruct (decide (b' = b)) as [->|Hne].
  - destruct (record_access_done alloc_ok b p sb st st' (Hwf b) Hdone)
      as (_ & _ & Hidx & Hlen & _).
    cbv zeta in Hidx, Hlen. rewrite Hidx, Hlen.
    specialize (Hfull b).
    destruct (Z.eqb_spec (idx (get_entries b st)) (len (get_entries b st)));
      lia.
  - destruct (record_access_frame alloc_ok b p sb st st' (or_introl Hdone))
      as (Hframe & _).
    rewrite Hframe by exact Hne. apply Hfull.
Qed.

Lemma record_access_level_stays_full alloc_ok id extended p sb st st' :
  record_access_level alloc_ok id extended p sb st = Done st' ->
  stays_full st st'.
Proof.
  intros Hdone.
  destruct (record_access_level_cases alloc_ok id extended p sb st)
    as [(b & _ & E)|(_ & E)]; rewrite E in Hdone.
  - eapply record_access_stays_full; eassumption.
  - injection Hdone as <-. intros ? ?; auto.
Qed.

(** X16. Every bucket is full at every return of a scan that starts
    with full buckets, as the empty ones of the start are: capacity and
    count stay equal, so each record of a run takes a call of [realloc]
    for one more cell. *)
Theorem scan_directory_keeps_buckets_full (alloc_ok : nat -> bool)
    (id : identity) (extended : bool) (fs : node) (dir : ptr)
    (st st' : state) :
  state_wf st -> full_buckets st ->
  scan_directory alloc_ok id extended fs dir st = Done st' ->
  full_buckets st'.
Proof.
  intros Hwf Hfull Hdone.
  pose proof (scan_directory_rel alloc_ok id extended
                stays_full (fun _ _ => True)) as H.
  specialize (H (fun st0 Hw Hf => conj Hw Hf)).
  specialize (H (fun a b c Hab Hbc Hw Hf =>
                   Hbc (proj1 (Hab Hw Hf)) (proj2 (Hab Hw Hf)))).
  specialize (H (fun _ _ _ _ _ => I)).
  specialize (H (fun d st0 Hw Hf => conj Hw Hf)).
  specialize (H (fun s st0 Hw Hf =>
                   conj (set_stack_wf s st0 Hw)
                        (fun b => eq_trans
                           (f_equal len (get_entries_set_stack b s st0))
                           (eq_trans (Hf b)
                              (eq_sym (f_equal idx
                                 (get_entries_set_stack b s st0))))))).
  specialize (H (fun p sb st0 st1 _ Hd =>
                   record_access_level_stays_full alloc_ok id extended
                     p sb st0 st1 Hd)).
  specialize (H (fun _ _ _ _ _ _ => I) fs dir st).
  rewrite Hdone in H. apply H; assumption.
Qed.

Lemma scan_directory_keeps_buckets_full_witness :
  full_buckets
    (final_state (scan_directory always_served tester false sample_tree
                    (StackBuf 0) (initial_state "/tmp/root"))).
Proof.
  apply (scan_directory_keeps_buckets_full always_served tester false
           sample_tree (StackBuf 0) (initial_state "/tmp/root")).
  - apply initial_state_wf.
  - intros []; reflexivity.
  - vm_compute. reflexivity.
Defined.

(** ** The directory that is scanned is not recorded *)

Lemma findings_longer (id : identity) (extended : bool) (fs : node) :
  names_given fs = true ->
  forall d b p sb,
    In (b, (p, sb)) (findings id extended fs d) -> strlen d < strlen p.
Proof.
  induction fs as [r|r entries IH] using node_ind;
    intros Hnames d b p sb Hin; [destruct Hin|].
  cbn [findings] in Hin.
  apply in_flat_map in Hin as ([d_name child] & Hpe & Hin).
  apply found_entry_In in Hin as (_ & p0 & sb0 & Hp & _ & _ & Hcase).
  cbn [fst snd] in *.
  cbn [names_given] in Hnames. rewrite forallb_forall in Hnames.
  specialize (Hnames _ Hpe). cbn [fst snd] in Hnames.
  apply andb_prop in Hnames as [Hname Hchild].
  apply Z.ltb_lt in Hname.
  assert (strlen d < strlen p0) as Hlt.
  { apply build_path_ok in Hp as [[->| ->] _]; rewrite !strlen_app.
    - lia.
    - change (strlen "/") with 1. lia. }
  destruct Hcase as [(_ & -> & _)|(_ & Hbelow)]; [exact Hlt|].
  rewrite Forall_forall in IH.
  specialize (IH (d_name, child) (proj2 (list_elem_of_In _ _) Hpe)
                Hchild p0 b p sb Hbelow).
  cbn [snd] in IH. lia.
Qed.

(** X17. The directory that is scanned is not itself among the
    findings, whatever its mode: a scan records only what is below it,
    under paths that are longer than its own. *)
Theorem scan_directory_skips_its_root (alloc_ok : nat -> bool)
    (id : identity) (extended : bool) (fs : node) (f : nat) (d : string)
    (st st' : state) (b : bucket) (p : string) (sb : stat) :
  (forall n, alloc_ok n = true) ->
  names_given fs = true ->
  state_wf st -> paths_on_heap st ->
  stack st !! f = Some d ->
  scan_directory alloc_ok id extended fs (StackBuf f) st = Done st' ->
  In (Some (Some p, sb)) (drop (length (contents b st)) (contents b st')) ->
  strlen d < strlen p /\ p <> d.
Proof.
  intros Hserved Hnames Hwf Hon Hd Hscan Hin.
  destruct (scan_directory_found alloc_ok id extended Hserved fs f d st st'
              Hwf Hon Hd Hscan) as (_ & _ & _ & Hc).
  rewrite Hc, drop_app_length, found_in_In in Hin.
  apply findings_longer in Hin; [|exact Hnames].
  split; [exact Hin|]. intros ->. lia.
Qed.

Lemma scan_directory_skips_its_root_witness :
  strlen "/tmp/root" < strlen "/tmp/root/a" /\ "/tmp/root/a" <> "/tmp/root".
Proof.
  apply (scan_directory_skips_its_root always_served tester false
           sample_tree 0 "/tmp/root" (initial_state "/tmp/root")
           (final_state
              (scan_directory always_served tester false sample_tree
                 (StackBuf 0) (initial_state "/tmp/root")))
           Suid "/tmp/root/a" file_4755).
  - reflexivity.
  - reflexivity.
  - apply initial_state_wf.
  - apply initial_state_all_recorded.
  - reflexivity.
  - vm_compute. reflexivity.
  - vm_compute. left. reflexivity.
Defined.

(** ** [exit] in a scan *)

Lemma scan_roots_exit (c : libc) (alloc_ok : nat -> bool) (extended : bool)
    (id : identity) (paths : list string) :
  forall st st',
    scan_roots c alloc_ok extended id paths st = RootsExit st' ->
    out_of_memory alloc_ok st'.
Proof.
  induction paths as [|arg rest IH]; intros st st'; cbn [scan_roots];
    [discriminate|].
  destruct (realpath c arg) as [p|]; [|discriminate].
  destruct (scan_directory alloc_ok id extended (object_at c p)
              (StackBuf 0) _) as [st1|st1|] eqn:Hscan; try discriminate.
  - apply IH.
  - intros [= <-]. eapply scan_directory_exit. exact Hscan.
Qed.

(** X18. Once the identity is set up, [main] ends in [exit] only for
    want of memory: the allocator has just refused a request, and the
    last message on [stderr] says so. No report is printed then,
    whatever was found before. *)
Theorem main_exits_in_a_scan_only_out_of_memory (c : libc)
    (alloc_ok : nat -> bool) (extended : bool) (opts : options) :
  match main c alloc_ok extended opts with
  | MainScanExit _ st => out_of_memory alloc_ok st
  | _ => True
  end.
Proof.
  unfold main. destruct opts as [|user groups paths]; [exact I|].
  destruct (obtain_user_info c user groups) as [s0|s0|]; try exact I.
  destruct (scan_roots c alloc_ok extended (identity_of s0) paths
              (initial_state "")) as [st1|a st1|st1|] eqn:Hroots;
    try exact I.
  - destruct (report_all c (reported extended) st1); exact I.
  - eapply scan_roots_exit. exact Hroots.
Qed.

(** ** The extended mode adds to the plain one *)

Lemma found_in_flat_map {A : Type} (b : bucket)
    (f g : A -> list (bucket * (string * stat))) (l : list A) :
  Forall (fun x => found_in b (f x) = found_in b (g x)) l ->
  found_in b (flat_map f l) = found_in b (flat_map g l).
Proof.
  induction 1 as [|x l Hx _ IH]; [reflexivity|].
  cbn [flat_map]. now rewrite !found_in_app, Hx, IH.
Qed.

Lemma first_match_extended (id : identity) (sb : stat) (b : bucket) :
  b <> Readable -> b <> Executable ->
  found_in b match first_match id true sb with
             | Some b0 => [(b0, ("", sb))]
             | None => []
             end
  = found_in b match first_match id false sb with
               | Some b0 => [(b0, ("", sb))]
               | None => []
               end.
Proof.
  intros Hr He. unfold first_match, priority_chain.
  cbn [app List.find matches].
  destruct (is_setuid id sb); [reflexivity|].
  destruct (is_setgid id sb); [reflexivity|].
  destruct (is_writable id sb); [reflexivity|].
  destruct (is_readable id sb).
  { unfold found_in. cbn [filter]. cbn.
    destruct (decide (Readable = b)); [congruence|reflexivity]. }
  destruct (is_executable id sb); [|reflexivity].
  unfold found_in. cbn.
  destruct (decide (Executable = b)); [congruence|reflexivity].
Qed.

Lemma findings_extended (id : identity) (b : bucket) (fs : node) :
  b <> Readable -> b <> Executable ->
  forall d,
    found_in b (findings id true fs d) = found_in b (findings id false fs d).
Proof.
  intros Hr He.
  induction fs as [r|r entries IH] using node_ind; intros d; [reflexivity|].
  cbn [findings]. apply found_in_flat_map.
  eapply Forall_impl; [exact IH|]. intros [d_name child] IHc.
  cbn [snd] in IHc. unfold found_entry. cbn [fst snd].
  destruct (is_dot_or_dotdot d_name); [reflexivity|].
  destruct (build_path d d_name) as [| |p]; try reflexivity.
  destruct (lstat child) as [sb|]; [|reflexivity].
  destruct (S_ISLNK (st_mode sb)); [reflexivity|].
  rewrite !found_in_app. f_equal.
  - pose proof (first_match_extended id sb b Hr He) as H.
    destruct (first_match id true sb) as [b1|];
      destruct (first_match id false sb) as [b2|]; unfold found_in in *;
      cbn in *;
      repeat match goal with
             | |- context [decide (?x = b)] => destruct (decide (x = b))
             | H : context [decide (?x = b)] |- _ =>
                 destruct (decide (x = b))
             end; cbn in *; congruence.
  - destruct (S_ISDIR (st_mode sb) && is_executable id sb); [|reflexivity].
    apply IHc.
Qed.

(** X19. [RECORD_LESS_INTERESTING] changes nothing in the three reports
    of the plain build: scanned from the same state, the set-uid, the
    set-gid and the writable bucket get the same records in the same
    order with and without it. *)
Theorem extended_scan_agrees_on_plain_buckets (alloc_ok : nat -> bool)
    (id : identity) (fs : node) (f : nat) (d : string)
    (st st1 st2 : state) (b : bucket) :
  (forall n, alloc_ok n = true) ->
  state_wf st -> paths_on_heap st ->
  stack st !! f = Some d ->
  scan_directory alloc_ok id true fs (StackBuf f) st = Done st1 ->
  scan_directory alloc_ok id false fs (StackBuf f) st = Done st2 ->
  b <> Readable -> b <> Executable ->
  contents b st1 = contents b st2.
Proof.
  intros Hserved Hwf Hon Hd H1 H2 Hr He.
  destruct (scan_directory_found alloc_ok id true Hserved fs f d st st1
              Hwf Hon Hd H1) as (_ & _ & _ & Hc1).
  destruct (scan_directory_found alloc_ok id false Hserved fs f d st st2
              Hwf Hon Hd H2) as (_ & _ & _ & Hc2).
  rewrite Hc1, Hc2. f_equal. now apply findings_extended.
Qed.

Lemma extended_scan_agrees_on_plain_buckets_witness :
  contents Writable
    (final_state (scan_directory always_served tester true sample_tree
                    (StackBuf 0) (initial_state "/tmp/root")))
  = contents Writable
      (final_state (scan_directory always_served tester false sample_tree
                      (StackBuf 0) (initial_state "/tmp/root"))).
Proof.
  apply (extended_scan_agrees_on_plain_buckets always_served tester
           sample_tree 0 "/tmp/root" (initial_state "/tmp/root")).
  - reflexivity.
  - apply initial_state_wf.
  - apply initial_state_all_recorded.
  - reflexivity.
  - vm_compute. reflexivity.
  - vm_compute. reflexivity.
  - discriminate.
  - discriminate.
Defined.

(** ** The messages of a walk *)

Section Complaints.

Variable alloc_ok : nat -> bool.
Variable id : identity.
Variable RECORD_LESS_INTERESTING : bool.





End Complaints.


